(** * DSPi-Console: [generate_index.py]

    A shallow embedding of the AutoEQ catalog generator.  The script walks a
    directory tree of [ParametricEQ.txt] profiles, parses every profile into a
    preamp and a list of filters, keeps one entry per headphone according to
    the priority of its source, sorts the survivors and prints them as one
    JSON document.

    Conventions of the embedding.

    - Text is a list of characters ([str]).  The character functions
      ([lower], [upper], [strip], the classes [\s] and [\d]) are those of
      Python on ASCII text, which is what the profiles and folder names of
      the AutoEQ repository are made of.
    - A Python [float] is represented by the exact decimal number its
      literal denotes, a rational [Q].  [float()] rounds that number to the
      nearest double; rounding is monotone and keeps zero, so signs and
      comparisons with zero are those of the rational.
    - An exception that nothing catches is a [Raise] result.
    - The file system is a tree of directories and files; a directory lists
      its children in the order [os.listdir] returns them. *)

From Stdlib Require Import Ascii String.
From Stdlib Require Import List Bool Arith ZArith QArith Lia.
From Stdlib Require Import Sorted Permutation.
Import ListNotations.

Local Close Scope Q_scope.
Local Open Scope string_scope.
Local Open Scope nat_scope.
Local Open Scope list_scope.

Set Implicit Arguments.

(** ** Text *)

Abbreviation str := (list ascii).

(** String literals stand for the list of their characters. *)
Definition lit (s : string) : str := list_ascii_of_string s.
Coercion lit : string >-> list.
Arguments lit : simpl never.

Module Text.

Definition code (c : ascii) : nat := nat_of_ascii c.

(** [str.isspace] on ASCII: tab, line feed, vertical tab, form feed,
    carriage return, the four separators 0x1c..0x1f and the space.  The
    same set is the class [\s] of [re] on [str] patterns and what
    [str.strip()] removes. *)
Definition is_space (c : ascii) : bool :=
  let n := code c in
  ((9 <=? n) && (n <=? 13)) || ((28 <=? n) && (n <=? 32)).

(** The class [\d] on ASCII. *)
Definition is_digit (c : ascii) : bool :=
  let n := code c in (48 <=? n) && (n <=? 57).

Definition is_upper (c : ascii) : bool :=
  let n := code c in (65 <=? n) && (n <=? 90).

Definition is_lower (c : ascii) : bool :=
  let n := code c in (97 <=? n) && (n <=? 122).

Definition lower_char (c : ascii) : ascii :=
  if is_upper c then ascii_of_nat (code c + 32) else c.

Definition upper_char (c : ascii) : ascii :=
  if is_lower c then ascii_of_nat (code c - 32) else c.

(** [s.lower()] and [s.upper()]. *)
Definition lower (s : str) : str := map lower_char s.
Definition upper (s : str) : str := map upper_char s.

(** [s.lstrip()], [s.rstrip()], [s.strip()]. *)
Fixpoint lstrip (s : str) : str :=
  match s with
  | c :: s' => if is_space c then lstrip s' else s
  | [] => []
  end.

Definition rstrip (s : str) : str := rev (lstrip (rev s)).

Definition strip (s : str) : str := rstrip (lstrip s).

(** [s.startswith(p)]. *)
Fixpoint startswith (p s : str) : bool :=
  match p, s with
  | [], _ => true
  | a :: p', b :: s' => Ascii.eqb a b && startswith p' s'
  | _ :: _, [] => false
  end.

(** [needle in hay]. *)
Fixpoint contains (needle hay : str) : bool :=
  startswith needle hay ||
  match hay with
  | [] => false
  | _ :: hay' => contains needle hay'
  end.

(** [a == b] on strings. *)
Fixpoint str_eqb (a b : str) : bool :=
  match a, b with
  | [], [] => true
  | x :: a', y :: b' => Ascii.eqb x y && str_eqb a' b'
  | _, _ => false
  end.

(** [s.split(sep)] for a one-character separator: never empty, one more
    piece than there are separators. *)
Fixpoint split (sep : ascii) (s : str) : list str :=
  match s with
  | [] => [[]]
  | c :: s' =>
      if Ascii.eqb c sep then [] :: split sep s'
      else match split sep s' with
           | w :: ws => (c :: w) :: ws
           | [] => [[c]]
           end
  end.

(** [s.split(sep, 1)]: at most one cut, at the first separator. *)
Fixpoint split1 (sep : ascii) (s : str) : list str :=
  match s with
  | [] => [[]]
  | c :: s' =>
      if Ascii.eqb c sep then [[]; s']
      else match split1 sep s' with
           | w :: ws => (c :: w) :: ws
           | [] => [[c]]
           end
  end.

(** [a < b], [a <= b] on strings: lexicographic on code points. *)
Fixpoint compare (a b : str) : comparison :=
  match a, b with
  | [], [] => Eq
  | [], _ :: _ => Lt
  | _ :: _, [] => Gt
  | x :: a', y :: b' =>
      match Nat.compare (code x) (code y) with
      | Eq => compare a' b'
      | r => r
      end
  end.

(** The character [x], in either case. *)
Definition either_case (x c : ascii) : Prop := lower_char c = lower_char x.

(** A run of white space. *)
Definition all_space (s : str) : Prop := Forall (fun c => is_space c = true) s.

End Text.

Import Text.

(** ** Exceptions *)

(** The exceptions the script can raise and does not catch. *)
Inductive exn := ValueError | NotADirectoryError.

Inductive result (A : Type) : Type :=
| Ok (a : A)
| Raise (e : exn).

Arguments Ok {A} a.
Arguments Raise {A} e.

Definition bind {A B : Type} (r : result A) (k : A -> result B) : result B :=
  match r with
  | Ok a => k a
  | Raise e => Raise e
  end.

Notation "x <- r ;; k" := (bind r (fun x => k))
  (at level 61, r at next level, right associativity).

(** A [for] loop whose body may raise: the first exception ends the loop. *)
Fixpoint for_each {A S : Type} (body : S -> A -> result S) (xs : list A) (s : S)
  : result S :=
  match xs with
  | [] => Ok s
  | x :: xs' => s' <- body s x ;; for_each body xs' s'
  end.

(** ** Regular expressions *)

(** The patterns of the script are sequences of one-character classes, each
    with a quantifier ([x], [x?], [x*], [x+], all greedy), and at most one
    capture group.  [re.search] tries each start position from the left and,
    at a position, backtracks over the greedy quantifiers. *)
Module Re.

Inductive quant := One | Opt | Star | Plus.

Record item := Item {
  cls : ascii -> bool;   (* the character class *)
  rep : quant;           (* its quantifier *)
  cap : bool             (* inside group 1 *)
}.

Definition pattern := list item.

(** A match: the text of group 0 and the text of group 1. *)
Definition groups := (str * str)%type.

Definition keep (it : item) (c : ascii) (r : option groups) : option groups :=
  match r with
  | Some (g0, g1) => Some (c :: g0, if cap it then c :: g1 else g1)
  | None => None
  end.

Definition orelse (r : option groups) (alt : option groups) : option groups :=
  match r with
  | Some g => Some g
  | None => alt
  end.

Section Repeat.
Variable it : item.
Variable k : str -> option groups.

(** One character of the class, then [next]. *)
Definition one (next : str -> option groups) (s : str) : option groups :=
  match s with
  | c :: s' => if cls it c then keep it c (next s') else None
  | [] => None
  end.

(** Greedy repetition: take one more character when the rest of the pattern
    still matches afterwards, otherwise go on with the rest of the pattern. *)
Fixpoint star (s : str) : option groups :=
  orelse
    match s with
    | c :: s' => if cls it c then keep it c (star s') else None
    | [] => None
    end
    (k s).

End Repeat.

(** Match the pattern at the start of [s]. *)
Fixpoint match_here (p : pattern) (s : str) : option groups :=
  match p with
  | [] => Some ([], [])
  | it :: p' =>
      match rep it with
      | One => one it (match_here p') s
      | Opt => orelse (one it (match_here p') s) (match_here p' s)
      | Star => star it (match_here p') s
      | Plus => one it (star it (match_here p')) s
      end
  end.

(** [re.search(p, s)]: the leftmost match. *)
Fixpoint search (p : pattern) (s : str) : option groups :=
  orelse (match_here p s)
    match s with
    | [] => None
    | _ :: s' => search p s'
    end.

(** A literal character, and a literal character under [re.IGNORECASE]. *)
Definition chr (c : ascii) : item := Item (Ascii.eqb c) One false.
Definition chr_i (c : ascii) : item :=
  Item (fun x => Ascii.eqb (lower_char x) (lower_char c)) One false.

Definition dot_c : ascii := "."%char.
Definition minus_c : ascii := "-"%char.

(** [\d+\.?\d*], inside group 1 or not. *)
Definition decimal (g : bool) : pattern :=
  [Item is_digit Plus g; Item (Ascii.eqb dot_c) Opt g; Item is_digit Star g].

(** [-?\d+\.?\d*] *)
Definition signed_decimal (g : bool) : pattern :=
  Item (Ascii.eqb minus_c) Opt g :: decimal g.

(** The class [[\d.]]. *)
Definition digit_or_dot (c : ascii) : bool := is_digit c || Ascii.eqb c dot_c.

(** *** The language of a pattern *)

(** How many characters a quantifier lets its class take. *)
Definition run_ok (q : quant) (run : str) : Prop :=
  match q with
  | One => length run = 1
  | Opt => length run <= 1
  | Star => True
  | Plus => run <> []
  end.

(** [matches p g0 g1]: the text [g0] is in the language of [p], and [g1] is
    the part of it taken by the items of group 1. *)
Inductive matches : pattern -> str -> str -> Prop :=
| matches_nil : matches [] [] []
| matches_item it p run w g :
    Forall (fun c => cls it c = true) run ->
    run_ok (rep it) run ->
    matches p w g ->
    matches (it :: p) (run ++ w) ((if cap it then run else []) ++ g).

(** A successful continuation: the text consumed is a prefix of the input
    and satisfies [P]. *)
Definition sound (P : str -> str -> Prop) (f : str -> option groups) : Prop :=
  forall s g0 g1, f s = Some (g0, g1) ->
    (exists rest, s = g0 ++ rest) /\ P g0 g1.

End Re.

(** ** Numbers *)

(** [float(s)] for the strings a capture group can hold: an optional minus
    sign, digits and dots.  Such a string is a number when it has at most one
    dot and at least one digit; anything else is a [ValueError]. *)

Fixpoint pow10 (n : nat) : positive :=
  match n with
  | O => 1%positive
  | S n' => (10 * pow10 n')%positive
  end.

(** The value of a string of digits read after [acc]; [None] when a character
    is not a digit. *)
Fixpoint digits (acc : Z) (s : str) : option Z :=
  match s with
  | [] => Some acc
  | c :: s' =>
      if is_digit c then digits (10 * acc + Z.of_nat (code c - 48))%Z s'
      else None
  end.

Definition float_unsigned (s : str) : result Q :=
  let '(ip, fp) := match split1 Re.dot_c s with
                   | [a; b] => (a, b)
                   | _ => (s, [])
                   end in
  match ip ++ fp with
  | [] => Raise ValueError
  | _ :: _ =>
      match digits 0 ip, digits 0 fp with
      | Some a, Some b =>
          Ok (Qmake (a * Zpos (pow10 (length fp)) + b) (pow10 (length fp)))
      | _, _ => Raise ValueError
      end
  end.

Definition py_float (s : str) : result Q :=
  match s with
  | c :: s' =>
      if Ascii.eqb c Re.minus_c then x <- float_unsigned s' ;; Ok (Qopp x)
      else float_unsigned s
  | [] => Raise ValueError
  end.

(** The texts the number patterns can match. *)
Definition all_digits (s : str) : Prop := Forall (fun c => is_digit c = true) s.

(** The texts of [\d+\.?\d*] and of [-?\d+\.?\d*]. *)
Definition decimal_text (w : str) : Prop :=
  exists d1 dt d2, w = d1 ++ dt ++ d2 /\ d1 <> [] /\ all_digits d1
                   /\ (dt = [] \/ dt = [Re.dot_c]) /\ all_digits d2.

Definition signed_decimal_text (w : str) : Prop :=
  decimal_text w \/ exists w', w = Re.minus_c :: w' /\ decimal_text w'.

(** ** Profiles *)

Inductive filter_type := peaking | lowShelf | highShelf | lowPass | highPass.

Record filter := Filter {
  f_type : filter_type;
  f_freq : Q;
  f_q : Q;
  f_gain : Q
}.

Record profile := Profile {
  p_preamp : Q;
  p_filters : list filter
}.

(** [FILTER_TYPES], in the order of the dictionary literal. *)
Definition FILTER_TYPES : list (str * filter_type) :=
  [ (lit "PK", peaking); (lit "PEQ", peaking);
    (lit "LSC", lowShelf); (lit "LSB", lowShelf); (lit "LS", lowShelf);
    (lit "HSC", highShelf); (lit "HSB", highShelf); (lit "HS", highShelf);
    (lit "LP", lowPass); (lit "LPQ", lowPass);
    (lit "HP", highPass); (lit "HPQ", highPass) ].

(** The loop over [FILTER_TYPES.items()] with its [break]. *)
Fixpoint detect_filter_type (table : list (str * filter_type)) (upper_line : str)
  : option filter_type :=
  match table with
  | [] => None
  | (code, ftype) :: table' =>
      if contains (" " ++ code ++ " ") upper_line then Some ftype
      else detect_filter_type table' upper_line
  end.

(** The four patterns of [parse_profile].  With D for the decimal number
    [\d+\.?\d*], they are [-?D] for the preamp (the whole match is used),
    [Fc\s+(D)] and [Gain\s+(-?D)] under [re.IGNORECASE], and
    [\sQ\s+([\d.]+)] under [re.IGNORECASE]; group 1 is used. *)
Definition re_preamp : Re.pattern := Re.signed_decimal false.

Definition re_fc : Re.pattern :=
  [Re.chr_i "F"; Re.chr_i "c"; Re.Item is_space Re.Plus false] ++ Re.decimal true.

Definition re_gain : Re.pattern :=
  [Re.chr_i "G"; Re.chr_i "a"; Re.chr_i "i"; Re.chr_i "n";
   Re.Item is_space Re.Plus false] ++ Re.signed_decimal true.

Definition re_q : Re.pattern :=
  [Re.Item is_space Re.One false; Re.chr_i "Q"; Re.Item is_space Re.Plus false;
   Re.Item Re.digit_or_dot Re.Plus true].

Definition default_freq : Q := 1000 # 1.
Definition default_gain : Q := 0 # 1.
Definition default_q : Q := 707 # 1000.

(** [float(m.group(1))] when the pattern matches, the default otherwise. *)
Definition extract (p : Re.pattern) (default : Q) (line : str) : result Q :=
  match Re.search p line with
  | Some (_, g1) => py_float g1
  | None => Ok default
  end.

(** What one line contributes. *)
Inductive line_outcome :=
| SetPreamp (x : Q)
| AppendFilter (f : filter)
| Ignored.

(** The body of the loop of [parse_profile], on a stripped line. *)
Definition parse_line (line : str) : result line_outcome :=
  if startswith "preamp:" (lower line) then
    match Re.search re_preamp line with
    | Some (g0, _) => x <- py_float g0 ;; Ok (SetPreamp x)
    | None => Ok Ignored
    end
  else if negb (contains "Filter" line) || negb (contains ":" line) then Ok Ignored
  else
    let upper_line := upper line in
    if negb (contains " ON " upper_line) then Ok Ignored
    else
      match detect_filter_type FILTER_TYPES upper_line with
      | None => Ok Ignored
      | Some filter_type =>
          freq <- extract re_fc default_freq line ;;
          gain <- extract re_gain default_gain line ;;
          q <- extract re_q default_q line ;;
          Ok (AppendFilter (Filter filter_type freq q gain))
      end.

Definition apply_outcome (st : profile) (o : line_outcome) : profile :=
  match o with
  | SetPreamp x => Profile x (p_filters st)
  | AppendFilter f => Profile (p_preamp st) (p_filters st ++ [f])
  | Ignored => st
  end.

Definition parse_step (st : profile) (raw : str) : result profile :=
  o <- parse_line (strip raw) ;; Ok (apply_outcome st o).

Definition newline : ascii := "010"%char.

(** [parse_profile] once the file has been read. *)
Definition parse_content (content : str) : result profile :=
  for_each parse_step (split newline content) (Profile (0 # 1) []).

(** ** Folder names *)

Inductive form_factor := in_ear | earbud | over_ear.

Definition detect_form_factor (target_folder : str) : form_factor :=
  let target_lower := lower target_folder in
  if contains "in-ear" target_lower || contains "in_ear" target_lower
     || contains "iem" target_lower then in_ear
  else if contains "earbud" target_lower then earbud
  else over_ear.

Definition manufacturers : list str :=
  [ lit "AKG"; lit "Audio-Technica"; lit "Audeze"; lit "Bang & Olufsen"; lit "Beats";
    lit "Beyerdynamic"; lit "Bose"; lit "Campfire Audio"; lit "Dan Clark Audio";
    lit "Denon"; lit "FiiO"; lit "Final"; lit "Focal"; lit "Grado";
    lit "HarmonicDyne"; lit "HIFIMAN"; lit "JBL"; lit "Koss"; lit "Massdrop";
    lit "Meze"; lit "Moondrop"; lit "Philips"; lit "Pioneer"; lit "Sennheiser";
    lit "Shure"; lit "Sony"; lit "SteelSeries"; lit "STAX"; lit "Tin HiFi";
    lit "V-MODA"; lit "ZMF"; lit "64 Audio"; lit "7Hz"; lit "Anker"; lit "Apple";
    lit "AFUL"; lit "BLON"; lit "CCA"; lit "Dunu"; lit "Empire Ears";
    lit "Etymotic"; lit "FatFreq"; lit "Hidizs"; lit "HiBy"; lit "iBasso";
    lit "JVC"; lit "KZ"; lit "Letshuoer"; lit "Linsoul"; lit "Noble Audio";
    lit "QKZ"; lit "Samsung"; lit "See Audio"; lit "Simgot"; lit "SoftEars";
    lit "Tangzu"; lit "Thieaudio"; lit "Tinhifi"; lit "Tripowin"; lit "TRN";
    lit "Truthear"; lit "Unique Melody"; lit "Westone"; lit "Yanyin"; lit "BGVP";
    lit "CCZ" ].

(** The loop over [manufacturers] with its [return]. *)
Fixpoint match_manufacturer (mfrs : list str) (folder_name : str)
  : option (str * str) :=
  match mfrs with
  | [] => None
  | mfr :: mfrs' =>
      if startswith (lower mfr) (lower folder_name) then
        if startswith (lower mfr ++ " ") (lower folder_name)
           || str_eqb (lower folder_name) (lower mfr)
        then
          let model := strip (skipn (length mfr) folder_name) in
          Some (mfr, match model with [] => folder_name | _ :: _ => model end)
        else match_manufacturer mfrs' folder_name
      else match_manufacturer mfrs' folder_name
  end.

Definition parse_headphone_name (folder_name : str) : str * str :=
  match match_manufacturer manufacturers folder_name with
  | Some r => r
  | None =>
      match split1 " "%char folder_name with
      | [a; b] => (a, b)
      | _ => (folder_name, [])
      end
  end.

(** ** Entries and the dictionary of kept entries *)

Record entry := Entry {
  e_id : str;
  e_manufacturer : str;
  e_model : str;
  e_source : str;
  e_formFactor : form_factor;
  e_preamp : Q;
  e_filters : list filter
}.

(** An entry as it sits in [all_entries]: with its [_priority] field. *)
Record stored := Stored {
  s_priority : Z;
  s_entry : entry
}.

Definition key := (str * str)%type.

Definition key_eqb (a b : key) : bool :=
  str_eqb (fst a) (fst b) && str_eqb (snd a) (snd b).

(** A Python [dict]: keys in insertion order, each once. *)
Definition dict := list (key * stored).

(** [d[k]] when [k in d]. *)
Fixpoint dict_get (k : key) (d : dict) : option stored :=
  match d with
  | [] => None
  | (k', v) :: d' => if key_eqb k k' then Some v else dict_get k d'
  end.

(** [d[k] = v]: a key already present keeps its place. *)
Fixpoint dict_set (k : key) (v : stored) (d : dict) : dict :=
  match d with
  | [] => [(k, v)]
  | (k', v') :: d' =>
      if key_eqb k k' then (k', v) :: d' else (k', v') :: dict_set k v d'
  end.

(** [d.values()]. *)
Definition dict_values (d : dict) : list stored := map snd d.

(** The last statement of the innermost loop of [main]. *)
Definition merge (all_entries : dict) (k : key) (priority : Z) (e : entry) : dict :=
  match dict_get k all_entries with
  | None => dict_set k (Stored priority e) all_entries
  | Some kept =>
      if (priority <? s_priority kept)%Z
      then dict_set k (Stored priority e) all_entries
      else all_entries
  end.

(** The sort key [(x['manufacturer'].lower(), x['model'].lower())]. *)
Definition sort_key (e : entry) : key :=
  (lower (e_manufacturer e), lower (e_model e)).

(** Comparison of two-element tuples of strings. *)
Definition key_compare (a b : key) : comparison :=
  match Text.compare (fst a) (fst b) with
  | Eq => Text.compare (snd a) (snd b)
  | r => r
  end.

Definition key_leb (a b : key) : bool :=
  match key_compare a b with
  | Gt => false
  | _ => true
  end.

(** [list.sort(key=...)] is stable; so is insertion from the right. *)
Fixpoint insert_entry (e : entry) (l : list entry) : list entry :=
  match l with
  | [] => [e]
  | x :: l' =>
      if key_leb (sort_key e) (sort_key x) then e :: l
      else x :: insert_entry e l'
  end.

Fixpoint sort_entries (l : list entry) : list entry :=
  match l with
  | [] => []
  | e :: l' => insert_entry e (sort_entries l')
  end.

(** ** The catalog *)

Record catalog := Catalog {
  c_version : Z;
  c_generatedAt : str;
  c_entryCount : nat;
  c_entries : list entry
}.

(** The end of [main]: drop [_priority], sort, add the metadata. *)
Definition build_database (all_entries : dict) (now : str) : catalog :=
  let entries := sort_entries (map s_entry (dict_values all_entries)) in
  Catalog 1 now (length entries) entries.

(** ** The directory tree *)

Inductive node :=
| File (content : option str)        (* the text read, [None] when reading fails *)
| Dir (children : list (str * node)). (* the children, in [os.listdir] order *)

Definition is_dir (n : node) : bool :=
  match n with
  | Dir _ => true
  | File _ => false
  end.

Fixpoint lookup (name : str) (children : list (str * node)) : option node :=
  match children with
  | [] => None
  | (name', n) :: children' =>
      if str_eqb name name' then Some n else lookup name children'
  end.

(** [path / name], when it exists. *)
Definition child (path : node) (name : str) : option node :=
  match path with
  | Dir children => lookup name children
  | File _ => None
  end.

(** [os.listdir(path)], each name with the node it names. *)
Definition listdir (path : node) : result (list (str * node)) :=
  match path with
  | Dir children => Ok children
  | File _ => Raise NotADirectoryError
  end.

(** [parse_profile(file_path)]: [None] when the file cannot be read. *)
Definition parse_profile (file_path : node) : result (option profile) :=
  match file_path with
  | File (Some content) => p <- parse_content content ;; Ok (Some p)
  | File None => Ok None
  | Dir _ => Ok None
  end.

(** ** The traversal *)

(** [SOURCE_INFO], in the order of the dictionary literal. *)
Definition SOURCE_INFO : list (str * (Z * str)) :=
  [ (lit "oratory1990", (1%Z, lit "oratory1990"));
    (lit "crinacle", (2%Z, lit "crinacle"));
    (lit "Rtings", (3%Z, lit "rtings"));
    (lit "Innerfidelity", (3%Z, lit "innerfidelity"));
    (lit "Headphone.com Legacy", (4%Z, lit "headphone.com")) ].

(** The body of the loop over the headphone folders of one target. *)
Definition visit_headphone (priority : Z) (source_name : str) (ff : form_factor)
  (all_entries : dict) (item : str * node) : result dict :=
  let '(headphone_folder, headphone_path) := item in
  if negb (is_dir headphone_path) then Ok all_entries
  else
    match child headphone_path (headphone_folder ++ " ParametricEQ.txt") with
    | None => Ok all_entries
    | Some peq_file =>
        profile <- parse_profile peq_file ;;
        match profile with
        | None => Ok all_entries
        | Some profile =>
            match p_filters profile with
            | [] => Ok all_entries
            | _ :: _ =>
                let '(manufacturer, model) := parse_headphone_name headphone_folder in
                let k := (lower manufacturer, lower model) in
                let e := Entry (source_name ++ "/" ++ headphone_folder)
                               manufacturer model source_name ff
                               (p_preamp profile) (p_filters profile) in
                Ok (merge all_entries k priority e)
            end
        end
    end.

(** The body of the loop over the target folders of one source. *)
Definition visit_target (priority : Z) (source_name : str)
  (all_entries : dict) (item : str * node) : result dict :=
  let '(target_folder, target_path) := item in
  if negb (is_dir target_path) then Ok all_entries
  else
    let ff := detect_form_factor target_folder in
    headphones <- listdir target_path ;;
    for_each (visit_headphone priority source_name ff) headphones all_entries.

(** The body of the loop over [SOURCE_INFO]. *)
Definition visit_source (results_path : node)
  (all_entries : dict) (item : str * (Z * str)) : result dict :=
  let '(source_folder, (priority, source_name)) := item in
  match child results_path source_folder with
  | None => Ok all_entries
  | Some source_path =>
      targets <- listdir source_path ;;
      for_each (visit_target priority source_name) targets all_entries
  end.

Definition collect (results_path : node) : result dict :=
  for_each (visit_source results_path) SOURCE_INFO [].

(** ** [main] *)

(** How a run ends: [sys.exit(1)], an uncaught exception, or the catalog
    printed on the standard output. *)
Inductive outcome :=
| Exit (status : Z)
| Uncaught (e : exn)
| Printed (c : catalog).

(** [main], given [sys.argv], the file system (the node a path names, if
    any) and the clock. *)
Definition main (argv : list str) (fs : str -> option node) (now : str) : outcome :=
  match argv with
  | _ :: arg :: _ =>
      match fs arg with
      | None => Exit 1
      | Some results_path =>
          match collect results_path with
          | Ok all_entries => Printed (build_database all_entries now)
          | Raise e => Uncaught e
          end
      end
  | _ => Exit 1
  end.

(** ** The vocabulary of the specification *)

(** The line holds the token [ ON ], in either case of its letters. *)
Definition has_on_token (line : str) : Prop :=
  exists a o n b, line = a ++ " " ++ [o; n] ++ " " ++ b
    /\ either_case "O" o /\ either_case "N" n.

(** The code stands between two spaces. *)
Definition surrounded (code line : str) : Prop :=
  exists a b, line = a ++ " " ++ code ++ " " ++ b.

(** The token [Fc]: the two letters in either case, white space, a digit. *)
Definition has_fc_token (line : str) : Prop :=
  exists a f c ws d b, line = a ++ [f; c] ++ ws ++ d :: b
    /\ either_case "F" f /\ either_case "c" c
    /\ ws <> [] /\ all_space ws /\ is_digit d = true.

(** The token [Gain]: the four letters in either case, white space, then a
    digit or a minus sign and a digit. *)
Definition has_gain_token (line : str) : Prop :=
  exists a g x i n ws m d b, line = a ++ [g; x; i; n] ++ ws ++ m ++ d :: b
    /\ either_case "G" g /\ either_case "a" x /\ either_case "i" i
    /\ either_case "n" n
    /\ ws <> [] /\ all_space ws /\ (m = [] \/ m = [Re.minus_c])
    /\ is_digit d = true.

(** The token [Q]: a white space, the letter in either case, white space,
    then a digit or a dot. *)
Definition has_q_token (line : str) : Prop :=
  exists a sp q ws d b, line = a ++ [sp; q] ++ ws ++ d :: b
    /\ is_space sp = true /\ either_case "Q" q
    /\ ws <> [] /\ all_space ws /\ Re.digit_or_dot d = true.

(** A line the filter branch of the parser looks at: not a preamp line, with
    [Filter], a colon and [ ON ]. *)
Definition eligible (line : str) : Prop :=
  startswith "preamp:" (lower line) = false
  /\ contains "Filter" line = true /\ contains ":" line = true
  /\ contains " ON " (upper line) = true.

(** The folder is named after the manufacturer: letter case aside, the
    manufacturer is the whole folder name or its start up to a space. *)
Definition names_manufacturer (mfr folder_name : str) : Prop :=
  lower folder_name = lower mfr
  \/ exists rest, lower folder_name = lower mfr ++ " " ++ rest.

(** The test of the loop over the manufacturers. *)
Definition manufacturer_test (mfr folder_name : str) : bool :=
  startswith (lower mfr) (lower folder_name)
  && (startswith (lower mfr ++ " ") (lower folder_name)
      || str_eqb (lower folder_name) (lower mfr)).

(** ** The traversal as a list of candidates *)

(** What the innermost loop hands to the merge: the key, the priority of the
    source and the entry. *)
Record candidate := Candidate {
  cand_key : key;
  cand_priority : Z;
  cand_entry : entry
}.

Definition merge_candidate (all_entries : dict) (c : candidate) : dict :=
  merge all_entries (cand_key c) (cand_priority c) (cand_entry c).

(** The merges of a traversal, in the order of the visits. *)
Definition merge_all (cs : list candidate) (all_entries : dict) : dict :=
  fold_left merge_candidate cs all_entries.

(** The candidates of one headphone folder, of one target folder, of one
    source and of the whole tree: the folders that reach the merge, in the
    order the loops visit them.  A profile whose parsing raises has no
    candidate here; the run ends there anyway. *)
Definition headphone_candidates (priority : Z) (source_name : str) (ff : form_factor)
  (item : str * node) : list candidate :=
  let '(headphone_folder, headphone_path) := item in
  if negb (is_dir headphone_path) then []
  else
    match child headphone_path (headphone_folder ++ " ParametricEQ.txt") with
    | None => []
    | Some peq_file =>
        match parse_profile peq_file with
        | Ok (Some profile) =>
            match p_filters profile with
            | [] => []
            | _ :: _ =>
                let '(manufacturer, model) := parse_headphone_name headphone_folder in
                [Candidate (lower manufacturer, lower model) priority
                   (Entry (source_name ++ "/" ++ headphone_folder)
                          manufacturer model source_name ff
                          (p_preamp profile) (p_filters profile))]
            end
        | _ => []
        end
    end.

Definition target_candidates (priority : Z) (source_name : str)
  (item : str * node) : list candidate :=
  let '(target_folder, target_path) := item in
  match target_path with
  | Dir headphones =>
      flat_map (headphone_candidates priority source_name
                  (detect_form_factor target_folder)) headphones
  | File _ => []
  end.

Definition source_candidates (results_path : node)
  (item : str * (Z * str)) : list candidate :=
  let '(source_folder, (priority, source_name)) := item in
  match child results_path source_folder with
  | Some (Dir targets) => flat_map (target_candidates priority source_name) targets
  | _ => []
  end.

Definition candidates (results_path : node) : list candidate :=
  flat_map (source_candidates results_path) SOURCE_INFO.

(** Order of the sort keys. *)
Definition key_le (a b : key) : Prop := key_leb a b = true.

(** Order of the entries: that of their sort keys. *)
Definition entry_le (a b : entry) : Prop := key_le (sort_key a) (sort_key b).

(** Neither the frequency nor Q is negative. *)
Definition freq_and_q_nonneg (f : filter) : Prop :=
  (0 <= f_freq f)%Q /\ (0 <= f_q f)%Q.

(** The dictionary is keyed by the sort keys of its entries, each once. *)
Definition dict_ok (d : dict) : Prop :=
  NoDup (map fst d)
  /\ Forall (fun kv => fst kv = sort_key (s_entry (snd kv))) d.

(** ** Sample trees *)

Definition sample_profile : str :=
  lit "Preamp: -2.0 dB" ++ [newline]
  ++ lit "Filter 1: ON PK Fc 105 Hz Gain -3.5 dB Q 0.70".

Definition sample_headphone (name content : str) : str * node :=
  (name, Dir [(name ++ " ParametricEQ.txt", File (Some content))]).

(** Two sources hold the same headphone; the better source comes second in
    the listing of the root, and the worse source holds it twice. *)
Definition sample_tree : node :=
  Dir [ (lit "crinacle",
         Dir [ (lit "over-ear",
                Dir [ sample_headphone "Sennheiser HD 600"
                        "Filter 1: ON LSC Fc 105 Hz Gain 6.0 dB Q 0.70";
                      sample_headphone "AKG K701" sample_profile ]);
               (lit "IEM targets",
                Dir [ sample_headphone "sennheiser hd 600"
                        "Filter 1: ON HS Fc 9000 Hz Gain 1.5 dB Q 0.5";
                      (lit "README.md", File (Some (lit "notes")));
                      sample_headphone "Moondrop Aria" "Preamp: -1 dB" ]) ]);
        (lit "oratory1990",
         Dir [ (lit "over-ear",
                Dir [ sample_headphone "Sony WH-1000XM4" sample_profile;
                      sample_headphone "Sennheiser HD 600"
                        "Filter 1: ON PK Fc 105 Hz Gain -3.5 dB Q 0.70" ]) ]) ].

Definition sample_argv : list str := [lit "generate_index.py"; lit "/tmp/autoeq/results"].

Definition sample_fs (tree : node) (path : str) : option node :=
  if str_eqb path "/tmp/autoeq/results" then Some tree else None.

Definition sample_now : str := "2024-01-01T00:00:00+00:00".

(** One profile whose Q is a lone dot. *)
Definition bad_q_tree : node :=
  Dir [ (lit "oratory1990",
         Dir [ (lit "over-ear",
                Dir [ sample_headphone "Sony WH-1000XM4" sample_profile;
                      sample_headphone "AKG K701"
                        "Filter 1: ON PK Fc 105 Hz Gain -3.5 dB Q ." ]) ]) ].

(** A source that is a regular file. *)
Definition file_source_tree : node :=
  Dir [ (lit "crinacle", File (Some (lit "moved"))) ].

(** ** Tactics *)

(** Case analysis over the 256 characters. *)
Ltac each_char c :=
  destruct c as [[|] [|] [|] [|] [|] [|] [|] [|]]; vm_compute;
  try reflexivity; try discriminate; try tauto.

(** ** Further vocabulary *)

(** A matcher that fails only where its language has no word: when [f]
    finds nothing in [s], no prefix of [s] is in [P]. *)
Definition complete (P : str -> Prop) (f : str -> option Re.groups) : Prop :=
  forall s, f s = None -> forall w rest, s = w ++ rest -> ~ P w.

(** The words of a pattern, whatever group 1 takes. *)
Definition in_language (p : Re.pattern) (w : str) : Prop :=
  exists g, Re.matches p w g.

(** A text of digits and dots that is no number: a lone dot, or two dots or
    more. *)
Definition bad_number (g : str) : Prop :=
  g = [Re.dot_c] \/ 2 <= count_occ ascii_dec g Re.dot_c.

(** The filter a raw line yields, if any, and the preamp it sets, if any. *)
Definition line_filters (raw : str) : list filter :=
  match parse_line (strip raw) with
  | Ok (AppendFilter f) => [f]
  | _ => []
  end.

Definition line_preamps (raw : str) : list Q :=
  match parse_line (strip raw) with
  | Ok (SetPreamp x) => [x]
  | _ => []
  end.

(** The text holds the keyword, letter case aside. *)
Definition mentions (keyword s : str) : Prop :=
  exists a x b, s = a ++ x ++ b /\ lower x = keyword.

Definition mentions_in_ear (s : str) : Prop :=
  mentions "in-ear" s \/ mentions "in_ear" s \/ mentions "iem" s.

(** The key under which a headphone folder is merged. *)
Definition headphone_key (folder_name : str) : key :=
  let '(manufacturer, model) := parse_headphone_name folder_name in
  (lower manufacturer, lower model).

(** ** Trees on which the run completes *)

(** No line of the profile of the headphone folder raises. *)
Definition headphone_safe (item : str * node) : Prop :=
  match item with
  | (headphone_folder, Dir children) =>
      match lookup (headphone_folder ++ " ParametricEQ.txt") children with
      | Some (File (Some content)) =>
          forall raw, In raw (split newline content) ->
                      parse_line (strip raw) <> Raise ValueError
      | _ => True
      end
  | (_, File _) => True
  end.

Definition target_safe (item : str * node) : Prop :=
  match item with
  | (_, Dir headphones) => Forall headphone_safe headphones
  | (_, File _) => True
  end.

(** The source folder is missing, or is a directory of safe targets. *)
Definition source_safe (results_path : node) (item : str * (Z * str)) : Prop :=
  match child results_path (fst item) with
  | None => True
  | Some (Dir targets) => Forall target_safe targets
  | Some (File _) => False
  end.

Definition tree_safe (results_path : node) : Prop :=
  Forall (source_safe results_path) SOURCE_INFO.

(** ** What every entry of a catalog looks like *)

(** The entry has filters, none with a negative frequency or Q; its source
    is one of the names of [SOURCE_INFO]; its id is the source name, a
    slash and a folder name; its manufacturer and model are those of that
    folder name. *)
Definition entry_well_formed (e : entry) : Prop :=
  e_filters e <> []
  /\ Forall freq_and_q_nonneg (e_filters e)
  /\ (exists source_folder priority,
        In (source_folder, (priority, e_source e)) SOURCE_INFO)
  /\ exists headphone_folder,
       e_id e = e_source e ++ "/" ++ headphone_folder
       /\ parse_headphone_name headphone_folder = (e_manufacturer e, e_model e).




(** ** The longest number at the start of a text *)

Fixpoint take_while (P : ascii -> bool) (s : str) : str :=
  match s with
  | c :: s' => if P c then c :: take_while P s' else []
  | [] => []
  end.

Fixpoint drop_while (P : ascii -> bool) (s : str) : str :=
  match s with
  | c :: s' => if P c then drop_while P s' else s
  | [] => []
  end.

(** All the digits at the start of the text, at least one, then a dot if
    one follows and all the digits after it. *)
Definition decimal_prefix (s : str) : option str :=
  match take_while is_digit s with
  | [] => None
  | d :: ds =>
      match drop_while is_digit s with
      | c :: r =>
          if Ascii.eqb Re.dot_c c
          then Some ((d :: ds) ++ c :: take_while is_digit r)
          else Some (d :: ds)
      | [] => Some (d :: ds)
      end
  end.

(** The same after a minus sign, if the text starts with one. *)
Definition signed_decimal_prefix (s : str) : option str :=
  match s with
  | c :: s' =>
      if Ascii.eqb Re.minus_c c
      then match decimal_prefix s' with
           | Some w => Some (c :: w)
           | None => None
           end
      else decimal_prefix s
  | [] => None
  end.

(** The text starts with the token. *)
Definition starts_with_fc_token (t : str) : Prop :=
  exists f c ws d b, t = [f; c] ++ ws ++ d :: b
    /\ either_case "F" f /\ either_case "c" c
    /\ ws <> [] /\ all_space ws /\ is_digit d = true.

Definition starts_with_gain_token (t : str) : Prop :=
  exists g x i n ws m d b, t = [g; x; i; n] ++ ws ++ m ++ d :: b
    /\ either_case "G" g /\ either_case "a" x /\ either_case "i" i
    /\ either_case "n" n
    /\ ws <> [] /\ all_space ws /\ (m = [] \/ m = [Re.minus_c])
    /\ is_digit d = true.

Definition starts_with_q_token (t : str) : Prop :=
  exists sp q ws d b, t = [sp; q] ++ ws ++ d :: b
    /\ is_space sp = true /\ either_case "Q" q
    /\ ws <> [] /\ all_space ws /\ Re.digit_or_dot d = true.

(** The characters a repetition took, put in front of what followed. *)
Definition keep_run (it : Re.item) (run : str) (r : option Re.groups)
  : option Re.groups :=
  fold_right (Re.keep it) r run.

(** ** The same tree, listed in another order *)






(** * Properties *)

(** ** Text *)

Lemma str_eqb_eq (a b : str) : str_eqb a b = true <-> a = b.
Proof.
  revert b; induction a as [|x a IH]; intros [|y b]; simpl; split;
    try congruence; try reflexivity.
  - rewrite andb_true_iff, Ascii.eqb_eq, IH. intros [-> ->]; reflexivity.
  - intros H; injection H as -> ->. rewrite Ascii.eqb_refl; simpl.
    apply IH; reflexivity.
Qed.

Lemma str_eqb_refl (a : str) : str_eqb a a = true.
Proof. apply str_eqb_eq; reflexivity. Qed.

Lemma key_eqb_eq (a b : key) : key_eqb a b = true <-> a = b.
Proof.
  destruct a as [a1 a2], b as [b1 b2]; unfold key_eqb; simpl.
  rewrite andb_true_iff, !str_eqb_eq. split.
  - intros [-> ->]; reflexivity.
  - intros H; injection H as -> ->; split; reflexivity.
Qed.

Lemma key_eqb_refl (a : key) : key_eqb a a = true.
Proof. apply key_eqb_eq; reflexivity. Qed.

Lemma key_eqb_neq (a b : key) : key_eqb a b = false <-> a <> b.
Proof.
  split.
  - intros H E. apply key_eqb_eq in E. congruence.
  - intros H. destruct (key_eqb a b) eqn:E; [|reflexivity].
    apply key_eqb_eq in E. contradiction.
Qed.

(** [startswith] is the prefix relation. *)
Lemma startswith_prefix (p s : str) :
  startswith p s = true <-> exists r, s = p ++ r.
Proof.
  revert s; induction p as [|a p IH]; intros s; simpl.
  - split; [intros _; exists s; reflexivity | reflexivity].
  - destruct s as [|b s].
    + split; [discriminate | intros [r H]; discriminate].
    + rewrite andb_true_iff, Ascii.eqb_eq, IH. split.
      * intros [-> [r ->]]. exists r; reflexivity.
      * intros [r H]. injection H as -> ->. split; [reflexivity | exists r; reflexivity].
Qed.

(** [contains] is the substring relation. *)
Lemma contains_substring (needle hay : str) :
  contains needle hay = true <-> exists a b, hay = a ++ needle ++ b.
Proof.
  induction hay as [|c hay IH]; simpl.
  - rewrite orb_false_r, startswith_prefix. split.
    + intros [r H]. exists [], r. exact H.
    + intros [a [b H]]. destruct a; [exists b; exact H | discriminate].
  - rewrite orb_true_iff, startswith_prefix, IH. split.
    + intros [[r H] | [a [b H]]].
      * exists [], r. exact H.
      * exists (c :: a), b. simpl. rewrite H. reflexivity.
    + intros [a [b H]]. destruct a as [|x a]; simpl in H.
      * left. exists b. exact H.
      * right. injection H as -> ->. exists a, b. reflexivity.
Qed.

Lemma contains_app (needle a b : str) :
  contains needle (a ++ needle ++ b) = true.
Proof. apply contains_substring. exists a, b. reflexivity. Qed.

Lemma contains_inside (needle a hay b : str) :
  contains needle hay = true -> contains needle (a ++ hay ++ b) = true.
Proof.
  rewrite !contains_substring. intros [x [y ->]].
  exists (a ++ x), (y ++ b). rewrite <- !app_assoc. reflexivity.
Qed.

Lemma lower_length (s : str) : length (lower s) = length s.
Proof. apply length_map. Qed.

Lemma lower_app (a b : str) : lower (a ++ b) = lower a ++ lower b.
Proof. apply map_app. Qed.

Lemma upper_app (a b : str) : upper (a ++ b) = upper a ++ upper b.
Proof. apply map_app. Qed.

(** What [lstrip] removes is a prefix. *)
Lemma lstrip_suffix (s : str) : exists a, s = a ++ lstrip s.
Proof.
  induction s as [|c s [a IH]]; simpl.
  - exists []. reflexivity.
  - destruct (is_space c).
    + exists (c :: a). simpl. rewrite <- IH. reflexivity.
    + exists []. reflexivity.
Qed.

Lemma rstrip_prefix (s : str) : exists b, s = rstrip s ++ b.
Proof.
  unfold rstrip. destruct (lstrip_suffix (rev s)) as [a H].
  exists (rev a). rewrite <- rev_app_distr, <- H, rev_involutive. reflexivity.
Qed.

(** The stripped line sits inside the raw line. *)
Lemma strip_inside (s : str) : exists a b, s = a ++ strip s ++ b.
Proof.
  unfold strip. destruct (lstrip_suffix s) as [a Ha].
  destruct (rstrip_prefix (lstrip s)) as [b Hb].
  exists a, b. rewrite <- Hb. exact Ha.
Qed.

(** A stripped string neither starts nor ends with white space. *)
Lemma lstrip_head (s : str) c r : lstrip s = c :: r -> is_space c = false.
Proof.
  induction s as [|x s IH]; simpl; [discriminate|].
  destruct (is_space x) eqn:E; [exact IH|].
  intros H; injection H as -> _. exact E.
Qed.

(** ** Characters *)

Lemma digit_not_dot c : is_digit c = true -> Ascii.eqb c Re.dot_c = false.
Proof. each_char c. Qed.

Lemma digit_not_minus c : is_digit c = true -> Ascii.eqb c Re.minus_c = false.
Proof. each_char c. Qed.

Lemma dot_not_minus c : Ascii.eqb Re.dot_c c = true -> Ascii.eqb c Re.minus_c = false.
Proof. each_char c. Qed.

Lemma digit_not_space c : is_digit c = true -> is_space c = false.
Proof. each_char c. Qed.

Lemma upper_char_space c : upper_char c = " "%char -> c = " "%char.
Proof. each_char c. Qed.

Lemma lower_char_space c : lower_char c = " "%char -> c = " "%char.
Proof. each_char c. Qed.

Lemma lower_char_idem c : lower_char (lower_char c) = lower_char c.
Proof. each_char c. Qed.

Lemma upper_lower_char c : upper_char (lower_char c) = upper_char c.
Proof. each_char c. Qed.

Lemma lower_upper_char c : lower_char (upper_char c) = lower_char c.
Proof. each_char c. Qed.

Lemma digit_value_bound c : is_digit c = true -> code c - 48 <= 9.
Proof.
  destruct c as [[|] [|] [|] [|] [|] [|] [|] [|]]; vm_compute;
    try discriminate; intros _; repeat constructor.
Qed.

(** ** Regular expressions: what a match looks like *)

Module ReFacts.
Import Re.


Lemma matches_one it p c w g :
  rep it = One -> cls it c = true -> matches p w g ->
  matches (it :: p) (c :: w) (if cap it then c :: g else g).
Proof.
  intros Hr Hc Hm.
  replace (if cap it then c :: g else g) with ((if cap it then [c] else []) ++ g)
    by (destruct (cap it); reflexivity).
  apply (matches_item it (run := [c])); auto.
  rewrite Hr. reflexivity.
Qed.

(** One more character in front of a repetition. *)
Lemma matches_more it p c w g :
  (rep it = Star \/ rep it = Plus) -> cls it c = true ->
  matches (it :: p) w g ->
  matches (it :: p) (c :: w) (if cap it then c :: g else g).
Proof.
  intros Hr Hc Hm. inversion Hm as [|it' p' run w' g' Hrun Hok Hp]; subst.
  replace (if cap it then c :: (if cap it then run else []) ++ g'
           else (if cap it then run else []) ++ g')
    with ((if cap it then c :: run else []) ++ g')
    by (destruct (cap it); reflexivity).
  apply (matches_item it (run := c :: run)); auto.
  destruct Hr as [-> | ->]; simpl; [exact I | discriminate].
Qed.

Lemma matches_skip it p w g :
  (rep it = Star \/ rep it = Opt) -> matches p w g -> matches (it :: p) w g.
Proof.
  intros Hr Hm.
  replace g with ((if cap it then [] else []) ++ g) by (destruct (cap it); reflexivity).
  apply (matches_item it (run := [])); auto.
  destruct Hr as [-> | ->]; simpl; auto.
Qed.

Lemma sound_one it next (P : str -> str -> Prop) :
  sound P next ->
  sound (fun g0 g1 => exists c w g, g0 = c :: w /\ cls it c = true /\ P w g
                      /\ g1 = if cap it then c :: g else g)
        (one it next).
Proof.
  intros Hn s g0 g1. destruct s as [|c s]; simpl; [discriminate|].
  destruct (cls it c) eqn:Hc; [|discriminate].
  destruct (next s) as [[w g]|] eqn:E; simpl; [|discriminate].
  intros H; injection H as <- <-.
  destruct (Hn _ _ _ E) as [[rest ->] HP]. split.
  - exists rest. reflexivity.
  - exists c, w, g. auto.
Qed.

Lemma sound_star it p k :
  (rep it = Star \/ rep it = Plus) ->
  sound (matches p) k ->
  forall s g0 g1, star it k s = Some (g0, g1) ->
    (exists rest, s = g0 ++ rest) /\
    (matches (it :: p) g0 g1 \/ (rep it = Plus /\ matches p g0 g1)).
Proof.
  intros Hr Hk s. induction s as [|c s IH]; intros g0 g1; simpl.
  - intros H. destruct (Hk _ _ _ H) as [Hx Hm]. split; [exact Hx|].
    destruct Hr as [Hr|Hr]; [left; apply matches_skip; auto | right; auto].
  - destruct (cls it c) eqn:Hc.
    + destruct (star it k s) as [[w g]|] eqn:E; simpl.
      * intros H; injection H as <- <-.
        destruct (IH _ _ eq_refl) as [[rest ->] Hm]. split.
        { exists rest. reflexivity. }
        left. destruct Hm as [Hm | [Hp Hm]].
        { apply matches_more; auto. }
        { replace (if cap it then c :: g else g)
            with ((if cap it then [c] else []) ++ g)
            by (destruct (cap it); reflexivity).
          apply (matches_item it (run := [c])); auto.
          rewrite Hp. discriminate. }
      * intros H. destruct (Hk _ _ _ H) as [Hx Hm]. split; [exact Hx|].
        destruct Hr as [Hr|Hr]; [left; apply matches_skip; auto | right; auto].
    + simpl. intros H. destruct (Hk _ _ _ H) as [Hx Hm]. split; [exact Hx|].
      destruct Hr as [Hr|Hr]; [left; apply matches_skip; auto | right; auto].
Qed.

(** Soundness of the matcher. *)
Lemma match_here_sound p : sound (matches p) (match_here p).
Proof.
  induction p as [|it p IH]; intros s g0 g1; simpl.
  - intros H; injection H as <- <-. split; [exists s; reflexivity | constructor].
  - destruct (rep it) eqn:Hr.
    + intros H. destruct (sound_one it IH _ H) as [Hx [c [w [g [-> [Hc [Hm ->]]]]]]].
      split; [exact Hx|]. apply matches_one; auto.
    + destruct (one it (match_here p) s) as [[w g]|] eqn:E; simpl.
      * intros H; injection H as <- <-.
        destruct (sound_one it IH _ E) as [Hx [c [w' [g' [-> [Hc [Hm ->]]]]]]].
        split; [exact Hx|].
        replace (if cap it then c :: g' else g')
          with ((if cap it then [c] else []) ++ g')
          by (destruct (cap it); reflexivity).
        apply (matches_item it (run := [c])); auto.
        rewrite Hr. simpl. auto.
      * intros H. destruct (IH _ _ _ H) as [Hx Hm]. split; [exact Hx|].
        apply matches_skip; auto.
    + intros H. destruct (sound_star it (p := p) (or_introl Hr) IH _ H) as [Hx [Hm | [Hp _]]].
      * split; assumption.
      * congruence.
    + intros H.
      assert (Hs : sound (fun g0 g1 => matches (it :: p) g0 g1 \/ (rep it = Plus /\ matches p g0 g1))
                     (star it (match_here p))).
      { intros s' a b E. apply (sound_star it (p := p) (or_intror Hr) IH _ E). }
      destruct (sound_one it Hs _ H) as [Hx [c [w [g [-> [Hc [Hm ->]]]]]]].
      split; [exact Hx|]. destruct Hm as [Hm | [_ Hm]].
      * apply matches_more; auto.
      * replace (if cap it then c :: g else g)
          with ((if cap it then [c] else []) ++ g)
          by (destruct (cap it); reflexivity).
        apply (matches_item it (run := [c])); auto.
        rewrite Hr. discriminate.
Qed.

(** Soundness of [search]: the match is a piece of the text. *)
Lemma search_sound p s g0 g1 :
  search p s = Some (g0, g1) ->
  exists pre rest, s = pre ++ g0 ++ rest /\ matches p g0 g1.
Proof.
  induction s as [|c s IH]; simpl.
  - destruct (match_here p []) as [[a b]|] eqn:E; simpl; [|discriminate].
    intros H; injection H as <- <-.
    destruct (match_here_sound _ _ E) as [[rest Hx] Hm].
    exists [], rest. auto.
  - destruct (match_here p (c :: s)) as [[a b]|] eqn:E; simpl.
    + intros H; injection H as <- <-.
      destruct (match_here_sound _ _ E) as [[rest Hx] Hm].
      exists [], rest. auto.
    + intros H. destruct (IH H) as [pre [rest [-> Hm]]].
      exists (c :: pre), rest. auto.
Qed.

End ReFacts.

(** ** Splitting at the first separator *)

Lemma split1_cases (sep : ascii) (s : str) :
  (split1 sep s = [s] /\ ~ In sep s) \/
  (exists a b, split1 sep s = [a; b] /\ s = a ++ sep :: b /\ ~ In sep a).
Proof.
  induction s as [|c s IH]; simpl.
  - left. split; [reflexivity | tauto].
  - destruct (Ascii.eqb c sep) eqn:E.
    + apply Ascii.eqb_eq in E. subst c. right. exists [], s. simpl. tauto.
    + apply Ascii.eqb_neq in E.
      destruct IH as [[-> Hn] | [a [b [-> [-> Hn]]]]].
      * left. split; [reflexivity|]. intros [H|H]; [congruence | tauto].
      * right. exists (c :: a), b. split; [reflexivity|]. split; [reflexivity|].
        intros [H|H]; [congruence | tauto].
Qed.

Lemma split1_none (sep : ascii) (s : str) : ~ In sep s -> split1 sep s = [s].
Proof.
  intros Hn. destruct (split1_cases sep s) as [[H _] | [a [b [_ [-> _]]]]]; [exact H|].
  exfalso. apply Hn. apply in_or_app. right. left. reflexivity.
Qed.

Lemma split1_first (sep : ascii) (a b : str) :
  ~ In sep a -> split1 sep (a ++ sep :: b) = [a; b].
Proof.
  induction a as [|c a IH]; simpl; intros Hn.
  - rewrite Ascii.eqb_refl. reflexivity.
  - destruct (Ascii.eqb c sep) eqn:E.
    + apply Ascii.eqb_eq in E. tauto.
    + rewrite IH by tauto. reflexivity.
Qed.

(** ** Numbers *)


Lemma all_digits_no_dot (s : str) : all_digits s -> ~ In Re.dot_c s.
Proof.
  intros H Hin. unfold all_digits in H. rewrite Forall_forall in H.
  specialize (H _ Hin). discriminate.
Qed.

Lemma digits_nonneg (s : str) : forall acc n,
  digits acc s = Some n -> (0 <= acc)%Z -> (0 <= n)%Z.
Proof.
  induction s as [|c s IH]; cbn [digits]; intros acc n.
  - intros H; injection H as <-. auto.
  - destruct (is_digit c); [|discriminate].
    intros H Ha. apply (IH _ _ H). lia.
Qed.

Lemma digits_total (s : str) : all_digits s -> forall acc, exists n, digits acc s = Some n.
Proof.
  induction 1 as [|c s Hc Hs IH]; cbn [digits]; intros acc.
  - exists acc. reflexivity.
  - rewrite Hc. apply IH.
Qed.

Lemma Qle_0_make (a : Z) (p : positive) : (0 <= a)%Z -> (0 <= a # p)%Q.
Proof. intros H. unfold Qle; simpl. lia. Qed.

(** A string without a minus sign never converts to a negative number. *)
Lemma float_unsigned_nonneg (s : str) (v : Q) :
  float_unsigned s = Ok v -> (0 <= v)%Q.
Proof.
  unfold float_unsigned.
  destruct (match split1 Re.dot_c s with
            | [a; b] => (a, b) | _ => (s, []) end) as [ip fp].
  destruct (ip ++ fp); [discriminate|].
  destruct (digits 0 ip) as [na|] eqn:Ea; [|discriminate].
  destruct (digits 0 fp) as [nb|] eqn:Eb; [|discriminate].
  intros H; injection H as <-.
  apply Qle_0_make.
  apply digits_nonneg in Ea; [|lia]. apply digits_nonneg in Eb; [|lia]. lia.
Qed.

(** [\d+\.?\d*] always converts. *)
Lemma float_unsigned_decimal (w : str) :
  decimal_text w -> exists v, float_unsigned w = Ok v.
Proof.
  intros [d1 [dt [d2 [-> [Hne [H1 [Hdt H2]]]]]]].
  unfold float_unsigned.
  assert (Hsp : match split1 Re.dot_c (d1 ++ dt ++ d2) with
                | [a; b] => (a, b) | _ => (d1 ++ dt ++ d2, []) end
                = (d1, d2) \/ (dt = [] /\
                match split1 Re.dot_c (d1 ++ dt ++ d2) with
                | [a; b] => (a, b) | _ => (d1 ++ dt ++ d2, []) end
                = (d1 ++ d2, []))).
  { destruct Hdt as [-> | ->]; simpl.
    - right. split; [reflexivity|]. rewrite split1_none; [reflexivity|].
      apply all_digits_no_dot. apply Forall_app; auto.
    - left. rewrite split1_first; [reflexivity|]. apply all_digits_no_dot; auto. }
  destruct Hsp as [-> | [-> ->]].
  - destruct d1 as [|c d1]; [congruence|]. cbn [app].
    destruct (digits_total H1 0) as [a ->]. destruct (digits_total H2 0) as [b ->].
    eexists; reflexivity.
  - destruct d1 as [|c d1]; [congruence|]. cbn [app].
    assert (H12 : all_digits (c :: d1 ++ d2)) by (apply (Forall_app _ (c :: d1) d2); auto).
    destruct (digits_total H12 0) as [a Ha]. cbn [app] in Ha. rewrite Ha.
    cbn. eexists; reflexivity.
Qed.

Lemma decimal_text_head (w : str) :
  decimal_text w -> exists c r, w = c :: r /\ is_digit c = true.
Proof.
  intros [d1 [dt [d2 [-> [Hne [H1 _]]]]]].
  destruct d1 as [|c d1]; [congruence|].
  exists c, (d1 ++ dt ++ d2). split; [reflexivity|]. inversion H1; auto.
Qed.

(** [-?\d+\.?\d*] always converts. *)
Lemma py_float_signed_decimal (w : str) :
  signed_decimal_text w -> exists v, py_float w = Ok v.
Proof.
  intros [Hd | [w' [-> Hd]]].
  - destruct (decimal_text_head Hd) as [c [r [-> Hc]]].
    unfold py_float. rewrite (digit_not_minus _ Hc).
    apply float_unsigned_decimal; auto.
  - unfold py_float. unfold Re.minus_c at 1. rewrite Ascii.eqb_refl.
    destruct (float_unsigned_decimal Hd) as [v ->]. simpl. eexists; reflexivity.
Qed.

(** Without a leading minus sign the number is not negative. *)
Lemma py_float_nonneg (s : str) (v : Q) :
  match s with c :: _ => Ascii.eqb c Re.minus_c = false | [] => True end ->
  py_float s = Ok v -> (0 <= v)%Q.
Proof.
  destruct s as [|c s]; simpl; [discriminate|].
  intros ->. apply float_unsigned_nonneg.
Qed.

(** ** The four patterns *)

Module Shapes.
Import Re ReFacts.

Lemma matches_cons_inv it p w g :
  matches (it :: p) w g ->
  exists run w' g', w = run ++ w' /\ g = (if cap it then run else []) ++ g'
    /\ Forall (fun c => cls it c = true) run /\ run_ok (rep it) run
    /\ matches p w' g'.
Proof.
  intros H. inversion H as [|it' p' run w' g' Hrun Hok Hp]; subst.
  exists run, w', g'. auto.
Qed.

Lemma matches_nil_inv w g : matches [] w g -> w = [] /\ g = [].
Proof. intros H. inversion H. auto. Qed.

Lemma run_one (P : ascii -> bool) (run : str) :
  length run = 1 -> Forall (fun c => P c = true) run ->
  exists c, run = [c] /\ P c = true.
Proof.
  destruct run as [|c [|d run]]; simpl; try discriminate.
  intros _ H. exists c. inversion H; auto.
Qed.

Lemma run_opt (x : ascii) (run : str) :
  length run <= 1 -> Forall (fun c => Ascii.eqb x c = true) run ->
  run = [] \/ run = [x].
Proof.
  destruct run as [|c [|d run]]; simpl; intros Hl H; [left; reflexivity | | lia].
  right. inversion H as [|? ? Hc _]; subst. apply Ascii.eqb_eq in Hc. subst. reflexivity.
Qed.

(** [\d+\.?\d*] *)
Lemma decimal_shape (g : bool) (w g1 : str) :
  matches (decimal g) w g1 -> decimal_text w /\ g1 = if g then w else [].
Proof.
  unfold decimal. intros H.
  apply matches_cons_inv in H. destruct H as [d1 [w1 [h1 [-> [-> [Hd1 [Hok1 H]]]]]]].
  apply matches_cons_inv in H. destruct H as [dt [w2 [h2 [-> [-> [Hdt [Hok2 H]]]]]]].
  apply matches_cons_inv in H. destruct H as [d2 [w3 [h3 [-> [-> [Hd2 [_ H]]]]]]].
  apply matches_nil_inv in H. destruct H as [-> ->].
  cbn [cls rep cap] in *. cbn [run_ok] in Hok1, Hok2. rewrite !app_nil_r.
  split.
  - exists d1, dt, d2. split; [reflexivity|]. split; [exact Hok1|].
    split; [exact Hd1|]. split; [|exact Hd2]. apply run_opt; assumption.
  - destruct g; reflexivity.
Qed.

(** [-?\d+\.?\d*] *)
Lemma signed_decimal_shape (g : bool) (w g1 : str) :
  matches (signed_decimal g) w g1 ->
  signed_decimal_text w /\ g1 = if g then w else [].
Proof.
  unfold signed_decimal. intros H.
  apply matches_cons_inv in H. destruct H as [sg [w1 [h1 [-> [-> [Hsg [Hok H]]]]]]].
  apply decimal_shape in H. destruct H as [Hd ->].
  cbn [cls rep cap run_ok] in *.
  destruct (run_opt _ Hok Hsg) as [-> | ->].
  - split; [left; exact Hd | destruct g; reflexivity].
  - split; [right; exists w1; auto | destruct g; reflexivity].
Qed.


Lemma chr_i_inv (x : ascii) p w g :
  matches (chr_i x :: p) w g ->
  exists c w', w = c :: w' /\ either_case x c /\ matches p w' g.
Proof.
  intros H. apply matches_cons_inv in H.
  destruct H as [run [w1 [h1 [-> [-> [Hrun [Hok H]]]]]]].
  cbn [chr_i cls rep cap run_ok] in *.
  destruct (run_one _ Hok Hrun) as [c [-> Hc]].
  exists c, w1. split; [reflexivity|]. split; [|exact H].
  apply Ascii.eqb_eq in Hc. exact Hc.
Qed.


Lemma spaces_inv p w g :
  matches (Item is_space Plus false :: p) w g ->
  exists ws w', w = ws ++ w' /\ ws <> [] /\ all_space ws /\ matches p w' g.
Proof.
  intros H. apply matches_cons_inv in H.
  destruct H as [run [w1 [h1 [-> [-> [Hrun [Hok H]]]]]]].
  exists run, w1. cbn in Hok. auto.
Qed.

(** The pattern of the frequency: [Fc], white space, and the decimal number
    in group 1. *)
Lemma re_fc_shape (g0 g1 : str) :
  matches re_fc g0 g1 ->
  exists f c ws, g0 = f :: c :: ws ++ g1
    /\ either_case "F" f /\ either_case "c" c
    /\ ws <> [] /\ all_space ws /\ decimal_text g1.
Proof.
  unfold re_fc. cbn [app]. intros H.
  apply chr_i_inv in H. destruct H as [f [w1 [-> [Hf H]]]].
  apply chr_i_inv in H. destruct H as [c [w2 [-> [Hc H]]]].
  apply spaces_inv in H. destruct H as [ws [w3 [-> [Hne [Hws H]]]]].
  apply decimal_shape in H. destruct H as [Hd ->].
  exists f, c, ws. auto 10.
Qed.

(** The pattern of the gain: [Gain], white space, and the signed decimal
    number in group 1. *)
Lemma re_gain_shape (g0 g1 : str) :
  matches re_gain g0 g1 ->
  exists g a i n ws, g0 = g :: a :: i :: n :: ws ++ g1
    /\ either_case "G" g /\ either_case "a" a /\ either_case "i" i
    /\ either_case "n" n
    /\ ws <> [] /\ all_space ws /\ signed_decimal_text g1.
Proof.
  unfold re_gain. cbn [app]. intros H.
  apply chr_i_inv in H. destruct H as [g [w1 [-> [Hg H]]]].
  apply chr_i_inv in H. destruct H as [a [w2 [-> [Ha H]]]].
  apply chr_i_inv in H. destruct H as [i [w3 [-> [Hi H]]]].
  apply chr_i_inv in H. destruct H as [n [w4 [-> [Hn H]]]].
  apply spaces_inv in H. destruct H as [ws [w5 [-> [Hne [Hws H]]]]].
  apply signed_decimal_shape in H. destruct H as [Hd ->].
  exists g, a, i, n, ws. auto 12.
Qed.


(** The pattern of Q: a white space, [Q], white space, and digits and dots in
    group 1. *)
Lemma re_q_shape (g0 g1 : str) :
  matches re_q g0 g1 ->
  exists sp q ws, g0 = sp :: q :: ws ++ g1
    /\ is_space sp = true /\ either_case "Q" q
    /\ ws <> [] /\ all_space ws
    /\ g1 <> [] /\ Forall (fun c => digit_or_dot c = true) g1.
Proof.
  unfold re_q. intros H.
  apply matches_cons_inv in H. destruct H as [r0 [w0 [h0 [-> [-> [Hr0 [Hok0 H]]]]]]].
  cbn [cls rep cap run_ok] in *. destruct (run_one _ Hok0 Hr0) as [sp [-> Hsp]].
  apply chr_i_inv in H. destruct H as [q [w1 [-> [Hq H]]]].
  apply spaces_inv in H. destruct H as [ws [w2 [-> [Hne [Hws H]]]]].
  apply matches_cons_inv in H. destruct H as [r3 [w3 [h3 [-> [-> [Hr3 [Hok3 H]]]]]]].
  apply matches_nil_inv in H. destruct H as [-> ->].
  cbn [cls rep cap run_ok] in *. rewrite !app_nil_r.
  exists sp, q, ws. cbn [app]. auto 10.
Qed.

End Shapes.

(** ** The line parser *)

Lemma digit_or_dot_not_minus c :
  Re.digit_or_dot c = true -> Ascii.eqb c Re.minus_c = false.
Proof. each_char c. Qed.

Lemma digit_is_digit_or_dot c : is_digit c = true -> Re.digit_or_dot c = true.
Proof. unfold Re.digit_or_dot. intros ->. reflexivity. Qed.

Lemma upper_on_char (x c : ascii) :
  is_upper x = true -> upper_char c = x -> either_case x c.
Proof. intros Hx <-. unfold either_case. rewrite lower_upper_char. reflexivity. Qed.

(** A match of the frequency pattern is an [Fc] token, and its group converts. *)
Lemma search_fc (line g0 g1 : str) :
  Re.search re_fc line = Some (g0, g1) ->
  has_fc_token line /\ decimal_text g1.
Proof.
  intros H. apply ReFacts.search_sound in H. destruct H as [pre [rest [-> Hm]]].
  apply Shapes.re_fc_shape in Hm.
  destruct Hm as [f [c [ws [-> [Hf [Hc [Hne [Hws Hd]]]]]]]].
  split; [|exact Hd].
  destruct (decimal_text_head Hd) as [d [r [-> Hdig]]].
  exists pre, f, c, ws, d, (r ++ rest). split; [|auto].
  cbn [app]. rewrite <- !app_assoc. reflexivity.
Qed.

Lemma search_gain (line g0 g1 : str) :
  Re.search re_gain line = Some (g0, g1) ->
  has_gain_token line /\ signed_decimal_text g1.
Proof.
  intros H. apply ReFacts.search_sound in H. destruct H as [pre [rest [-> Hm]]].
  apply Shapes.re_gain_shape in Hm.
  destruct Hm as [g [a [i [n [ws [-> [Hg [Ha [Hi [Hn [Hne [Hws Hd]]]]]]]]]]]].
  split; [|exact Hd].
  destruct Hd as [Hd | [w' [-> Hd]]];
    destruct (decimal_text_head Hd) as [d [r [-> Hdig]]].
  - exists pre, g, a, i, n, ws, [], d, (r ++ rest). split; [|auto 12].
    cbn [app]. rewrite <- !app_assoc. reflexivity.
  - exists pre, g, a, i, n, ws, [Re.minus_c], d, (r ++ rest). split; [|auto 12].
    cbn [app]. rewrite <- !app_assoc. reflexivity.
Qed.

Lemma search_q (line g0 g1 : str) :
  Re.search re_q line = Some (g0, g1) ->
  has_q_token line /\
  exists d r, g1 = d :: r /\ Re.digit_or_dot d = true.
Proof.
  intros H. apply ReFacts.search_sound in H. destruct H as [pre [rest [-> Hm]]].
  apply Shapes.re_q_shape in Hm.
  destruct Hm as [sp [q [ws [-> [Hsp [Hq [Hne [Hws [Hg Hall]]]]]]]]].
  destruct g1 as [|d r]; [congruence|].
  assert (Hd : Re.digit_or_dot d = true) by (inversion Hall; auto).
  split; [|exists d, r; auto].
  exists pre, sp, q, ws, d, (r ++ rest). split; [|auto 10].
  cbn [app]. rewrite <- !app_assoc. reflexivity.
Qed.

(** The frequency and the gain always convert; so does the preamp. *)
Lemma extract_fc_total (line : str) : exists v, extract re_fc default_freq line = Ok v.
Proof.
  unfold extract. destruct (Re.search re_fc line) as [[g0 g1]|] eqn:E.
  - apply search_fc in E. destruct E as [_ Hd].
    apply py_float_signed_decimal. left. exact Hd.
  - eexists; reflexivity.
Qed.

Lemma extract_gain_total (line : str) : exists v, extract re_gain default_gain line = Ok v.
Proof.
  unfold extract. destruct (Re.search re_gain line) as [[g0 g1]|] eqn:E.
  - apply search_gain in E. destruct E as [_ Hd].
    apply py_float_signed_decimal. exact Hd.
  - eexists; reflexivity.
Qed.

Lemma preamp_total (line g0 g1 : str) :
  Re.search re_preamp line = Some (g0, g1) -> exists v, py_float g0 = Ok v.
Proof.
  intros H. apply ReFacts.search_sound in H. destruct H as [pre [rest [_ Hm]]].
  apply Shapes.signed_decimal_shape in Hm. destruct Hm as [Hd _].
  apply py_float_signed_decimal. exact Hd.
Qed.

(** The frequency and Q are never negative. *)
Lemma extract_fc_nonneg (line : str) (v : Q) :
  extract re_fc default_freq line = Ok v -> (0 <= v)%Q.
Proof.
  unfold extract. destruct (Re.search re_fc line) as [[g0 g1]|] eqn:E.
  - apply search_fc in E. destruct E as [_ Hd].
    destruct (decimal_text_head Hd) as [d [r [-> Hdig]]].
    apply py_float_nonneg. apply digit_not_minus. exact Hdig.
  - intros H; injection H as <-. unfold Qle; simpl. lia.
Qed.

Lemma extract_q_nonneg (line : str) (v : Q) :
  extract re_q default_q line = Ok v -> (0 <= v)%Q.
Proof.
  unfold extract. destruct (Re.search re_q line) as [[g0 g1]|] eqn:E.
  - apply search_q in E. destruct E as [_ [d [r [-> Hd]]]].
    apply py_float_nonneg. apply digit_or_dot_not_minus. exact Hd.
  - intros H; injection H as <-. unfold Qle; simpl. lia.
Qed.

(** Without the token the default applies. *)
Lemma extract_fc_default (line : str) :
  ~ has_fc_token line -> extract re_fc default_freq line = Ok default_freq.
Proof.
  intros Hn. unfold extract. destruct (Re.search re_fc line) as [[g0 g1]|] eqn:E.
  - apply search_fc in E. tauto.
  - reflexivity.
Qed.

Lemma extract_gain_default (line : str) :
  ~ has_gain_token line -> extract re_gain default_gain line = Ok default_gain.
Proof.
  intros Hn. unfold extract. destruct (Re.search re_gain line) as [[g0 g1]|] eqn:E.
  - apply search_gain in E. tauto.
  - reflexivity.
Qed.

Lemma extract_q_default (line : str) :
  ~ has_q_token line -> extract re_q default_q line = Ok default_q.
Proof.
  intros Hn. unfold extract. destruct (Re.search re_q line) as [[g0 g1]|] eqn:E.
  - apply search_q in E. tauto.
  - reflexivity.
Qed.

(** When a line yields a filter: every test of the loop body passed. *)
Lemma parse_line_filter (line : str) (f : filter) :
  parse_line line = Ok (AppendFilter f) <->
  eligible line
  /\ detect_filter_type FILTER_TYPES (upper line) = Some (f_type f)
  /\ extract re_fc default_freq line = Ok (f_freq f)
  /\ extract re_gain default_gain line = Ok (f_gain f)
  /\ extract re_q default_q line = Ok (f_q f).
Proof.
  unfold parse_line, eligible.
  destruct (startswith "preamp:" (lower line)).
  { split.
    - destruct (Re.search re_preamp line) as [[g0 g1]|]; [|discriminate].
      destruct (py_float g0); discriminate.
    - intros [[H _] _]; discriminate. }
  destruct (contains "Filter" line); cbn [negb orb];
    [|split; [discriminate | intros [[_ [H _]] _]; discriminate]].
  destruct (contains ":" line); cbn [negb orb];
    [|split; [discriminate | intros [[_ [_ [H _]]] _]; discriminate]].
  destruct (contains " ON " (upper line)); cbn [negb orb];
    [|split; [discriminate | intros [[_ [_ [_ H]]] _]; discriminate]].
  destruct (detect_filter_type FILTER_TYPES (upper line)) as [ft|];
    [|split; [discriminate | intros [_ [H _]]; discriminate]].
  destruct (extract re_fc default_freq line) as [freq|e1]; cbn [bind];
    [|split; [discriminate | intros [_ [_ [H _]]]; discriminate]].
  destruct (extract re_gain default_gain line) as [gain|e2]; cbn [bind];
    [|split; [discriminate | intros [_ [_ [_ [H _]]]]; discriminate]].
  destruct (extract re_q default_q line) as [q|e3]; cbn [bind];
    [|split; [discriminate | intros [_ [_ [_ [_ H]]]]; discriminate]].
  destruct f as [t fr fq fg]; simpl. split.
  - intros H; injection H as -> -> -> ->. auto 10.
  - intros [_ [H1 [H2 [H3 H4]]]].
    injection H1 as ->. injection H2 as ->. injection H3 as ->. injection H4 as ->.
    reflexivity.
Qed.

(** The table scan: the first code of the table that stands between spaces. *)
Lemma contains_surrounded (code line : str) :
  contains (" " ++ code ++ " ") line = true <-> surrounded code line.
Proof.
  unfold surrounded. rewrite contains_substring. split.
  - intros [a [b ->]]. exists a, b. rewrite <- !app_assoc. reflexivity.
  - intros [a [b ->]]. exists a, b. rewrite <- !app_assoc. reflexivity.
Qed.

Lemma detect_some (table : list (str * filter_type)) (l : str) (ft : filter_type) :
  detect_filter_type table l = Some ft <->
  exists before code after,
    table = before ++ (code, ft) :: after /\ surrounded code l
    /\ forall c t, In (c, t) before -> ~ surrounded c l.
Proof.
  induction table as [|[code0 t0] table IH]; cbn [detect_filter_type].
  - split; [discriminate|]. intros [before [code [after [H _]]]].
    destruct before; discriminate.
  - destruct (contains (" " ++ code0 ++ " ") l) eqn:E.
    + apply contains_surrounded in E. split.
      * intros H; injection H as ->. exists [], code0, table.
        split; [reflexivity|]. split; [exact E|]. intros c t [].
      * intros [before [code [after [H [Hs Hn]]]]].
        destruct before as [|[c1 t1] before]; simpl in H.
        { injection H as _ -> _. reflexivity. }
        { injection H as -> -> _. exfalso. apply (Hn c1 t1); [left; reflexivity | exact E]. }
    + assert (Hns : ~ surrounded code0 l).
      { intros Hs. apply contains_surrounded in Hs. congruence. }
      rewrite IH. split.
      * intros [before [code [after [-> [Hs Hn]]]]].
        exists ((code0, t0) :: before), code, after.
        split; [reflexivity|]. split; [exact Hs|].
        intros c t [H|H]; [injection H as <- <-; exact Hns | eauto].
      * intros [before [code [after [H [Hs Hn]]]]].
        destruct before as [|[c1 t1] before]; simpl in H.
        { injection H as -> _ _. contradiction. }
        { injection H as _ _ ->. exists before, code, after.
          split; [reflexivity|]. split; [exact Hs|].
          intros c t Hin. apply (Hn c t). right. exact Hin. }
Qed.

Lemma detect_none (table : list (str * filter_type)) (l : str) :
  detect_filter_type table l = None <->
  forall c t, In (c, t) table -> ~ surrounded c l.
Proof.
  induction table as [|[code0 t0] table IH]; cbn [detect_filter_type].
  - split; [intros _ c t [] | reflexivity].
  - destruct (contains (" " ++ code0 ++ " ") l) eqn:E.
    + apply contains_surrounded in E. split; [discriminate|].
      intros H. exfalso. apply (H code0 t0); [left; reflexivity | exact E].
    + rewrite IH. split.
      * intros H c t [Hc|Hc]; [|eauto]. injection Hc as <- <-.
        intros Hs. apply contains_surrounded in Hs. congruence.
      * intros H c t Hin. apply (H c t). right. exact Hin.
Qed.

(** [" ON " in upper_line] means the token is in the line. *)
Lemma contains_on_token (line : str) :
  contains " ON " (upper line) = true -> has_on_token line.
Proof.
  intros H. apply contains_substring in H. destruct H as [a [b H]].
  unfold upper in H. apply map_eq_app in H.
  destruct H as [a' [r [-> [_ H]]]].
  change (lit " ON " ++ b) with (" "%char :: "O"%char :: "N"%char :: " "%char :: b) in H.
  apply map_eq_cons in H. destruct H as [s1 [r1 [-> [H1 H]]]].
  apply map_eq_cons in H. destruct H as [o [r2 [-> [Ho H]]]].
  apply map_eq_cons in H. destruct H as [n [r3 [-> [Hn H]]]].
  apply map_eq_cons in H. destruct H as [s2 [r4 [-> [H2 _]]]].
  apply upper_char_space in H1. apply upper_char_space in H2. subst s1 s2.
  exists a', o, n, r4. split; [reflexivity|].
  split; apply upper_on_char; auto.
Qed.

Lemma on_token_contains (line : str) :
  has_on_token line -> contains " ON " (upper line) = true.
Proof.
  intros [a [o [n [b [-> [Ho Hn]]]]]].
  rewrite !upper_app. apply contains_substring.
  exists (upper a), (upper b). f_equal.
  change (upper (lit " ")) with (lit " ").
  replace (upper [o; n]) with (lit "ON").
  - reflexivity.
  - unfold either_case in Ho, Hn. cbn [upper map].
    rewrite <- (upper_lower_char o), <- (upper_lower_char n), Ho, Hn. reflexivity.
Qed.

Lemma has_on_token_inside (a line b : str) :
  has_on_token line -> has_on_token (a ++ line ++ b).
Proof.
  intros [x [o [n [y [-> H]]]]]. exists (a ++ x), o, n, (y ++ b).
  split; [|exact H]. cbn [app]. rewrite <- !app_assoc. reflexivity.
Qed.

(** A line without the token yields no filter, and never raises. *)
Lemma no_on_token_outcome (line : str) :
  ~ has_on_token line ->
  exists o, parse_line line = Ok o /\ forall f, o <> AppendFilter f.
Proof.
  intros Hn. unfold parse_line.
  destruct (startswith "preamp:" (lower line)).
  - destruct (Re.search re_preamp line) as [[g0 g1]|] eqn:E.
    + destruct (preamp_total _ E) as [v ->]. cbn [bind].
      exists (SetPreamp v). split; [reflexivity | discriminate].
    + exists Ignored. split; [reflexivity | discriminate].
  - destruct (negb (contains "Filter" line) || negb (contains ":" line)).
    + exists Ignored. split; [reflexivity | discriminate].
    + destruct (contains " ON " (upper line)) eqn:E.
      * apply contains_on_token in E. contradiction.
      * exists Ignored. split; [reflexivity | discriminate].
Qed.

(** C8. A text line that does not hold the token [ ON ] (two spaces around
    the letters O and N, in either case) yields no filter record, whatever
    else it holds: the line parser returns normally with an outcome that is
    not a filter, and the profile's filters are left as they were. *)
Theorem C8_line_without_on_yields_no_filter (raw : str) (st : profile) :
  ~ has_on_token raw ->
  (exists o, parse_line (strip raw) = Ok o /\ forall f, o <> AppendFilter f)
  /\ exists st', parse_step st raw = Ok st' /\ p_filters st' = p_filters st.
Proof.
  intros Hn.
  assert (Hs : ~ has_on_token (strip raw)).
  { intros H. apply Hn. destruct (strip_inside raw) as [a [b E]].
    rewrite E. apply has_on_token_inside. exact H. }
  destruct (no_on_token_outcome Hs) as [o [Ho Hf]].
  split; [exists o; auto|].
  unfold parse_step. rewrite Ho. cbn [bind].
  exists (apply_outcome st o). split; [reflexivity|].
  destruct o as [x|f|]; cbn [apply_outcome p_filters]; try reflexivity.
  exfalso. apply (Hf f). reflexivity.
Qed.

Lemma C8_witness :
  (exists o, parse_line (strip "Filter 1: OFF PK Fc 105 Hz Gain -3.5 dB Q 0.70") = Ok o
             /\ forall f, o <> AppendFilter f)
  /\ exists st', parse_step (Profile (0 # 1) [])
                   "Filter 1: OFF PK Fc 105 Hz Gain -3.5 dB Q 0.70" = Ok st'
                 /\ p_filters st' = p_filters (Profile (0 # 1) []).
Proof.
  apply C8_line_without_on_yields_no_filter.
  intros H. apply on_token_contains in H. vm_compute in H. discriminate.
Defined.

(** On an eligible line only the table scan and the three numbers remain. *)
Lemma parse_line_eligible (line : str) :
  eligible line ->
  parse_line line =
  match detect_filter_type FILTER_TYPES (upper line) with
  | None => Ok Ignored
  | Some filter_type =>
      freq <- extract re_fc default_freq line ;;
      gain <- extract re_gain default_gain line ;;
      q <- extract re_q default_q line ;;
      Ok (AppendFilter (Filter filter_type freq q gain))
  end.
Proof.
  intros [H1 [H2 [H3 H4]]]. unfold parse_line.
  rewrite H1, H2, H3, H4. reflexivity.
Qed.

(** C4. The type of a filter line is found by scanning the codes PK, PEQ,
    LSC, LSB, LS, HSC, HSB, HS, LP, LPQ, HP, HPQ in this order, with PK and
    PEQ for peaking, LSC, LSB and LS for lowShelf, HSC, HSB and HS for
    highShelf, LP and LPQ for lowPass, HP and HPQ for highPass.  A code
    counts when it stands between two spaces in the upper-cased line; the
    first code of the table that does gives the type of every filter the
    line yields; a line on which no code does yields no filter. *)
Theorem C4_filter_type_is_first_surrounded_code :
  FILTER_TYPES =
    [ (lit "PK", peaking); (lit "PEQ", peaking);
      (lit "LSC", lowShelf); (lit "LSB", lowShelf); (lit "LS", lowShelf);
      (lit "HSC", highShelf); (lit "HSB", highShelf); (lit "HS", highShelf);
      (lit "LP", lowPass); (lit "LPQ", lowPass);
      (lit "HP", highPass); (lit "HPQ", highPass) ]
  /\ (forall line before code ftype after,
        eligible line ->
        FILTER_TYPES = before ++ (code, ftype) :: after ->
        surrounded code (upper line) ->
        (forall c t, In (c, t) before -> ~ surrounded c (upper line)) ->
        detect_filter_type FILTER_TYPES (upper line) = Some ftype
        /\ forall o, parse_line line = Ok o ->
             exists f, o = AppendFilter f /\ f_type f = ftype)
  /\ (forall line,
        eligible line ->
        (forall c t, In (c, t) FILTER_TYPES -> ~ surrounded c (upper line)) ->
        parse_line line = Ok Ignored)
  /\ (forall line f,
        parse_line line = Ok (AppendFilter f) ->
        exists before code after,
          FILTER_TYPES = before ++ (code, f_type f) :: after
          /\ surrounded code (upper line)
          /\ forall c t, In (c, t) before -> ~ surrounded c (upper line)).
Proof.
  split; [reflexivity|]. split; [|split].
  - intros line before code ftype after He Ht Hs Hn.
    assert (Hd : detect_filter_type FILTER_TYPES (upper line) = Some ftype).
    { apply detect_some. exists before, code, after. auto. }
    split; [exact Hd|]. intros o.
    rewrite (parse_line_eligible He), Hd.
    destruct (extract re_fc default_freq line) as [freq|]; cbn [bind]; [|discriminate].
    destruct (extract re_gain default_gain line) as [gain|]; cbn [bind]; [|discriminate].
    destruct (extract re_q default_q line) as [q|]; cbn [bind]; [|discriminate].
    intros H; injection H as <-. eexists; split; reflexivity.
  - intros line He Hn. rewrite (parse_line_eligible He).
    apply detect_none in Hn. rewrite Hn. reflexivity.
  - intros line f H. apply parse_line_filter in H.
    destruct H as [_ [Hd _]]. apply detect_some in Hd. exact Hd.
Qed.

Lemma C4_witness :
  detect_filter_type FILTER_TYPES (upper "Filter 2: ON LSC Fc 105 Hz Gain 1 dB LS Q 0.7")
    = Some lowShelf
  /\ forall o, parse_line "Filter 2: ON LSC Fc 105 Hz Gain 1 dB LS Q 0.7" = Ok o ->
       exists f, o = AppendFilter f /\ f_type f = lowShelf.
Proof.
  apply (proj1 (proj2 C4_filter_type_is_first_surrounded_code)
           "Filter 2: ON LSC Fc 105 Hz Gain 1 dB LS Q 0.7"
           [(lit "PK", peaking); (lit "PEQ", peaking)]
           "LSC" lowShelf
           [(lit "LSB", lowShelf); (lit "LS", lowShelf);
            (lit "HSC", highShelf); (lit "HSB", highShelf); (lit "HS", highShelf);
            (lit "LP", lowPass); (lit "LPQ", lowPass);
            (lit "HP", highPass); (lit "HPQ", highPass)]).
  - repeat split; reflexivity.
  - reflexivity.
  - apply contains_surrounded. reflexivity.
  - intros c t [H | [H | []]]; injection H as <- <-;
      intros Hs; apply contains_surrounded in Hs; vm_compute in Hs; discriminate.
Defined.

(** The letters of a token are in the line. *)
Lemma lower_either_case (x c : ascii) : either_case x c -> lower_char c = lower_char x.
Proof. exact (fun H => H). Qed.

Lemma fc_token_letters (line : str) :
  has_fc_token line -> contains "fc" (lower line) = true.
Proof.
  intros [a [f [c [ws [d [b [-> [Hf [Hc _]]]]]]]]].
  rewrite !lower_app. apply contains_substring.
  exists (lower a), (lower (ws ++ d :: b)). f_equal.
  rewrite <- lower_app. cbn [lower map app]. rewrite Hf, Hc. reflexivity.
Qed.

Lemma gain_token_letters (line : str) :
  has_gain_token line -> contains "gain" (lower line) = true.
Proof.
  intros [a [g [x [i [n [ws [m [d [b [-> [Hg [Hx [Hi [Hn _]]]]]]]]]]]]]].
  rewrite !lower_app. apply contains_substring.
  exists (lower a), (lower (ws ++ m ++ d :: b)). f_equal.
  rewrite <- !lower_app. cbn [lower map app]. rewrite Hg, Hx, Hi, Hn. reflexivity.
Qed.

Lemma q_token_letter (line : str) :
  has_q_token line -> contains "q" (lower line) = true.
Proof.
  intros [a [sp [q [ws [d [b [-> [_ [Hq _]]]]]]]]].
  apply contains_substring.
  exists (lower (a ++ [sp])), (lower (ws ++ d :: b)).
  unfold lower. rewrite !map_app. cbn [map app]. rewrite Hq, <- !app_assoc.
  reflexivity.
Qed.

(** C5. On a filter line that is otherwise valid (it holds [Filter], a
    colon, [ ON ] and a code of the table between spaces), a missing [Fc]
    token gives the frequency 1000.0, a missing [Gain] token the gain 0.0
    and a missing [Q] token the Q 0.707, each on its own; and the line does
    yield a filter when the [Q] token is missing. *)
Theorem C5_missing_tokens_take_defaults (line : str) :
  eligible line ->
  (exists code ftype, In (code, ftype) FILTER_TYPES /\ surrounded code (upper line)) ->
  (~ has_q_token line -> exists f, parse_line line = Ok (AppendFilter f))
  /\ forall f, parse_line line = Ok (AppendFilter f) ->
       (~ has_fc_token line -> f_freq f = (1000 # 1)%Q)
       /\ (~ has_gain_token line -> f_gain f = (0 # 1)%Q)
       /\ (~ has_q_token line -> f_q f = (707 # 1000)%Q).
Proof.
  intros He [code [ftype [Hin Hs]]]. split.
  - intros Hq. rewrite (parse_line_eligible He).
    destruct (detect_filter_type FILTER_TYPES (upper line)) as [ft|] eqn:Hd.
    + destruct (extract_fc_total line) as [freq ->].
      destruct (extract_gain_total line) as [gain ->].
      rewrite (extract_q_default Hq). cbn [bind]. eexists; reflexivity.
    + exfalso. rewrite detect_none in Hd. apply (Hd code ftype); assumption.
  - intros f H. apply parse_line_filter in H.
    destruct H as [_ [_ [Hfreq [Hgain Hq]]]]. repeat split; intros Hn.
    + rewrite (extract_fc_default Hn) in Hfreq. injection Hfreq as <-. reflexivity.
    + rewrite (extract_gain_default Hn) in Hgain. injection Hgain as <-. reflexivity.
    + rewrite (extract_q_default Hn) in Hq. injection Hq as <-. reflexivity.
Qed.

Lemma C5_witness :
  (~ has_q_token "Filter 3: ON HSC Fc 8000 Hz" ->
   exists f, parse_line "Filter 3: ON HSC Fc 8000 Hz" = Ok (AppendFilter f))
  /\ forall f, parse_line "Filter 3: ON HSC Fc 8000 Hz" = Ok (AppendFilter f) ->
       (~ has_fc_token "Filter 3: ON HSC Fc 8000 Hz" -> f_freq f = (1000 # 1)%Q)
       /\ (~ has_gain_token "Filter 3: ON HSC Fc 8000 Hz" -> f_gain f = (0 # 1)%Q)
       /\ (~ has_q_token "Filter 3: ON HSC Fc 8000 Hz" -> f_q f = (707 # 1000)%Q).
Proof.
  apply C5_missing_tokens_take_defaults.
  - repeat split; reflexivity.
  - exists (lit "HSC"), highShelf. split.
    + simpl. tauto.
    + apply contains_surrounded. reflexivity.
Defined.

(** A line with a frequency only: gain and Q take their defaults. *)
Example C5_defaults_example :
  parse_line "Filter 3: ON HSC Fc 8000 Hz"
  = Ok (AppendFilter (Filter highShelf (8000 # 1) (707 # 1000) (0 # 1)))
  /\ ~ has_gain_token "Filter 3: ON HSC Fc 8000 Hz"
  /\ ~ has_q_token "Filter 3: ON HSC Fc 8000 Hz".
Proof.
  split; [reflexivity|]. split; intros H.
  - apply gain_token_letters in H. vm_compute in H. discriminate.
  - apply q_token_letter in H. vm_compute in H. discriminate.
Qed.

(** ** The profile parser *)

(** A property kept by every iteration holds when the loop ends. *)
Lemma for_each_invariant {A S : Type} (P : S -> Prop) (body : S -> A -> result S) :
  (forall s x s', P s -> body s x = Ok s' -> P s') ->
  forall xs s s', P s -> for_each body xs s = Ok s' -> P s'.
Proof.
  intros Hb xs. induction xs as [|x xs IH]; intros s s' Hs; cbn [for_each].
  - intros H; injection H as <-. exact Hs.
  - destruct (body s x) as [s1|e] eqn:E; cbn [bind]; [|discriminate].
    apply IH. apply (Hb s x); assumption.
Qed.

Lemma parse_step_nonneg (st : profile) (raw : str) (st' : profile) :
  Forall freq_and_q_nonneg (p_filters st) ->
  parse_step st raw = Ok st' ->
  Forall freq_and_q_nonneg (p_filters st').
Proof.
  intros Hst. unfold parse_step.
  destruct (parse_line (strip raw)) as [o|e] eqn:E; cbn [bind]; [|discriminate].
  intros H; injection H as <-.
  destruct o as [x|f|]; cbn [apply_outcome p_filters]; auto.
  apply Forall_app. split; [exact Hst|]. constructor; [|constructor].
  apply parse_line_filter in E. destruct E as [_ [_ [Hf [_ Hq]]]].
  split; [apply (extract_fc_nonneg _ Hf) | apply (extract_q_nonneg _ Hq)].
Qed.

(** C10. Every filter of a parsed profile has a frequency and a Q that are
    not negative: the groups of the frequency and Q patterns cannot hold a
    minus sign. *)
Theorem C10_freq_and_q_never_negative (content : str) (p : profile) :
  parse_content content = Ok p ->
  Forall (fun f => (0 <= f_freq f)%Q /\ (0 <= f_q f)%Q) (p_filters p).
Proof.
  unfold parse_content. intros H.
  apply (for_each_invariant (fun st => Forall freq_and_q_nonneg (p_filters st))
           parse_step) with (3 := H).
  - intros s x s' Hs E. eapply parse_step_nonneg; eassumption.
  - constructor.
Qed.

Lemma C10_witness :
  Forall (fun f => (0 <= f_freq f)%Q /\ (0 <= f_q f)%Q)
    [Filter peaking (1000 # 1) (707 # 1000) (Qopp (35 # 10))].
Proof.
  apply (@C10_freq_and_q_never_negative
           (lit "Preamp: -2.0 dB" ++ [newline]
            ++ lit "Filter 1: ON PK Fc -105 Hz Gain -3.5 dB Q -0.70")
           (Profile (Qopp (20 # 10))
              [Filter peaking (1000 # 1) (707 # 1000) (Qopp (35 # 10))])).
  vm_compute. reflexivity.
Defined.

(** A minus sign in front of the frequency or of Q makes the token missing,
    so the default is used; the gain and the preamp keep their sign. *)
Example minus_signs_example :
  parse_content (lit "Preamp: -2.0 dB" ++ [newline]
                 ++ lit "Filter 1: ON PK Fc -105 Hz Gain -3.5 dB Q -0.70")
  = Ok (Profile (Qopp (20 # 10))
          [Filter peaking (1000 # 1) (707 # 1000) (Qopp (35 # 10))])
  /\ (Qopp (20 # 10) < 0)%Q /\ (Qopp (35 # 10) < 0)%Q.
Proof. split; [reflexivity|]. split; reflexivity. Qed.

(** ** Folder names *)

Lemma manufacturer_test_spec (mfr folder_name : str) :
  manufacturer_test mfr folder_name = true <-> names_manufacturer mfr folder_name.
Proof.
  unfold manufacturer_test, names_manufacturer.
  rewrite andb_true_iff, orb_true_iff, !startswith_prefix, str_eqb_eq. split.
  - intros [_ [[r H] | H]]; [right | left; exact H].
    exists r. rewrite H, <- app_assoc. reflexivity.
  - intros [H | [r H]].
    + split; [exists []; rewrite app_nil_r; exact H | right; exact H].
    + split; [exists (" " ++ r); exact H|]. left. exists r.
      rewrite H, <- app_assoc. reflexivity.
Qed.

Lemma match_manufacturer_step (mfr : str) (mfrs : list str) (folder_name : str) :
  match_manufacturer (mfr :: mfrs) folder_name =
  if manufacturer_test mfr folder_name
  then Some (mfr, match strip (skipn (length mfr) folder_name) with
                  | [] => folder_name
                  | c :: m => c :: m
                  end)
  else match_manufacturer mfrs folder_name.
Proof.
  cbn [match_manufacturer]. unfold manufacturer_test.
  destruct (startswith (lower mfr) (lower folder_name)); cbn [andb]; [|reflexivity].
  destruct (startswith (lower mfr ++ " ") (lower folder_name)
            || str_eqb (lower folder_name) (lower mfr)); [|reflexivity].
  cbv zeta. destruct (strip (skipn (length mfr) folder_name)); reflexivity.
Qed.

(** The first manufacturer of the list that names the folder wins. *)
Lemma match_manufacturer_first (before : list str) (mfr : str) (after : list str)
  (folder_name : str) :
  names_manufacturer mfr folder_name ->
  (forall m, In m before -> ~ names_manufacturer m folder_name) ->
  match_manufacturer (before ++ mfr :: after) folder_name =
  Some (mfr, match strip (skipn (length mfr) folder_name) with
             | [] => folder_name
             | c :: m => c :: m
             end).
Proof.
  intros Hm. induction before as [|m0 before IH]; intros Hn; cbn [app];
    rewrite match_manufacturer_step.
  - apply manufacturer_test_spec in Hm. rewrite Hm. reflexivity.
  - destruct (manufacturer_test m0 folder_name) eqn:E.
    + apply manufacturer_test_spec in E. exfalso. apply (Hn m0); [left; reflexivity | exact E].
    + apply IH. intros m Hin. apply Hn. right. exact Hin.
Qed.

Lemma match_manufacturer_none (mfrs : list str) (folder_name : str) :
  (forall m, In m mfrs -> ~ names_manufacturer m folder_name) ->
  match_manufacturer mfrs folder_name = None.
Proof.
  induction mfrs as [|m0 mfrs IH]; intros Hn; [reflexivity|].
  rewrite match_manufacturer_step.
  destruct (manufacturer_test m0 folder_name) eqn:E.
  - apply manufacturer_test_spec in E. exfalso. apply (Hn m0); [left; reflexivity | exact E].
  - apply IH. intros m Hin. apply Hn. right. exact Hin.
Qed.

(** C6. A manufacturer of the list names a folder only when, letter case
    aside, it is the whole folder name or its start up to a space; the first
    such manufacturer of the list is returned, with the trimmed remainder as
    the model, or the folder name when nothing remains.  When none does, the
    name is cut at its first space into manufacturer and model, and a name
    without a space is the manufacturer of an empty model.  So
    [HIFIMAN HE400se] gives HIFIMAN and HE400se, and [Unknown Thing Model X]
    gives Unknown and Thing Model X. *)
Theorem C6_parse_headphone_name :
  (forall folder_name before mfr after,
      manufacturers = before ++ mfr :: after ->
      names_manufacturer mfr folder_name ->
      (forall m, In m before -> ~ names_manufacturer m folder_name) ->
      parse_headphone_name folder_name =
      (mfr, match strip (skipn (length mfr) folder_name) with
            | [] => folder_name
            | c :: m => c :: m
            end))
  /\ (forall folder_name,
        (forall m, In m manufacturers -> ~ names_manufacturer m folder_name) ->
        (forall a b, folder_name = a ++ " " ++ b -> ~ In " "%char a ->
                     parse_headphone_name folder_name = (a, b))
        /\ (~ In " "%char folder_name ->
            parse_headphone_name folder_name = (folder_name, [])))
  /\ parse_headphone_name "HIFIMAN HE400se" = (lit "HIFIMAN", lit "HE400se")
  /\ parse_headphone_name "Unknown Thing Model X" = (lit "Unknown", lit "Thing Model X")
  /\ parse_headphone_name "AKGSomething" = (lit "AKGSomething", lit "").
Proof.
  split; [|split; [|repeat split; reflexivity]].
  - intros folder_name before mfr after Hl Hm Hn. unfold parse_headphone_name.
    rewrite Hl, (match_manufacturer_first _ _ Hm Hn). reflexivity.
  - intros folder_name Hn. unfold parse_headphone_name.
    rewrite (match_manufacturer_none _ Hn). split.
    + intros a b -> Ha. change (lit " " ++ b) with (" "%char :: b).
      rewrite split1_first by exact Ha. reflexivity.
    + intros Hs. rewrite split1_none by exact Hs. reflexivity.
Qed.

Lemma C6_witness :
  parse_headphone_name "sony  WH-1000XM4 " = (lit "Sony", lit "WH-1000XM4").
Proof.
  apply (proj1 C6_parse_headphone_name "sony  WH-1000XM4 "
           (firstn 25 manufacturers) "Sony" (skipn 26 manufacturers)).
  - reflexivity.
  - apply manufacturer_test_spec. reflexivity.
  - intros m Hin Hm. apply manufacturer_test_spec in Hm.
    cbv [firstn manufacturers] in Hin.
    repeat (destruct Hin as [<- | Hin]; [vm_compute in Hm; discriminate|]).
    exact Hin.
Defined.

(** ** The dictionary *)

Lemma dict_get_set_same (k : key) (v : stored) (d : dict) :
  dict_get k (dict_set k v d) = Some v.
Proof.
  induction d as [|[k' v'] d IH]; cbn [dict_set dict_get].
  - rewrite key_eqb_refl. reflexivity.
  - destruct (key_eqb k k') eqn:E; cbn [dict_get]; rewrite E; auto.
Qed.

Lemma dict_get_set_other (k k' : key) (v : stored) (d : dict) :
  k' <> k -> dict_get k' (dict_set k v d) = dict_get k' d.
Proof.
  intros Hne. induction d as [|[k0 v0] d IH]; cbn [dict_set dict_get].
  - apply key_eqb_neq in Hne. rewrite Hne. reflexivity.
  - destruct (key_eqb k k0) eqn:E; cbn [dict_get].
    + apply key_eqb_eq in E. subst k0.
      apply key_eqb_neq in Hne. rewrite Hne. reflexivity.
    + rewrite IH. reflexivity.
Qed.

(** What [merge] leaves under the key it was given, and under the others. *)
Lemma merge_same (d : dict) (k : key) (priority : Z) (e : entry) :
  dict_get k (merge d k priority e) =
  match dict_get k d with
  | None => Some (Stored priority e)
  | Some kept =>
      if (priority <? s_priority kept)%Z then Some (Stored priority e)
      else Some kept
  end.
Proof.
  unfold merge. destruct (dict_get k d) as [kept|] eqn:E.
  - destruct (priority <? s_priority kept)%Z.
    + apply dict_get_set_same.
    + exact E.
  - apply dict_get_set_same.
Qed.

Lemma merge_other (d : dict) (k k' : key) (priority : Z) (e : entry) :
  k' <> k -> dict_get k' (merge d k priority e) = dict_get k' d.
Proof.
  intros Hne. unfold merge. destruct (dict_get k d) as [kept|].
  - destruct (priority <? s_priority kept)%Z; [|reflexivity].
    apply dict_get_set_other. exact Hne.
  - apply dict_get_set_other. exact Hne.
Qed.

Lemma key_eq_dec (a b : key) : {a = b} + {a <> b}.
Proof.
  destruct (key_eqb a b) eqn:E.
  - left. apply key_eqb_eq. exact E.
  - right. apply key_eqb_neq. exact E.
Qed.

(** Candidates that come after a kept entry and are not strictly better
    leave it in place. *)
Lemma merge_all_keeps (after : list candidate) : forall (d : dict) (k : key) (kept : stored),
  dict_get k d = Some kept ->
  (forall c, In c after -> cand_key c = k -> (s_priority kept <= cand_priority c)%Z) ->
  dict_get k (merge_all after d) = Some kept.
Proof.
  induction after as [|c after IH]; intros d k kept Hd Hafter; cbn [merge_all fold_left].
  - exact Hd.
  - apply IH.
    + unfold merge_candidate. destruct (key_eq_dec k (cand_key c)) as [Hk | Hk].
      * rewrite <- Hk, merge_same, Hd.
        assert (Hp : (s_priority kept <= cand_priority c)%Z)
          by (apply Hafter; [left; reflexivity | auto]).
        apply Z.ltb_ge in Hp. rewrite Hp. reflexivity.
      * rewrite merge_other by exact Hk. exact Hd.
    + intros c' Hin. apply Hafter. right. exact Hin.
Qed.

(** Candidates that are all strictly worse than [priority] leave under the
    key nothing, or an entry strictly worse than [priority]. *)
Lemma merge_all_worse (before : list candidate) (k : key) (priority : Z) :
  forall d : dict,
  (forall kept, dict_get k d = Some kept -> (priority < s_priority kept)%Z) ->
  (forall c, In c before -> cand_key c = k -> (priority < cand_priority c)%Z) ->
  forall kept, dict_get k (merge_all before d) = Some kept ->
               (priority < s_priority kept)%Z.
Proof.
  induction before as [|c before IH]; intros d Hd Hbefore; cbn [merge_all fold_left].
  - exact Hd.
  - apply IH.
    + unfold merge_candidate. intros kept.
      destruct (key_eq_dec k (cand_key c)) as [Hk | Hk].
      * rewrite <- Hk, merge_same.
        assert (Hp : (priority < cand_priority c)%Z)
          by (apply Hbefore; [left; reflexivity | auto]).
        destruct (dict_get k d) as [old|] eqn:E.
        { destruct (cand_priority c <? s_priority old)%Z;
            intros H; injection H as <-; [exact Hp | apply Hd; reflexivity]. }
        { intros H; injection H as <-. exact Hp. }
      * rewrite merge_other by exact Hk. apply Hd.
    + intros c' Hin. apply Hbefore. right. exact Hin.
Qed.

Lemma merge_all_app (xs ys : list candidate) (d : dict) :
  merge_all (xs ++ ys) d = merge_all ys (merge_all xs d).
Proof. apply fold_left_app. Qed.

(** The entry kept under a key is the first candidate of least priority. *)
Lemma merge_all_best (before : list candidate) (c : candidate) (after : list candidate) :
  (forall c', In c' before -> cand_key c' = cand_key c ->
              (cand_priority c < cand_priority c')%Z) ->
  (forall c', In c' after -> cand_key c' = cand_key c ->
              (cand_priority c <= cand_priority c')%Z) ->
  dict_get (cand_key c) (merge_all (before ++ c :: after) [])
  = Some (Stored (cand_priority c) (cand_entry c)).
Proof.
  intros Hb Ha. rewrite merge_all_app.
  change (merge_all (c :: after) (merge_all before []))
    with (merge_all after (merge_candidate (merge_all before []) c)).
  apply merge_all_keeps; [|exact Ha].
  unfold merge_candidate. rewrite merge_same.
  destruct (dict_get (cand_key c) (merge_all before [])) as [kept|] eqn:E;
    [|reflexivity].
  assert (Hp : (cand_priority c < s_priority kept)%Z).
  { apply (@merge_all_worse before (cand_key c) (cand_priority c) []); auto.
    intros kept0 H; discriminate. }
  apply Z.ltb_lt in Hp. rewrite Hp. reflexivity.
Qed.

(** ** The order of the sort keys *)

Lemma code_inj (x y : ascii) : code x = code y -> x = y.
Proof.
  unfold code. intros H.
  rewrite <- (ascii_nat_embedding x), <- (ascii_nat_embedding y), H. reflexivity.
Qed.

Lemma compare_refl (a : str) : Text.compare a a = Eq.
Proof.
  induction a as [|x a IH]; cbn [Text.compare]; [reflexivity|].
  rewrite Nat.compare_refl. exact IH.
Qed.

Lemma compare_eq (a b : str) : Text.compare a b = Eq -> a = b.
Proof.
  revert b. induction a as [|x a IH]; intros [|y b]; cbn [Text.compare];
    try discriminate; [reflexivity|].
  destruct (Nat.compare_spec (code x) (code y)) as [E|E|E]; try discriminate.
  intros H. apply code_inj in E. rewrite E, (IH _ H). reflexivity.
Qed.

Lemma compare_antisym (a b : str) : Text.compare b a = CompOpp (Text.compare a b).
Proof.
  revert b. induction a as [|x a IH]; intros [|y b]; cbn [Text.compare];
    try reflexivity.
  rewrite (Nat.compare_antisym (code x) (code y)).
  destruct (Nat.compare (code x) (code y)); cbn [CompOpp]; auto.
Qed.

Lemma compare_lt_trans (a b c : str) :
  Text.compare a b = Lt -> Text.compare b c = Lt -> Text.compare a c = Lt.
Proof.
  revert b c. induction a as [|x a IH]; intros [|y b] [|z c]; cbn [Text.compare];
    try discriminate; try reflexivity.
  destruct (Nat.compare_spec (code x) (code y)) as [E1|E1|E1];
    destruct (Nat.compare_spec (code y) (code z)) as [E2|E2|E2];
    destruct (Nat.compare_spec (code x) (code z)) as [E3|E3|E3];
    try discriminate; try lia; try reflexivity.
  apply IH.
Qed.

Lemma key_compare_refl (a : key) : key_compare a a = Eq.
Proof. unfold key_compare. rewrite !compare_refl. reflexivity. Qed.

Lemma key_compare_eq (a b : key) : key_compare a b = Eq -> a = b.
Proof.
  destruct a as [a1 a2], b as [b1 b2]. unfold key_compare; cbn [fst snd].
  destruct (Text.compare a1 b1) eqn:E; try discriminate.
  intros H. apply compare_eq in E. apply compare_eq in H. subst. reflexivity.
Qed.

Lemma key_compare_antisym (a b : key) : key_compare b a = CompOpp (key_compare a b).
Proof.
  unfold key_compare. rewrite (compare_antisym (fst a) (fst b)).
  destruct (Text.compare (fst a) (fst b)); cbn [CompOpp]; auto.
  apply compare_antisym.
Qed.

Lemma key_compare_lt_trans (a b c : key) :
  key_compare a b = Lt -> key_compare b c = Lt -> key_compare a c = Lt.
Proof.
  destruct a as [a1 a2], b as [b1 b2], c as [c1 c2]. unfold key_compare; cbn [fst snd].
  destruct (Text.compare a1 b1) eqn:E1; try discriminate;
    destruct (Text.compare b1 c1) eqn:E2; try discriminate; intros H1 H2.
  - apply compare_eq in E1. apply compare_eq in E2. subst.
    rewrite compare_refl. eapply compare_lt_trans; eassumption.
  - apply compare_eq in E1. subst. rewrite E2. reflexivity.
  - apply compare_eq in E2. subst. rewrite E1. reflexivity.
  - rewrite (@compare_lt_trans a1 b1 c1 E1 E2). reflexivity.
Qed.

Lemma key_le_cases (a b : key) : key_le a b <-> key_compare a b = Lt \/ a = b.
Proof.
  unfold key_le, key_leb. split.
  - destruct (key_compare a b) eqn:E; try discriminate; intros _.
    + right. apply key_compare_eq. exact E.
    + left. reflexivity.
  - intros [-> | ->]; [reflexivity|]. rewrite key_compare_refl. reflexivity.
Qed.

Lemma key_le_trans (a b c : key) : key_le a b -> key_le b c -> key_le a c.
Proof.
  rewrite !key_le_cases. intros [H1 | ->] [H2 | ->]; auto.
  left. eapply key_compare_lt_trans; eassumption.
Qed.

Lemma key_le_total (a b : key) : key_leb a b = false -> key_le b a.
Proof.
  unfold key_le, key_leb. rewrite (key_compare_antisym a b).
  destruct (key_compare a b); cbn [CompOpp]; try discriminate. reflexivity.
Qed.


(** ** Sorting *)

Lemma insert_entry_perm (e : entry) (l : list entry) :
  Permutation (e :: l) (insert_entry e l).
Proof.
  induction l as [|x l IH]; cbn [insert_entry]; [apply Permutation_refl|].
  destruct (key_leb (sort_key e) (sort_key x)); [apply Permutation_refl|].
  eapply perm_trans; [apply perm_swap|]. apply perm_skip. exact IH.
Qed.

Lemma sort_entries_perm (l : list entry) : Permutation l (sort_entries l).
Proof.
  induction l as [|e l IH]; cbn [sort_entries]; [apply perm_nil|].
  eapply perm_trans; [apply perm_skip; exact IH | apply insert_entry_perm].
Qed.

Lemma insert_entry_sorted (e : entry) (l : list entry) :
  StronglySorted entry_le l -> StronglySorted entry_le (insert_entry e l).
Proof.
  induction 1 as [|x l Hl IH Hx]; cbn [insert_entry].
  - constructor; constructor.
  - destruct (key_leb (sort_key e) (sort_key x)) eqn:E.
    + constructor; [constructor; assumption|].
      constructor; [exact E|].
      rewrite Forall_forall in Hx |- *. intros y Hy.
      eapply key_le_trans; [exact E | apply Hx; exact Hy].
    + constructor; [exact IH|].
      apply key_le_total in E.
      rewrite Forall_forall in Hx |- *. intros y Hy.
      apply (Permutation_in _ (Permutation_sym (insert_entry_perm e l))) in Hy.
      destruct Hy as [<- | Hy]; [exact E | apply Hx; exact Hy].
Qed.

Lemma sort_entries_sorted (l : list entry) : StronglySorted entry_le (sort_entries l).
Proof.
  induction l as [|e l IH]; cbn [sort_entries]; [constructor|].
  apply insert_entry_sorted. exact IH.
Qed.

(** ** The invariant of the dictionary *)

Lemma dict_get_none (k : key) (d : dict) :
  dict_get k d = None <-> ~ In k (map fst d).
Proof.
  induction d as [|[k' v] d IH]; cbn [dict_get map fst In].
  - tauto.
  - destruct (key_eqb k k') eqn:E.
    + apply key_eqb_eq in E. subst. split; [discriminate | tauto].
    + apply key_eqb_neq in E. rewrite IH. split.
      * intros H [H1 | H1]; [congruence | tauto].
      * tauto.
Qed.

Lemma dict_get_in (k : key) (v : stored) (d : dict) :
  dict_get k d = Some v -> In (k, v) d.
Proof.
  induction d as [|[k' v'] d IH]; cbn [dict_get In]; [discriminate|].
  destruct (key_eqb k k') eqn:E.
  - apply key_eqb_eq in E. subst. intros H; injection H as ->. left. reflexivity.
  - intros H. right. apply IH. exact H.
Qed.

Lemma dict_in_get (k : key) (v : stored) (d : dict) :
  NoDup (map fst d) -> In (k, v) d -> dict_get k d = Some v.
Proof.
  induction d as [|[k' v'] d IH]; cbn [dict_get In map fst]; [tauto|].
  intros Hnd [H | H].
  - injection H as -> ->. rewrite key_eqb_refl. reflexivity.
  - inversion Hnd as [|? ? Hk Hd]; subst.
    destruct (key_eqb k k') eqn:E.
    + apply key_eqb_eq in E. subst. exfalso. apply Hk.
      apply (in_map fst) in H. exact H.
    + apply IH; assumption.
Qed.

(** The keys after [d[k] = v]. *)
Lemma dict_set_keys (k : key) (v : stored) (d : dict) :
  map fst (dict_set k v d) =
  match dict_get k d with
  | Some _ => map fst d
  | None => map fst d ++ [k]
  end.
Proof.
  induction d as [|[k' v'] d IH]; cbn [dict_set dict_get map fst app]; [reflexivity|].
  destruct (key_eqb k k') eqn:E; cbn [map fst]; [reflexivity|].
  rewrite IH. destruct (dict_get k d); reflexivity.
Qed.

Lemma dict_set_values (k : key) (v : stored) (d : dict) (kv : key * stored) :
  In kv (dict_set k v d) -> In kv d \/ (fst kv = k /\ snd kv = v).
Proof.
  induction d as [|[k' v'] d IH]; cbn [dict_set In].
  - intros [<- | []]. right. auto.
  - destruct (key_eqb k k') eqn:E; cbn [In].
    + apply key_eqb_eq in E. subst k'. intros [<- | H]; [right; auto | left; auto].
    + intros [<- | H]; [left; auto|]. destruct (IH H); auto.
Qed.

Lemma dict_set_ok (k : key) (v : stored) (d : dict) :
  k = sort_key (s_entry v) -> dict_ok d -> dict_ok (dict_set k v d).
Proof.
  intros Hk [Hnd Hkeys]. split.
  - rewrite dict_set_keys. destruct (dict_get k d) eqn:E; [exact Hnd|].
    apply dict_get_none in E.
    apply (Permutation_NoDup (l := k :: map fst d)).
    + apply Permutation_cons_append.
    + constructor; assumption.
  - rewrite Forall_forall in Hkeys |- *. intros kv Hin.
    destruct (dict_set_values _ _ _ _ Hin) as [H | [H1 H2]]; [auto|].
    rewrite H1, H2. exact Hk.
Qed.

Lemma merge_ok (d : dict) (k : key) (priority : Z) (e : entry) :
  k = sort_key e -> dict_ok d -> dict_ok (merge d k priority e).
Proof.
  intros Hk Hd. unfold merge. destruct (dict_get k d) as [kept|].
  - destruct (priority <? s_priority kept)%Z; [|exact Hd].
    apply dict_set_ok; assumption.
  - apply dict_set_ok; assumption.
Qed.

(** ** The loops of [main] perform the merges of the candidates *)

Lemma for_each_merges {A : Type} (body : dict -> A -> result dict)
  (f : A -> list candidate) :
  (forall d x d', body d x = Ok d' -> d' = merge_all (f x) d) ->
  forall xs d d', for_each body xs d = Ok d' -> d' = merge_all (flat_map f xs) d.
Proof.
  intros Hb xs. induction xs as [|x xs IH]; intros d d'; cbn [for_each flat_map].
  - intros H; injection H as <-. reflexivity.
  - destruct (body d x) as [d1|e] eqn:E; cbn [bind]; [|discriminate].
    intros H. rewrite merge_all_app, <- (Hb _ _ _ E). apply IH. exact H.
Qed.

Lemma visit_headphone_merges priority source_name ff d item d' :
  visit_headphone priority source_name ff d item = Ok d' ->
  d' = merge_all (headphone_candidates priority source_name ff item) d.
Proof.
  destruct item as [headphone_folder headphone_path].
  unfold visit_headphone, headphone_candidates.
  destruct (negb (is_dir headphone_path)).
  { intros H; injection H as <-. reflexivity. }
  destruct (child headphone_path (headphone_folder ++ " ParametricEQ.txt")) as [peq|].
  2: { intros H; injection H as <-. reflexivity. }
  destruct (parse_profile peq) as [[profile|]|e]; cbn [bind]; [| |discriminate].
  2: { intros H; injection H as <-. reflexivity. }
  destruct (p_filters profile) eqn:Ef.
  { intros H; injection H as <-. reflexivity. }
  destruct (parse_headphone_name headphone_folder) as [manufacturer model].
  intros H; injection H as <-. reflexivity.
Qed.

Lemma visit_target_merges priority source_name d item d' :
  visit_target priority source_name d item = Ok d' ->
  d' = merge_all (target_candidates priority source_name item) d.
Proof.
  destruct item as [target_folder target_path].
  unfold visit_target, target_candidates.
  destruct target_path as [content | headphones]; cbn [is_dir negb listdir bind].
  - intros H; injection H as <-. reflexivity.
  - apply for_each_merges. intros d0 x d1. apply visit_headphone_merges.
Qed.

Lemma visit_source_merges results_path d item d' :
  visit_source results_path d item = Ok d' ->
  d' = merge_all (source_candidates results_path item) d.
Proof.
  destruct item as [source_folder [priority source_name]].
  unfold visit_source, source_candidates.
  destruct (child results_path source_folder) as [[content | targets]|];
    cbn [listdir bind].
  - discriminate.
  - apply for_each_merges. intros d0 x d1. apply visit_target_merges.
  - intros H; injection H as <-. reflexivity.
Qed.

Lemma collect_merges (results_path : node) (d : dict) :
  collect results_path = Ok d -> d = merge_all (candidates results_path) [].
Proof.
  unfold collect, candidates. apply for_each_merges.
  intros d0 x d1. apply visit_source_merges.
Qed.

(** Every candidate is keyed by the sort key of its entry. *)
Lemma headphone_candidates_keyed priority source_name ff item c :
  In c (headphone_candidates priority source_name ff item) ->
  cand_key c = sort_key (cand_entry c).
Proof.
  destruct item as [headphone_folder headphone_path]. unfold headphone_candidates.
  destruct (negb (is_dir headphone_path)); [intros []|].
  destruct (child headphone_path (headphone_folder ++ " ParametricEQ.txt")) as [peq|];
    [|intros []].
  destruct (parse_profile peq) as [[profile|]|e]; try (intros []).
  destruct (p_filters profile); [intros []|].
  destruct (parse_headphone_name headphone_folder) as [manufacturer model].
  intros [<- | []]. reflexivity.
Qed.

Lemma candidates_keyed (results_path : node) (c : candidate) :
  In c (candidates results_path) -> cand_key c = sort_key (cand_entry c).
Proof.
  unfold candidates. rewrite in_flat_map. intros [[sf [pr sn]] [_ H]].
  unfold source_candidates in H.
  destruct (child results_path sf) as [[content | targets]|]; try contradiction.
  rewrite in_flat_map in H. destruct H as [[tf tp] [_ H]].
  unfold target_candidates in H. destruct tp as [content | headphones]; [contradiction|].
  rewrite in_flat_map in H. destruct H as [item [_ H]].
  eapply headphone_candidates_keyed. exact H.
Qed.

Lemma merge_all_ok (cs : list candidate) : forall d : dict,
  (forall c, In c cs -> cand_key c = sort_key (cand_entry c)) ->
  dict_ok d -> dict_ok (merge_all cs d).
Proof.
  induction cs as [|c cs IH]; intros d Hk Hd; cbn [merge_all fold_left]; [exact Hd|].
  apply IH.
  - intros c' Hin. apply Hk. right. exact Hin.
  - apply merge_ok; [apply Hk; left; reflexivity | exact Hd].
Qed.

Lemma collect_ok (results_path : node) (d : dict) :
  collect results_path = Ok d -> dict_ok d.
Proof.
  intros H. rewrite (collect_merges _ H). apply merge_all_ok.
  - apply candidates_keyed.
  - split; constructor.
Qed.

(** ** [main] *)

Lemma main_printed (argv : list str) (fs : str -> option node) (now : str)
  (cat : catalog) :
  main argv fs now = Printed cat ->
  exists prog arg rest results_path all_entries,
    argv = prog :: arg :: rest /\ fs arg = Some results_path
    /\ collect results_path = Ok all_entries
    /\ cat = build_database all_entries now.
Proof.
  unfold main. destruct argv as [|prog [|arg rest]]; try discriminate.
  destruct (fs arg) as [results_path|] eqn:Ef; [|discriminate].
  destruct (collect results_path) as [all_entries|e] eqn:Ec; [|discriminate].
  intros H; injection H as <-.
  exists prog, arg, rest, results_path, all_entries. auto.
Qed.

Lemma build_database_entries (d : dict) (now : str) :
  Permutation (map s_entry (dict_values d)) (c_entries (build_database d now)).
Proof. cbn [build_database c_entries]. apply sort_entries_perm. Qed.

Lemma dict_ok_sort_keys (d : dict) :
  dict_ok d -> map sort_key (map s_entry (dict_values d)) = map fst d.
Proof.
  intros [_ Hk]. unfold dict_values. rewrite !map_map.
  apply map_ext_in. intros kv Hin. rewrite Forall_forall in Hk.
  symmetry. apply Hk. exact Hin.
Qed.

(** C3. In every catalog the script prints, the entries are in ascending
    order of the pair (manufacturer in lower case, model in lower case), no
    two entries have the same pair, and [entryCount] is the number of
    entries. *)
Theorem C3_catalog_sorted_unique_counted (argv : list str) (fs : str -> option node)
  (now : str) (cat : catalog) :
  main argv fs now = Printed cat ->
  StronglySorted (fun a b => key_le (sort_key a) (sort_key b)) (c_entries cat)
  /\ NoDup (map sort_key (c_entries cat))
  /\ c_entryCount cat = length (c_entries cat).
Proof.
  intros H. apply main_printed in H.
  destruct H as [prog [arg [rest [root [d [_ [_ [Hc ->]]]]]]]].
  split; [|split].
  - apply sort_entries_sorted.
  - apply collect_ok in Hc.
    apply (Permutation_NoDup (l := map sort_key (map s_entry (dict_values d)))).
    + apply Permutation_map. apply build_database_entries.
    + rewrite (dict_ok_sort_keys Hc). apply Hc.
  - reflexivity.
Qed.

Lemma C3_witness :
  StronglySorted (fun a b => key_le (sort_key a) (sort_key b))
    (c_entries (build_database (merge_all (candidates sample_tree) []) sample_now))
  /\ NoDup (map sort_key
       (c_entries (build_database (merge_all (candidates sample_tree) []) sample_now)))
  /\ c_entryCount (build_database (merge_all (candidates sample_tree) []) sample_now)
     = length (c_entries (build_database (merge_all (candidates sample_tree) []) sample_now)).
Proof.
  apply (@C3_catalog_sorted_unique_counted sample_argv (sample_fs sample_tree) sample_now).
  vm_compute. reflexivity.
Defined.

(** The entry the dictionary keeps under a key is the one entry of the
    catalog with that key. *)
Lemma kept_entry_in_catalog (d : dict) (now : str) (k : key) (v : stored) :
  dict_ok d -> dict_get k d = Some v ->
  In (s_entry v) (c_entries (build_database d now))
  /\ forall e, In e (c_entries (build_database d now)) -> sort_key e = k ->
               e = s_entry v.
Proof.
  intros Hok Hget. split.
  - apply (Permutation_in _ (build_database_entries d now)).
    apply dict_get_in in Hget. unfold dict_values. rewrite map_map.
    apply (in_map (fun kv => s_entry (snd kv))) in Hget. exact Hget.
  - intros e Hin Hk.
    apply (Permutation_in _ (Permutation_sym (build_database_entries d now))) in Hin.
    unfold dict_values in Hin. rewrite map_map, in_map_iff in Hin.
    destruct Hin as [[k' v'] [He Hin]]. cbn [snd] in He.
    destruct Hok as [Hnd Hkeys]. rewrite Forall_forall in Hkeys.
    pose proof (Hkeys _ Hin) as Hk'. cbn [fst snd] in Hk'.
    rewrite He, Hk in Hk'. subst k'.
    assert (Hg : dict_get k d = Some v') by (apply dict_in_get; assumption).
    rewrite Hg in Hget. injection Hget as <-.
    symmetry. exact He.
Qed.

(** C2. The merge replaces the entry kept under a key only by an entry of
    strictly lower priority number, and keeps the first one on equal
    priority.  So, whatever the order of the visits, the entry kept under a
    key is the first visited among those of least priority number; it is
    the one entry of the printed catalog with that key; and of two entries
    of the same headphone from sources of different priority the one from
    the lower-numbered source is kept, whichever is visited first. *)
Theorem C2_lower_priority_number_wins :
  (forall d k priority e,
      dict_get k (merge d k priority e) =
      match dict_get k d with
      | None => Some (Stored priority e)
      | Some kept =>
          if (priority <? s_priority kept)%Z then Some (Stored priority e)
          else Some kept
      end)
  /\ (forall d k priority e kept,
        dict_get k d = Some kept -> (s_priority kept <= priority)%Z ->
        merge d k priority e = d)
  /\ (forall before c after,
        (forall c', In c' before -> cand_key c' = cand_key c ->
                    (cand_priority c < cand_priority c')%Z) ->
        (forall c', In c' after -> cand_key c' = cand_key c ->
                    (cand_priority c <= cand_priority c')%Z) ->
        dict_get (cand_key c) (merge_all (before ++ c :: after) [])
        = Some (Stored (cand_priority c) (cand_entry c)))
  /\ (forall prog arg rest fs now results_path cat before c after,
        fs arg = Some results_path ->
        main (prog :: arg :: rest) fs now = Printed cat ->
        candidates results_path = before ++ c :: after ->
        (forall c', In c' before -> cand_key c' = cand_key c ->
                    (cand_priority c < cand_priority c')%Z) ->
        (forall c', In c' after -> cand_key c' = cand_key c ->
                    (cand_priority c <= cand_priority c')%Z) ->
        In (cand_entry c) (c_entries cat)
        /\ forall e, In e (c_entries cat) -> sort_key e = cand_key c ->
                     e = cand_entry c)
  /\ (forall cs1 cs2 cs3 a b,
        cand_key a = cand_key b ->
        (cand_priority a < cand_priority b)%Z ->
        (forall c, In c (cs1 ++ cs2 ++ cs3) -> cand_key c <> cand_key a) ->
        dict_get (cand_key a) (merge_all (cs1 ++ a :: cs2 ++ b :: cs3) [])
        = Some (Stored (cand_priority a) (cand_entry a))
        /\ dict_get (cand_key a) (merge_all (cs1 ++ b :: cs2 ++ a :: cs3) [])
           = Some (Stored (cand_priority a) (cand_entry a))).
Proof.
  split; [exact merge_same|]. split; [|split; [exact merge_all_best|split]].
  - intros d k priority e kept Hget Hle. unfold merge. rewrite Hget.
    apply Z.ltb_ge in Hle. rewrite Hle. reflexivity.
  - intros prog arg rest fs now root cat before c after Hfs Hmain Hc Hb Ha.
    unfold main in Hmain. rewrite Hfs in Hmain.
    destruct (collect root) as [d|e] eqn:Ec; [|discriminate].
    injection Hmain as <-.
    apply kept_entry_in_catalog with (v := Stored (cand_priority c) (cand_entry c)).
    + apply (collect_ok _ Ec).
    + rewrite (collect_merges _ Ec), Hc. apply merge_all_best; assumption.
  - intros cs1 cs2 cs3 a b Hk Hp Hn. split.
    + apply merge_all_best.
      * intros c' Hin Hc'. exfalso. apply (Hn c'); [|exact Hc'].
        apply in_or_app. left. exact Hin.
      * intros c' Hin Hc'. apply in_app_or in Hin. destruct Hin as [Hin | [<- | Hin]].
        { exfalso. apply (Hn c'); [|exact Hc']. apply in_or_app. right.
          apply in_or_app. left. exact Hin. }
        { lia. }
        { exfalso. apply (Hn c'); [|exact Hc']. apply in_or_app. right.
          apply in_or_app. right. exact Hin. }
    + replace (cs1 ++ b :: cs2 ++ a :: cs3) with ((cs1 ++ b :: cs2) ++ a :: cs3)
        by (rewrite <- app_assoc; reflexivity).
      apply merge_all_best.
      * intros c' Hin Hc'. apply in_app_or in Hin. destruct Hin as [Hin | [<- | Hin]].
        { exfalso. apply (Hn c'); [|exact Hc']. apply in_or_app. left. exact Hin. }
        { exact Hp. }
        { exfalso. apply (Hn c'); [|exact Hc']. apply in_or_app. right.
          apply in_or_app. left. exact Hin. }
      * intros c' Hin Hc'. exfalso. apply (Hn c'); [|exact Hc'].
        apply in_or_app. right. apply in_or_app. right. exact Hin.
Qed.

Lemma C2_witness :
  let c := nth 1 (candidates sample_tree)
             (Candidate (lit "", lit "") 0 (Entry [] [] [] [] over_ear (0 # 1) [])) in
  let cat := build_database (merge_all (candidates sample_tree) []) sample_now in
  e_id (cand_entry c) = lit "oratory1990/Sennheiser HD 600"
  /\ In (cand_entry c) (c_entries cat)
  /\ forall e, In e (c_entries cat) -> sort_key e = cand_key c -> e = cand_entry c.
Proof.
  intros c cat. split; [reflexivity|].
  apply (proj1 (proj2 (proj2 (proj2 C2_lower_priority_number_wins)))
           (lit "generate_index.py") (lit "/tmp/autoeq/results") []
           (sample_fs sample_tree) sample_now sample_tree cat
           (firstn 1 (candidates sample_tree)) c (skipn 2 (candidates sample_tree))).
  - reflexivity.
  - vm_compute. reflexivity.
  - vm_compute. reflexivity.
  - intros c' [<- | []] H. vm_compute in H. discriminate.
  - intros c' Hin _.
    assert (Hall : Forall (fun x => (cand_priority c <= cand_priority x)%Z)
                     (skipn 2 (candidates sample_tree))).
    { vm_compute. repeat constructor; discriminate. }
    rewrite Forall_forall in Hall. apply Hall. exact Hin.
Defined.

(** C7. A headphone whose profile file parses to no filter contributes what
    a headphone without the file, or with a file that cannot be read,
    contributes: nothing.  The dictionary of kept entries is handed on as it
    was and the headphone is no candidate for the merge. *)
Theorem C7_profile_without_filters_is_absent
  (priority : Z) (source_name : str) (ff : form_factor) (all_entries : dict)
  (headphone_folder : str) (children : list (str * node))
  (content : str) (parsed : profile) :
  lookup (headphone_folder ++ " ParametricEQ.txt") children = Some (File (Some content)) ->
  parse_content content = Ok parsed ->
  p_filters parsed = [] ->
  (visit_headphone priority source_name ff all_entries (headphone_folder, Dir children)
   = Ok all_entries
   /\ headphone_candidates priority source_name ff (headphone_folder, Dir children) = [])
  /\ forall children',
       lookup (headphone_folder ++ " ParametricEQ.txt") children' = None
       \/ lookup (headphone_folder ++ " ParametricEQ.txt") children' = Some (File None) ->
       visit_headphone priority source_name ff all_entries (headphone_folder, Dir children')
       = visit_headphone priority source_name ff all_entries (headphone_folder, Dir children)
       /\ headphone_candidates priority source_name ff (headphone_folder, Dir children')
          = headphone_candidates priority source_name ff (headphone_folder, Dir children).
Proof.
  intros Hl Hp Hf.
  assert (H0 : visit_headphone priority source_name ff all_entries
                 (headphone_folder, Dir children) = Ok all_entries
               /\ headphone_candidates priority source_name ff
                    (headphone_folder, Dir children) = []).
  { unfold visit_headphone, headphone_candidates.
    cbn [is_dir negb child parse_profile]. rewrite Hl.
    cbn [parse_profile]. rewrite Hp. cbn [bind]. rewrite Hf. auto. }
  split; [exact H0|]. destruct H0 as [-> ->].
  intros children' [H | H]; unfold visit_headphone, headphone_candidates;
    cbn [is_dir negb child]; rewrite H; auto.
Qed.

Lemma C7_witness :
  (visit_headphone 2 "crinacle" in_ear [] (sample_headphone "Moondrop Aria" "Preamp: -1 dB")
   = Ok []
   /\ headphone_candidates 2 "crinacle" in_ear
        (sample_headphone "Moondrop Aria" "Preamp: -1 dB") = [])
  /\ forall children',
       lookup (lit "Moondrop Aria" ++ " ParametricEQ.txt") children' = None
       \/ lookup (lit "Moondrop Aria" ++ " ParametricEQ.txt") children' = Some (File None) ->
       visit_headphone 2 "crinacle" in_ear [] (lit "Moondrop Aria", Dir children')
       = visit_headphone 2 "crinacle" in_ear []
           (sample_headphone "Moondrop Aria" "Preamp: -1 dB")
       /\ headphone_candidates 2 "crinacle" in_ear (lit "Moondrop Aria", Dir children')
          = headphone_candidates 2 "crinacle" in_ear
              (sample_headphone "Moondrop Aria" "Preamp: -1 dB").
Proof.
  apply (@C7_profile_without_filters_is_absent 2%Z "crinacle" in_ear []
           "Moondrop Aria"
           [(lit "Moondrop Aria" ++ " ParametricEQ.txt", File (Some (lit "Preamp: -1 dB")))]
           "Preamp: -1 dB" (Profile (Qopp (1 # 1)) [])).
  - reflexivity.
  - reflexivity.
  - reflexivity.
Defined.

(** C1, as the script behaves.  A profile line whose Q is a lone dot matches
    the pattern of Q, the conversion of the dot raises [ValueError], and
    nothing catches it: the run ends there and prints no catalog. *)
Theorem C1_malformed_q_aborts_the_run :
  parse_line "Filter 1: ON PK Fc 105 Hz Gain -3.5 dB Q ." = Raise ValueError
  /\ main sample_argv (sample_fs bad_q_tree) sample_now = Uncaught ValueError.
Proof. split; reflexivity. Qed.

(** The frequency and the gain cannot do this: their groups always convert.
    The group of Q also takes dots alone or several of them. *)
Lemma only_q_raises (line : str) (e : exn) :
  eligible line -> parse_line line = Raise e ->
  exists g0 g1, Re.search re_q line = Some (g0, g1) /\ py_float g1 = Raise e.
Proof.
  intros He. rewrite (parse_line_eligible He).
  destruct (detect_filter_type FILTER_TYPES (upper line)); [|discriminate].
  destruct (extract_fc_total line) as [freq ->].
  destruct (extract_gain_total line) as [gain ->]. cbn [bind].
  unfold extract. destruct (Re.search re_q line) as [[g0 g1]|]; [|discriminate].
  destruct (py_float g1) as [q|e'] eqn:E; cbn [bind]; [discriminate|].
  intros H; injection H as <-. exists g0, g1. auto.
Qed.

(** A source folder that is a regular file ends the run as well. *)
Example file_source_aborts_the_run :
  main sample_argv (sample_fs file_source_tree) sample_now
  = Uncaught NotADirectoryError.
Proof. reflexivity. Qed.

(** ** Examples *)

Example end_to_end_example :
  parse_content sample_profile
  = Ok (Profile (Qopp (20 # 10))
          [Filter peaking (105 # 1) (70 # 100) (Qopp (35 # 10))]).
Proof. reflexivity. Qed.

Example form_factor_examples :
  detect_form_factor "IEM targets" = in_ear
  /\ detect_form_factor "Over-ear targets" = over_ear
  /\ detect_form_factor "Earbud targets" = earbud.
Proof. repeat split; reflexivity. Qed.

Example text_examples :
  lower "HIFIMAN HE400se" = lit "hifiman he400se"
  /\ upper "Filter 1: on pk" = lit "FILTER 1: ON PK"
  /\ strip "  Filter 1: ON  " = lit "Filter 1: ON"
  /\ split newline (lit "a" ++ [newline] ++ lit "b" ++ [newline]) = [lit "a"; lit "b"; lit ""]
  /\ split1 " " "Unknown Thing Model X" = [lit "Unknown"; lit "Thing Model X"].
Proof. repeat split; reflexivity. Qed.

(** * Further properties *)

Unset Implicit Arguments.

(** ** The matcher misses no match *)

Module ReComplete.
Import Re ReFacts Shapes.

Lemma keep_none it c r : keep it c r = None -> r = None.
Proof. destruct r as [[g0 g1]|]; [discriminate | reflexivity]. Qed.

Lemma orelse_none r alt : orelse r alt = None -> r = None /\ alt = None.
Proof. destruct r; [discriminate | auto]. Qed.

(** A repetition that fails has tried every run of its class. *)
Lemma star_complete it k (P : str -> Prop) :
  complete P k ->
  forall s, star it k s = None ->
  forall run w rest, s = run ++ w ++ rest ->
    Forall (fun c => cls it c = true) run -> ~ P w.
Proof.
  intros Hk s. induction s as [|c s IH]; intros Hs run w rest E Hrun.
  - cbn [star] in Hs. apply orelse_none in Hs. destruct Hs as [_ Hs].
    destruct run; [|discriminate]. apply (Hk _ Hs w rest). exact E.
  - cbn [star] in Hs. apply orelse_none in Hs. destruct Hs as [H1 H2].
    destruct run as [|x run].
    + apply (Hk _ H2 w rest). exact E.
    + cbn [app] in E. injection E as <- E.
      inversion Hrun as [|? ? Hx Hrun']; subst. rewrite Hx in H1.
      apply keep_none in H1. apply (IH H1 run w rest); auto.
Qed.

Lemma match_here_complete p : complete (in_language p) (match_here p).
Proof.
  induction p as [|it p IH]; intros s Hs w rest E [g Hm].
  - discriminate.
  - apply matches_cons_inv in Hm.
    destruct Hm as [run [w' [g' [-> [_ [Hrun [Hok Hm]]]]]]].
    assert (Hlang : in_language p w') by (exists g'; exact Hm).
    rewrite <- app_assoc in E. cbn [match_here] in Hs.
    destruct (rep it) eqn:Hr; cbn [run_ok] in Hok.
    + destruct run as [|c [|d run]]; try discriminate.
      inversion Hrun as [|? ? Hc _]; subst. cbn [app one] in Hs. rewrite Hc in Hs.
      apply keep_none in Hs. apply (IH _ Hs w' rest); auto.
    + apply orelse_none in Hs. destruct Hs as [H1 H2].
      destruct run as [|c [|d run]]; [| |cbn in Hok; lia].
      * apply (IH _ H2 w' rest); auto.
      * inversion Hrun as [|? ? Hc _]; subst. cbn [app one] in H1. rewrite Hc in H1.
        apply keep_none in H1. apply (IH _ H1 w' rest); auto.
    + eapply (@star_complete it (match_here p) (in_language p) IH s Hs run w' rest);
        auto.
    + destruct run as [|c run]; [congruence|].
      inversion Hrun as [|? ? Hc Hrun']; subst. cbn [app one] in Hs. rewrite Hc in Hs.
      apply keep_none in Hs.
      eapply (@star_complete it (match_here p) (in_language p) IH _ Hs run w' rest);
        auto.
Qed.

(** [search] misses no occurrence. *)
Lemma search_complete p s :
  search p s = None ->
  forall pre w rest, s = pre ++ w ++ rest -> ~ in_language p w.
Proof.
  induction s as [|c s IH]; intros Hs pre w rest E; cbn [search] in Hs;
    apply orelse_none in Hs; destruct Hs as [H1 H2].
  - destruct pre; [|discriminate]. apply (match_here_complete p _ H1 w rest). exact E.
  - destruct pre as [|x pre].
    + apply (match_here_complete p _ H1 w rest). exact E.
    + cbn [app] in E. injection E as _ E. apply (IH H2 pre w rest). exact E.
Qed.

(** Words of the four patterns. *)
Lemma matches_chr_i x c p w g :
  either_case x c -> matches p w g -> matches (chr_i x :: p) (c :: w) g.
Proof.
  intros Hc Hm.
  apply (@matches_one (chr_i x) p c w g); [reflexivity | | exact Hm].
  cbn [chr_i cls]. apply Ascii.eqb_eq. exact Hc.
Qed.

Lemma matches_spaces ws p w g :
  ws <> [] -> all_space ws -> matches p w g ->
  matches (Item is_space Plus false :: p) (ws ++ w) g.
Proof.
  intros Hne Hws Hm.
  apply (@matches_item (Item is_space Plus false) p ws w g); auto.
Qed.

Lemma matches_decimal_digit (g : bool) (d : ascii) :
  is_digit d = true -> in_language (decimal g) [d].
Proof.
  intros Hd. exists ((if g then [d] else []) ++ []). unfold decimal.
  apply (@matches_item (Item is_digit Plus g) _ [d] [] []).
  - constructor; [exact Hd | constructor].
  - discriminate.
  - apply matches_skip; [right; reflexivity|].
    apply matches_skip; [left; reflexivity|]. constructor.
Qed.

Lemma matches_signed_decimal_digit (g : bool) (m : str) (d : ascii) :
  m = [] \/ m = [minus_c] -> is_digit d = true ->
  in_language (signed_decimal g) (m ++ [d]).
Proof.
  intros Hm Hd. destruct (matches_decimal_digit g d Hd) as [g1 H].
  unfold signed_decimal. destruct Hm as [-> | ->].
  - exists g1. apply matches_skip; [right; reflexivity | exact H].
  - eexists.
    apply (@matches_item (Item (Ascii.eqb minus_c) Opt g) _ [minus_c] [d] g1).
    + constructor; [apply Ascii.eqb_refl | constructor].
    + cbn. lia.
    + exact H.
Qed.

End ReComplete.

(** ** Tokens are found exactly when they are there *)

Lemma fc_token_found (line : str) :
  has_fc_token line -> Re.search re_fc line <> None.
Proof.
  intros [a [f [c [ws [d [b [-> [Hf [Hc [Hne [Hws Hd]]]]]]]]]]] Hs.
  apply (ReComplete.search_complete re_fc _ Hs a ([f; c] ++ ws ++ [d]) b).
  - rewrite <- !app_assoc. reflexivity.
  - destruct (ReComplete.matches_decimal_digit true d Hd) as [g Hm].
    exists g. unfold re_fc. cbn [app].
    apply ReComplete.matches_chr_i; [exact Hf|].
    apply ReComplete.matches_chr_i; [exact Hc|].
    apply ReComplete.matches_spaces; assumption.
Qed.

Lemma gain_token_found (line : str) :
  has_gain_token line -> Re.search re_gain line <> None.
Proof.
  intros (a & g & x & i & n & ws & m & d & b & -> & Hg & Hx & Hi & Hn & Hne & Hws & Hm & Hd) Hs.
  apply (ReComplete.search_complete re_gain _ Hs a ([g; x; i; n] ++ ws ++ m ++ [d]) b).
  - rewrite <- !app_assoc. reflexivity.
  - destruct (ReComplete.matches_signed_decimal_digit true m d Hm Hd) as [g1 H].
    exists g1. unfold re_gain. cbn [app].
    apply ReComplete.matches_chr_i; [exact Hg|].
    apply ReComplete.matches_chr_i; [exact Hx|].
    apply ReComplete.matches_chr_i; [exact Hi|].
    apply ReComplete.matches_chr_i; [exact Hn|].
    apply ReComplete.matches_spaces; assumption.
Qed.

Lemma q_token_found (line : str) :
  has_q_token line -> Re.search re_q line <> None.
Proof.
  intros [a [sp [q [ws [d [b [-> [Hsp [Hq [Hne [Hws Hd]]]]]]]]]]] Hs.
  apply (ReComplete.search_complete re_q _ Hs a ([sp; q] ++ ws ++ [d]) b).
  - rewrite <- !app_assoc. reflexivity.
  - exists ([] ++ [d] ++ []). unfold re_q. cbn [app].
    apply (@Re.matches_item (Re.Item is_space Re.One false) _ [sp] _ _).
    + constructor; [exact Hsp | constructor].
    + reflexivity.
    + apply ReComplete.matches_chr_i; [exact Hq|].
      apply ReComplete.matches_spaces; [assumption | assumption|].
      apply (@Re.matches_item (Re.Item Re.digit_or_dot Re.Plus true) [] [d] [] []).
      * constructor; [exact Hd | constructor].
      * discriminate.
      * constructor.
Qed.

(** X1. The default of a field is taken exactly when its token is missing:
    each of the three searches fails if and only if the line has no [Fc]
    token, no [Gain] token, no [Q] token. *)
Theorem search_fails_iff_token_missing (line : str) :
  (Re.search re_fc line = None <-> ~ has_fc_token line)
  /\ (Re.search re_gain line = None <-> ~ has_gain_token line)
  /\ (Re.search re_q line = None <-> ~ has_q_token line).
Proof.
  split; [|split]; split.
  - intros H Ht. apply (fc_token_found line Ht H).
  - intros Hn. destruct (Re.search re_fc line) as [[g0 g1]|] eqn:E; [|reflexivity].
    apply search_fc in E. tauto.
  - intros H Ht. apply (gain_token_found line Ht H).
  - intros Hn. destruct (Re.search re_gain line) as [[g0 g1]|] eqn:E; [|reflexivity].
    apply search_gain in E. tauto.
  - intros H Ht. apply (q_token_found line Ht H).
  - intros Hn. destruct (Re.search re_q line) as [[g0 g1]|] eqn:E; [|reflexivity].
    apply search_q in E. tauto.
Qed.

(** ** Preamp lines *)

Lemma decimal_text_has_digit (w : str) : decimal_text w -> existsb is_digit w = true.
Proof.
  intros Hd. destruct (decimal_text_head Hd) as [c [r [-> Hc]]].
  cbn [existsb]. rewrite Hc. reflexivity.
Qed.

Lemma signed_decimal_text_has_digit (w : str) :
  signed_decimal_text w -> existsb is_digit w = true.
Proof.
  intros [Hd | [w' [-> Hd]]].
  - apply decimal_text_has_digit. exact Hd.
  - cbn [existsb]. rewrite (decimal_text_has_digit w' Hd). apply orb_true_r.
Qed.

(** The preamp pattern matches as soon as the line has a digit. *)
Lemma preamp_search_iff (line : str) :
  Re.search re_preamp line = None <-> existsb is_digit line = false.
Proof.
  split.
  - intros Hs. destruct (existsb is_digit line) eqn:E; [|reflexivity].
    exfalso. apply existsb_exists in E. destruct E as [d [Hin Hd]].
    apply in_split in Hin. destruct Hin as [a [b ->]].
    apply (ReComplete.search_complete re_preamp _ Hs a ([] ++ [d]) b).
    + reflexivity.
    + apply ReComplete.matches_signed_decimal_digit; auto.
  - intros Hn. destruct (Re.search re_preamp line) as [[g0 g1]|] eqn:E; [|reflexivity].
    exfalso. apply ReFacts.search_sound in E. destruct E as [pre [rest [-> Hm]]].
    apply Shapes.signed_decimal_shape in Hm. destruct Hm as [Hd _].
    apply signed_decimal_text_has_digit in Hd.
    rewrite !existsb_app, Hd, orb_true_r in Hn. discriminate.
Qed.

(** X2. A line that starts with [preamp:], in any letter case, never raises
    and never yields a filter, whatever follows; it sets the preamp exactly
    when it holds a digit, and is ignored otherwise, which leaves the preamp
    read so far (0.0 at the start). *)
Theorem preamp_line_outcome (line : str) :
  startswith "preamp:" (lower line) = true ->
  (existsb is_digit line = true -> exists x, parse_line line = Ok (SetPreamp x))
  /\ (existsb is_digit line = false -> parse_line line = Ok Ignored).
Proof.
  intros Hp. unfold parse_line. rewrite Hp. split; intros Hd.
  - destruct (Re.search re_preamp line) as [[g0 g1]|] eqn:E.
    + destruct (@preamp_total line g0 g1 E) as [v ->]. exists v. reflexivity.
    + apply preamp_search_iff in E. congruence.
  - apply preamp_search_iff in Hd. rewrite Hd. reflexivity.
Qed.

Lemma preamp_line_outcome_witness :
  (existsb is_digit "PREAMP: Filter 1: ON PK Q . -6.5 dB" = true ->
   exists x, parse_line "PREAMP: Filter 1: ON PK Q . -6.5 dB" = Ok (SetPreamp x))
  /\ (existsb is_digit "PREAMP: Filter 1: ON PK Q . -6.5 dB" = false ->
      parse_line "PREAMP: Filter 1: ON PK Q . -6.5 dB" = Ok Ignored).
Proof.
  apply (preamp_line_outcome "PREAMP: Filter 1: ON PK Q . -6.5 dB"). reflexivity.
Defined.

(** ** When a line raises *)

Lemma digits_none_iff (s : str) :
  Forall (fun c => Re.digit_or_dot c = true) s ->
  forall acc, digits acc s = None <-> In Re.dot_c s.
Proof.
  induction 1 as [|c s Hc Hs IH]; intros acc; cbn [digits In].
  - split; [discriminate | tauto].
  - destruct (is_digit c) eqn:Ed.
    + rewrite IH. split; [tauto|]. intros [H | H]; [|exact H].
      subst c. discriminate.
    + split; [intros _|reflexivity]. left.
      unfold Re.digit_or_dot in Hc. rewrite Ed in Hc. cbn [orb] in Hc.
      apply Ascii.eqb_eq in Hc. auto.
Qed.

Lemma count_dot_zero (s : str) :
  ~ In Re.dot_c s -> count_occ ascii_dec s Re.dot_c = 0.
Proof. intros H. apply count_occ_not_In. exact H. Qed.

(** The group of Q converts unless it is a lone dot or has two dots. *)
Lemma float_of_digits_and_dots (g : str) :
  g <> [] -> Forall (fun c => Re.digit_or_dot c = true) g ->
  (py_float g = Raise ValueError <-> bad_number g)
  /\ (forall e, py_float g = Raise e -> e = ValueError).
Proof.
  intros Hne Hall.
  assert (Hpf : py_float g = float_unsigned g).
  { destruct g as [|c r]; [congruence|]. cbn [py_float].
    inversion Hall as [|? ? Hc _]; subst.
    rewrite (digit_or_dot_not_minus c Hc). reflexivity. }
  rewrite Hpf. unfold float_unsigned, bad_number.
  destruct (split1_cases Re.dot_c g) as [[-> Hn] | [a [b [-> [-> Hn]]]]].
  - cbv beta iota zeta. rewrite app_nil_r.
    destruct g as [|c r]; [congruence|].
    destruct (digits 0 (c :: r)) as [v|] eqn:Ed.
    + cbn [digits]. split.
      * split; [discriminate|]. intros [H | H].
        { exfalso. apply Hn. rewrite H. left. reflexivity. }
        { rewrite (count_dot_zero _ Hn) in H. lia. }
      * discriminate.
    + apply (digits_none_iff _ Hall) in Ed. contradiction.
  - apply Forall_app in Hall. destruct Hall as [Ha Hb].
    inversion Hb as [|? ? _ Hb']; subst.
    assert (Hda : exists va, digits 0 a = Some va).
    { destruct (digits 0 a) as [va|] eqn:Ed; [eauto|].
      apply (digits_none_iff _ Ha) in Ed. contradiction. }
    destruct Hda as [va Hva].
    rewrite count_occ_app, (count_dot_zero _ Hn). cbn [count_occ].
    destruct (ascii_dec Re.dot_c Re.dot_c) as [_|Hx]; [|congruence].
    destruct (a ++ b) as [|c r] eqn:Eab.
    + apply app_eq_nil in Eab. destruct Eab as [-> ->]. split.
      * split; [intros _; left; reflexivity | reflexivity].
      * intros e H; injection H as <-. reflexivity.
    + rewrite Hva. destruct (digits 0 b) as [vb|] eqn:Eb.
      * split; [|discriminate]. split; [discriminate|]. intros [H | H].
        { exfalso. destruct a as [|x a'].
          - cbn [app] in H. injection H as ->. cbn [app] in Eab. discriminate.
          - cbn [app] in H. injection H as -> H. apply Hn. left. reflexivity. }
        { exfalso.
          assert (Hnb : ~ In Re.dot_c b).
          { intros Hin. apply (digits_none_iff _ Hb' 0%Z) in Hin. congruence. }
          rewrite (count_dot_zero _ Hnb) in H. cbn in H. lia. }
      * split; [|intros e H; injection H as <-; reflexivity].
        split; [intros _|reflexivity]. right.
        apply (digits_none_iff _ Hb') in Eb.
        apply (count_occ_In ascii_dec) in Eb. cbn. lia.
Qed.

(** When a line raises, and with what. *)
Lemma parse_line_raise_cases (line : str) (e : exn) :
  parse_line line = Raise e <->
  e = ValueError /\ eligible line
  /\ detect_filter_type FILTER_TYPES (upper line) <> None
  /\ exists g0 g1, Re.search re_q line = Some (g0, g1) /\ bad_number g1.
Proof.
  split.
  - intros H.
    assert (He : eligible line).
    { unfold parse_line in H. unfold eligible.
      destruct (startswith "preamp:" (lower line)).
      { destruct (Re.search re_preamp line) as [[g0 g1]|] eqn:E; [|discriminate].
        destruct (@preamp_total line g0 g1 E) as [v Hv]. rewrite Hv in H. discriminate. }
      destruct (contains "Filter" line); cbn [negb orb] in H; [|discriminate].
      destruct (contains ":" line); cbn [negb orb] in H; [|discriminate].
      destruct (contains " ON " (upper line)); cbn [negb] in H; [|discriminate].
      auto. }
    assert (Hd : detect_filter_type FILTER_TYPES (upper line) <> None).
    { intros Hd. rewrite (parse_line_eligible He), Hd in H. discriminate. }
    destruct (only_q_raises He H) as [g0 [g1 [Hs Hf]]].
    pose proof Hs as Hm. apply ReFacts.search_sound in Hm.
    destruct Hm as [pre [rest [_ Hm]]]. apply Shapes.re_q_shape in Hm.
    destruct Hm as [sp [q [ws [_ [_ [_ [_ [_ [Hne Hall]]]]]]]]].
    destruct (float_of_digits_and_dots g1 Hne Hall) as [Hbad Hexn].
    pose proof (Hexn e Hf) as ->. split; [reflexivity|]. split; [exact He|].
    split; [exact Hd|]. exists g0, g1. split; [exact Hs | apply Hbad; exact Hf].
  - intros [-> [He [Hd [g0 [g1 [Hs Hbad]]]]]].
    rewrite (parse_line_eligible He).
    destruct (detect_filter_type FILTER_TYPES (upper line)) as [ft|]; [|congruence].
    destruct (extract_fc_total line) as [freq ->].
    destruct (extract_gain_total line) as [gain ->]. cbn [bind].
    unfold extract. rewrite Hs.
    pose proof Hs as Hm. apply ReFacts.search_sound in Hm.
    destruct Hm as [pre [rest [_ Hm]]]. apply Shapes.re_q_shape in Hm.
    destruct Hm as [sp [q [ws [_ [_ [_ [_ [_ [Hne Hall]]]]]]]]].
    destruct (float_of_digits_and_dots g1 Hne Hall) as [Hiff _].
    apply Hiff in Hbad. rewrite Hbad. reflexivity.
Qed.

(** X3. The one way a line can raise: it passes all the tests of a filter
    line, one of the codes of the table stands between spaces, the pattern
    of Q matches, and its group is a lone dot or holds two dots or more.
    The exception is then [ValueError]; frequency, gain and preamp never
    raise. *)
Theorem parse_line_raises_iff (line : str) (e : exn) :
  parse_line line = Raise e <->
  e = ValueError /\ eligible line
  /\ detect_filter_type FILTER_TYPES (upper line) <> None
  /\ exists g0 g1, Re.search re_q line = Some (g0, g1) /\ bad_number g1.
Proof. exact (parse_line_raise_cases line e). Qed.

(** ** Profiles, line by line *)

Lemma parse_step_effect (st : profile) (raw : str) (st' : profile) :
  parse_step st raw = Ok st' ->
  p_filters st' = p_filters st ++ line_filters raw
  /\ p_preamp st' = last (line_preamps raw) (p_preamp st).
Proof.
  unfold parse_step, line_filters, line_preamps.
  destruct (parse_line (strip raw)) as [[x|f|]|e]; cbn [bind]; try discriminate;
    intros H; injection H as <-; cbn [apply_outcome p_filters p_preamp last];
    rewrite ?app_nil_r; auto.
Qed.

Lemma last_app_default (xs ys : list Q) (d : Q) :
  last (xs ++ ys) d = last ys (last xs d).
Proof.
  revert xs. induction ys as [|y ys IH] using rev_ind; intros xs.
  - rewrite app_nil_r. reflexivity.
  - rewrite app_assoc, !last_last. reflexivity.
Qed.

Lemma for_each_parse_effect (lines : list str) : forall st st',
  for_each parse_step lines st = Ok st' ->
  p_filters st' = p_filters st ++ flat_map line_filters lines
  /\ p_preamp st' = last (flat_map line_preamps lines) (p_preamp st).
Proof.
  induction lines as [|raw lines IH]; intros st st'; cbn [for_each flat_map].
  - intros H; injection H as <-. rewrite app_nil_r. auto.
  - destruct (parse_step st raw) as [st1|e] eqn:E; cbn [bind]; [|discriminate].
    intros H. apply IH in H. destruct H as [Hf Hp].
    apply parse_step_effect in E. destruct E as [Ef Ep].
    rewrite Hf, Ef, Hp, Ep, <- app_assoc, last_app_default. auto.
Qed.

(** X4. The filters of a parsed profile are those of its lines, one at most
    per line and in the order of the file; its preamp is that of the last
    preamp line that holds a number, and 0.0 when there is none. *)
Theorem profile_is_read_in_file_order (content : str) (p : profile) :
  parse_content content = Ok p ->
  p_filters p = flat_map line_filters (split newline content)
  /\ p_preamp p = last (flat_map line_preamps (split newline content)) (0 # 1)%Q
  /\ length (p_filters p) <= length (split newline content).
Proof.
  unfold parse_content. intros H. apply for_each_parse_effect in H.
  destruct H as [Hf Hp]. cbn [p_filters p_preamp app] in Hf, Hp.
  split; [exact Hf|]. split; [exact Hp|]. rewrite Hf.
  generalize (split newline content). intros lines.
  induction lines as [|raw lines IH]; cbn [flat_map length]; [lia|].
  rewrite length_app. unfold line_filters at 1.
  destruct (parse_line (strip raw)) as [[x|f|]|e]; cbn [length]; lia.
Qed.

Lemma profile_is_read_in_file_order_witness :
  [Filter lowShelf (105 # 1) (70 # 100) (60 # 10);
   Filter peaking (2000 # 1) (707 # 1000) (Qopp (1 # 1))]
  = flat_map line_filters
      (split newline
         (lit "Preamp: -6 dB" ++ [newline]
          ++ lit "Filter 1: ON LSC Fc 105 Hz Gain 6.0 dB Q 0.70" ++ [newline]
          ++ lit "Filter 2: OFF PK Fc 500 Hz Gain 2 dB Q 1" ++ [newline]
          ++ lit "preamp: -3.5 dB" ++ [newline]
          ++ lit "  Filter 3: ON PK Fc 2000 Hz Gain -1 dB  "))
  /\ Qopp (35 # 10)
     = last (flat_map line_preamps
               (split newline
                  (lit "Preamp: -6 dB" ++ [newline]
                   ++ lit "Filter 1: ON LSC Fc 105 Hz Gain 6.0 dB Q 0.70" ++ [newline]
                   ++ lit "Filter 2: OFF PK Fc 500 Hz Gain 2 dB Q 1" ++ [newline]
                   ++ lit "preamp: -3.5 dB" ++ [newline]
                   ++ lit "  Filter 3: ON PK Fc 2000 Hz Gain -1 dB  "))) (0 # 1)%Q
  /\ 2 <= length
            (split newline
               (lit "Preamp: -6 dB" ++ [newline]
                ++ lit "Filter 1: ON LSC Fc 105 Hz Gain 6.0 dB Q 0.70" ++ [newline]
                ++ lit "Filter 2: OFF PK Fc 500 Hz Gain 2 dB Q 1" ++ [newline]
                ++ lit "preamp: -3.5 dB" ++ [newline]
                ++ lit "  Filter 3: ON PK Fc 2000 Hz Gain -1 dB  ")).
Proof.
  apply (profile_is_read_in_file_order
           (lit "Preamp: -6 dB" ++ [newline]
            ++ lit "Filter 1: ON LSC Fc 105 Hz Gain 6.0 dB Q 0.70" ++ [newline]
            ++ lit "Filter 2: OFF PK Fc 500 Hz Gain 2 dB Q 1" ++ [newline]
            ++ lit "preamp: -3.5 dB" ++ [newline]
            ++ lit "  Filter 3: ON PK Fc 2000 Hz Gain -1 dB  ")
           (Profile (Qopp (35 # 10))
              [Filter lowShelf (105 # 1) (70 # 100) (60 # 10);
               Filter peaking (2000 # 1) (707 # 1000) (Qopp (1 # 1))])).
  vm_compute. reflexivity.
Defined.

(** A loop that raises: some iteration raised. *)
Lemma for_each_raises {A S : Type} (body : S -> A -> result S) (xs : list A) :
  forall s e, for_each body xs s = Raise e ->
              exists s' x, In x xs /\ body s' x = Raise e.
Proof.
  induction xs as [|x xs IH]; intros s e; cbn [for_each]; [discriminate|].
  destruct (body s x) as [s1|e1] eqn:E; cbn [bind].
  - intros H. destruct (IH _ _ H) as [s' [y [Hin Hy]]].
    exists s', y. split; [right; exact Hin | exact Hy].
  - intros H; injection H as <-. exists s, x. split; [left; reflexivity | exact E].
Qed.

Lemma for_each_parse_ok (lines : list str) :
  (forall raw, In raw lines -> forall e, parse_line (strip raw) <> Raise e) ->
  forall st, exists st', for_each parse_step lines st = Ok st'.
Proof.
  induction lines as [|raw lines IH]; intros Hok st; cbn [for_each].
  - exists st. reflexivity.
  - unfold parse_step at 1.
    destruct (parse_line (strip raw)) as [o|e] eqn:E.
    + cbn [bind]. apply IH. intros r Hin. apply Hok. right. exact Hin.
    + exfalso. apply (Hok raw (or_introl eq_refl) e). exact E.
Qed.

(** When a profile raises, and with what. *)
Lemma parse_content_raise_cases (content : str) (e : exn) :
  parse_content content = Raise e <->
  e = ValueError
  /\ exists raw, In raw (split newline content)
                 /\ parse_line (strip raw) = Raise ValueError.
Proof.
  unfold parse_content. split.
  - intros H. apply for_each_raises in H. destruct H as [st [raw [Hin Hr]]].
    unfold parse_step in Hr.
    destruct (parse_line (strip raw)) as [o|e'] eqn:E; cbn [bind] in Hr; [discriminate|].
    injection Hr as ->. pose proof E as E'.
    apply parse_line_raise_cases in E'. destruct E' as [-> _].
    split; [reflexivity|]. exists raw. auto.
  - intros [-> [raw [Hin Hr]]].
    destruct (for_each parse_step (split newline content) (Profile (0 # 1) []))
      as [p|e] eqn:E.
    + exfalso. revert E Hin. generalize (Profile (0 # 1) []).
      generalize (split newline content). intros lines.
      induction lines as [|l lines IH]; intros st; cbn [for_each In]; [tauto|].
      unfold parse_step at 1.
      destruct (parse_line (strip l)) as [o|e'] eqn:El; cbn [bind]; [|discriminate].
      intros H [Hl | Hl]; [subst l; congruence | eapply IH; eassumption].
    + apply for_each_raises in E. destruct E as [st [r [_ Hr']]].
      unfold parse_step in Hr'.
      destruct (parse_line (strip r)) as [o|e'] eqn:Er; cbn [bind] in Hr'; [discriminate|].
      injection Hr' as ->. apply parse_line_raise_cases in Er. destruct Er as [-> _].
      reflexivity.
Qed.

(** X5. Parsing a profile raises exactly when one of its lines raises, and
    then with [ValueError]: a profile all of whose lines are harmless is
    always parsed. *)
Theorem parse_content_raises_iff (content : str) (e : exn) :
  parse_content content = Raise e <->
  e = ValueError
  /\ exists raw, In raw (split newline content)
                 /\ parse_line (strip raw) = Raise ValueError.
Proof. exact (parse_content_raise_cases content e). Qed.

(** ** White space around a line *)

Lemma lstrip_spaces (ws s : str) : all_space ws -> lstrip (ws ++ s) = lstrip s.
Proof.
  induction 1 as [|c ws Hc Hws IH]; cbn [app lstrip]; [reflexivity|].
  rewrite Hc. exact IH.
Qed.

Lemma all_space_rev (ws : str) : all_space ws -> all_space (rev ws).
Proof. apply Forall_rev. Qed.

Lemma rstrip_spaces (s ws : str) : all_space ws -> rstrip (s ++ ws) = rstrip s.
Proof.
  intros Hws. unfold rstrip. rewrite rev_app_distr.
  rewrite (lstrip_spaces (rev ws) (rev s) (all_space_rev ws Hws)). reflexivity.
Qed.

Lemma strip_spaces (ws1 s ws2 : str) :
  all_space ws1 -> all_space ws2 -> strip (ws1 ++ s ++ ws2) = strip s.
Proof.
  intros H1 H2. unfold strip. rewrite (lstrip_spaces ws1 _ H1).
  induction s as [|c s IH]; cbn [app lstrip].
  - rewrite <- (app_nil_r ws2), (lstrip_spaces ws2 [] H2). reflexivity.
  - destruct (is_space c); [exact IH|].
    apply (rstrip_spaces (c :: s) ws2 H2).
Qed.

(** X6. White space before and after a line does not count: the line is
    processed as if it were not there. *)
Theorem surrounding_white_space_is_ignored (st : profile) (ws1 line ws2 : str) :
  all_space ws1 -> all_space ws2 ->
  parse_step st (ws1 ++ line ++ ws2) = parse_step st line.
Proof.
  intros H1 H2. unfold parse_step. rewrite (strip_spaces ws1 line ws2 H1 H2).
  reflexivity.
Qed.

Lemma surrounding_white_space_is_ignored_witness :
  parse_step (Profile (0 # 1) [])
    (["009"%char; " "%char] ++ lit "Filter 1: ON PK Fc 105 Hz Gain -3.5 dB Q 0.70"
     ++ [" "%char; "013"%char])
  = parse_step (Profile (0 # 1) []) "Filter 1: ON PK Fc 105 Hz Gain -3.5 dB Q 0.70".
Proof.
  apply surrounding_white_space_is_ignored; repeat constructor.
Defined.

(** ** Form factors *)

Lemma contains_lower_mentions (keyword s : str) :
  contains keyword (lower s) = true <-> mentions keyword s.
Proof.
  rewrite contains_substring. unfold mentions. split.
  - intros [a [b H]]. unfold lower in H. apply map_eq_app in H.
    destruct H as [a' [r [-> [_ H]]]]. apply map_eq_app in H.
    destruct H as [x [b' [-> [Hx _]]]]. exists a', x, b'. auto.
  - intros [a [x [b [-> <-]]]]. exists (lower a), (lower b).
    rewrite !lower_app. reflexivity.
Qed.

(** X7. The form factor of a target folder goes by keywords, letter case
    aside and anywhere in the name: in-ear when the name holds [in-ear],
    [in_ear] or [iem], even if it also holds [earbud]; otherwise earbud when
    it holds [earbud]; otherwise over-ear. *)
Theorem form_factor_by_keyword (target_folder : str) :
  (mentions_in_ear target_folder -> detect_form_factor target_folder = in_ear)
  /\ (~ mentions_in_ear target_folder -> mentions "earbud" target_folder ->
      detect_form_factor target_folder = earbud)
  /\ (~ mentions_in_ear target_folder -> ~ mentions "earbud" target_folder ->
      detect_form_factor target_folder = over_ear).
Proof.
  unfold detect_form_factor, mentions_in_ear.
  rewrite <- !contains_lower_mentions.
  destruct (contains "in-ear" (lower target_folder));
    destruct (contains "in_ear" (lower target_folder));
    destruct (contains "iem" (lower target_folder));
    destruct (contains "earbud" (lower target_folder)); cbn [orb];
    repeat split; intros; try reflexivity; try tauto; try congruence;
    try (exfalso; intuition congruence).
Qed.

Lemma form_factor_by_keyword_witness :
  detect_form_factor "Earbud and IEM targets" = in_ear.
Proof.
  apply (proj1 (form_factor_by_keyword "Earbud and IEM targets")).
  right. right. exists (lit "Earbud and "), (lit "IEM"), (lit " targets").
  split; reflexivity.
Defined.

Lemma lower_upper (s : str) : lower (upper s) = lower s.
Proof.
  unfold lower, upper. rewrite map_map. apply map_ext. apply lower_upper_char.
Qed.

Lemma lower_lower (s : str) : lower (lower s) = lower s.
Proof.
  unfold lower. rewrite map_map. apply map_ext. apply lower_char_idem.
Qed.

(** ** Folder names, read backwards *)

Lemma manufacturers_not_empty : Forall (fun m : str => m <> []) manufacturers.
Proof. unfold manufacturers. repeat constructor; discriminate. Qed.

Lemma names_manufacturer_not_empty (mfr folder_name : str) :
  mfr <> [] -> names_manufacturer mfr folder_name -> folder_name <> [].
Proof.
  intros Hm [H | [rest H]] ->; destruct mfr; try congruence; discriminate.
Qed.

Lemma match_manufacturer_inv (mfrs : list str) (folder_name m model : str) :
  match_manufacturer mfrs folder_name = Some (m, model) ->
  exists before after,
    mfrs = before ++ m :: after
    /\ names_manufacturer m folder_name
    /\ (forall m', In m' before -> ~ names_manufacturer m' folder_name)
    /\ model = match strip (skipn (length m) folder_name) with
               | [] => folder_name
               | c :: r => c :: r
               end.
Proof.
  induction mfrs as [|m0 mfrs IH]; [discriminate|].
  rewrite match_manufacturer_step.
  destruct (manufacturer_test m0 folder_name) eqn:E.
  - intros H; injection H as <- <-. exists [], mfrs.
    apply manufacturer_test_spec in E. split; [reflexivity|]. split; [exact E|].
    split; [intros m' []|reflexivity].
  - intros H. destruct (IH H) as [before [after [-> [Hn [Hb Hm]]]]].
    exists (m0 :: before), after. split; [reflexivity|]. split; [exact Hn|].
    split; [|exact Hm]. intros m' [<- | Hin]; [|apply Hb; exact Hin].
    intros Hx. apply manufacturer_test_spec in Hx. congruence.
Qed.

Lemma match_manufacturer_none_inv (mfrs : list str) (folder_name : str) :
  match_manufacturer mfrs folder_name = None ->
  forall m, In m mfrs -> ~ names_manufacturer m folder_name.
Proof.
  induction mfrs as [|m0 mfrs IH]; [intros _ m []|].
  rewrite match_manufacturer_step.
  destruct (manufacturer_test m0 folder_name) eqn:E; [discriminate|].
  intros H m [<- | Hin]; [|apply IH; assumption].
  intros Hx. apply manufacturer_test_spec in Hx. congruence.
Qed.

(** X8. What a result of [parse_headphone_name] tells about the folder.
    Either the manufacturer is one of the list, in the spelling of the list,
    it names the folder, no earlier one of the list does, and the model is
    not empty; or no manufacturer of the list names the folder, the
    manufacturer holds no space, and the folder name is manufacturer, space,
    model, or the manufacturer alone with an empty model. *)
Theorem parse_headphone_name_inv (folder_name m model : str) :
  parse_headphone_name folder_name = (m, model) ->
  (model <> []
   /\ names_manufacturer m folder_name
   /\ exists before after,
        manufacturers = before ++ m :: after
        /\ forall m', In m' before -> ~ names_manufacturer m' folder_name)
  \/ ((forall m', In m' manufacturers -> ~ names_manufacturer m' folder_name)
      /\ ~ In " "%char m
      /\ (folder_name = m ++ " " ++ model \/ (folder_name = m /\ model = []))).
Proof.
  unfold parse_headphone_name.
  destruct (match_manufacturer manufacturers folder_name) as [[m1 model1]|] eqn:E.
  - intros H; injection H as -> ->. left.
    apply match_manufacturer_inv in E.
    destruct E as [before [after [Hl [Hn [Hb Hm]]]]].
    split; [|split; [exact Hn | exists before, after; auto]].
    assert (Hne : folder_name <> []).
    { apply (names_manufacturer_not_empty m folder_name); [|exact Hn].
      pose proof manufacturers_not_empty as Hall. rewrite Forall_forall in Hall.
      apply Hall. rewrite Hl. apply in_or_app. right. left. reflexivity. }
    rewrite Hm. destruct (strip (skipn (length m) folder_name)); [exact Hne | discriminate].
  - intros H. right. split; [apply match_manufacturer_none_inv; exact E|].
    destruct (split1_cases " "%char folder_name) as [[Hs Hn] | [a [b [Hs [Hf Hn]]]]];
      rewrite Hs in H; injection H as <- <-.
    + split; [exact Hn | right; auto].
    + split; [exact Hn | left; exact Hf].
Qed.

Lemma parse_headphone_name_inv_witness :
  (lit "HE400se" <> []
   /\ names_manufacturer "HIFIMAN" "HIFIMAN HE400se"
   /\ exists before after,
        manufacturers = before ++ lit "HIFIMAN" :: after
        /\ forall m', In m' before -> ~ names_manufacturer m' "HIFIMAN HE400se")
  \/ ((forall m', In m' manufacturers -> ~ names_manufacturer m' "HIFIMAN HE400se")
      /\ ~ In " "%char (lit "HIFIMAN")
      /\ (lit "HIFIMAN HE400se" = lit "HIFIMAN" ++ " " ++ lit "HE400se"
          \/ (lit "HIFIMAN HE400se" = lit "HIFIMAN" /\ lit "HE400se" = []))).
Proof.
  apply (parse_headphone_name_inv "HIFIMAN HE400se" "HIFIMAN" "HE400se").
  reflexivity.
Defined.

(** ** The key of a folder does not depend on letter case *)

Lemma is_space_lower_char c : is_space (lower_char c) = is_space c.
Proof. each_char c. Qed.

Lemma eqb_space_lower_char c :
  Ascii.eqb (lower_char c) " "%char = Ascii.eqb c " "%char.
Proof. each_char c. Qed.

Lemma lstrip_lower (s : str) : lstrip (lower s) = lower (lstrip s).
Proof.
  induction s as [|c s IH]; [reflexivity|].
  cbn [lower map lstrip]. rewrite is_space_lower_char.
  destruct (is_space c); [exact IH | reflexivity].
Qed.

Lemma lower_rev (s : str) : lower (rev s) = rev (lower s).
Proof. apply map_rev. Qed.

Lemma rstrip_lower (s : str) : rstrip (lower s) = lower (rstrip s).
Proof.
  unfold rstrip. rewrite <- lower_rev, lstrip_lower, lower_rev. reflexivity.
Qed.

Lemma strip_lower (s : str) : strip (lower s) = lower (strip s).
Proof. unfold strip. rewrite lstrip_lower, rstrip_lower. reflexivity. Qed.

Lemma split1_lower (s : str) :
  split1 " "%char (lower s) = map lower (split1 " "%char s).
Proof.
  induction s as [|c s IH]; [reflexivity|].
  cbn [lower map split1]. rewrite eqb_space_lower_char.
  destruct (Ascii.eqb c " "%char); [reflexivity|].
  fold (lower s). rewrite IH.
  destruct (split1 " "%char s) as [|w ws]; reflexivity.
Qed.

Lemma manufacturer_test_lower (mfr folder_name : str) :
  manufacturer_test mfr (lower folder_name) = manufacturer_test mfr folder_name.
Proof. unfold manufacturer_test. rewrite lower_lower. reflexivity. Qed.

Lemma match_manufacturer_lower (mfrs : list str) (folder_name : str) :
  match_manufacturer mfrs (lower folder_name) =
  match match_manufacturer mfrs folder_name with
  | Some (m, model) => Some (m, lower model)
  | None => None
  end.
Proof.
  induction mfrs as [|m0 mfrs IH]; [reflexivity|].
  rewrite !match_manufacturer_step, manufacturer_test_lower.
  destruct (manufacturer_test m0 folder_name); [|exact IH].
  unfold lower at 1. rewrite skipn_map. fold (lower (skipn (length m0) folder_name)).
  rewrite strip_lower.
  destruct (strip (skipn (length m0) folder_name)); reflexivity.
Qed.

Lemma headphone_key_lower (folder_name : str) :
  headphone_key (lower folder_name) = headphone_key folder_name.
Proof.
  unfold headphone_key, parse_headphone_name.
  rewrite match_manufacturer_lower.
  destruct (match_manufacturer manufacturers folder_name) as [[m model]|].
  - rewrite lower_lower. reflexivity.
  - rewrite split1_lower.
    destruct (split1 " "%char folder_name) as [|a [|b [|c r]]]; cbn [map];
      rewrite ?lower_lower; reflexivity.
Qed.

(** X9. Two folder names that differ only in letter case have the same key,
    so their entries compete for one place in the catalog. *)
Theorem key_ignores_case (folder1 folder2 : str) :
  lower folder1 = lower folder2 -> headphone_key folder1 = headphone_key folder2.
Proof.
  intros H. rewrite <- (headphone_key_lower folder1), <- (headphone_key_lower folder2), H.
  reflexivity.
Qed.

Lemma key_ignores_case_witness :
  headphone_key "sennheiser  hd 600" = headphone_key "SENNHEISER  HD 600".
Proof. apply key_ignores_case. reflexivity. Defined.

(** ** When the run completes *)

Lemma for_each_ok_inv {A S : Type} (body : S -> A -> result S) (xs : list A) :
  forall s s', for_each body xs s = Ok s' ->
  forall x, In x xs -> exists s1 s2, body s1 x = Ok s2.
Proof.
  induction xs as [|x xs IH]; intros s s'; cbn [for_each]; [intros _ y []|].
  destruct (body s x) as [s1|e] eqn:E; cbn [bind]; [|discriminate].
  intros H y [<- | Hy]; [exists s, s1; exact E | apply (IH _ _ H y Hy)].
Qed.

Lemma parse_content_safe (content : str) :
  (forall raw, In raw (split newline content) ->
               parse_line (strip raw) <> Raise ValueError)
  <-> exists p, parse_content content = Ok p.
Proof.
  split.
  - intros Hs. destruct (parse_content content) as [p|e] eqn:E; [eauto|].
    apply parse_content_raise_cases in E. destruct E as [_ [raw [Hin Hr]]].
    exfalso. apply (Hs raw Hin Hr).
  - intros [p Hp] raw Hin Hr.
    assert (E : parse_content content = Raise ValueError).
    { apply parse_content_raise_cases. split; [reflexivity|]. exists raw. auto. }
    congruence.
Qed.

Lemma visit_target_ok_safe priority source_name d (item : str * node) d' :
  visit_target priority source_name d item = Ok d' -> target_safe item.
Proof.
  destruct item as [tf [c | headphones]]; unfold target_safe, visit_target;
    cbn [is_dir negb listdir bind]; [intros _; exact I|].
  intros Hd. rewrite Forall_forall. intros x Hx.
  destruct (for_each_ok_inv _ _ _ _ Hd x Hx) as [s1 [s2 Hb]].
  destruct x as [hf [c | children]]; [exact I|].
  unfold headphone_safe. unfold visit_headphone in Hb.
  cbn [is_dir negb child] in Hb.
  destruct (lookup (hf ++ " ParametricEQ.txt") children) as [[[content|] | ch]|];
    try exact I.
  cbn [parse_profile] in Hb. apply parse_content_safe.
  destruct (parse_content content) as [p|e]; [eauto | discriminate].
Qed.

Lemma visit_source_ok_safe (results_path : node) d (item : str * (Z * str)) d' :
  visit_source results_path d item = Ok d' -> source_safe results_path item.
Proof.
  destruct item as [sf [priority source_name]]. unfold source_safe, visit_source.
  cbn [fst]. destruct (child results_path sf) as [[c | targets]|]; cbn [listdir bind].
  - discriminate.
  - intros Hd. rewrite Forall_forall. intros x Hx.
    destruct (for_each_ok_inv _ _ _ _ Hd x Hx) as [s1 [s2 Hb]].
    apply (visit_target_ok_safe _ _ _ _ _ Hb).
  - intros _. exact I.
Qed.

Lemma collect_ok_safe (results_path : node) (d : dict) :
  collect results_path = Ok d -> tree_safe results_path.
Proof.
  unfold tree_safe, collect. intros Hd. rewrite Forall_forall. intros x Hx.
  destruct (for_each_ok_inv _ _ _ _ Hd x Hx) as [s1 [s2 Hb]].
  apply (visit_source_ok_safe _ _ _ _ Hb).
Qed.

(** X10. The run prints a catalog only when it is given a root that exists,
    none of the known source folders under it is a regular file, and no
    line of a profile it reaches raises: after any of these the run exits
    with status 1 or dies of an exception, and prints no catalog. *)
Theorem main_prints_only_if (argv : list str) (fs : str -> option node) (now : str)
  (cat : catalog) :
  main argv fs now = Printed cat ->
  exists prog arg rest results_path,
    argv = prog :: arg :: rest /\ fs arg = Some results_path
    /\ tree_safe results_path.
Proof.
  intros H. apply main_printed in H.
  destruct H as [prog [arg [rest [root [d [Ha [Hf [Hc _]]]]]]]].
  exists prog, arg, rest, root. split; [exact Ha|]. split; [exact Hf|].
  apply (collect_ok_safe root d Hc).
Qed.

Lemma main_prints_only_if_witness :
  exists prog arg rest results_path,
    sample_argv = prog :: arg :: rest
    /\ sample_fs sample_tree arg = Some results_path
    /\ tree_safe results_path.
Proof.
  apply (main_prints_only_if sample_argv (sample_fs sample_tree) sample_now
           (build_database (merge_all (candidates sample_tree) []) sample_now)).
  vm_compute. reflexivity.
Defined.

(** X11. A root under which none of the known source folders exists (an
    empty directory, a directory of other folders, a regular file) gives the
    empty catalog, with a count of zero, and no error. *)
Theorem root_without_sources_gives_empty_catalog
  (prog arg : str) (rest : list str) (fs : str -> option node) (now : str)
  (results_path : node) :
  fs arg = Some results_path ->
  (forall item, In item SOURCE_INFO -> child results_path (fst item) = None) ->
  main (prog :: arg :: rest) fs now = Printed (Catalog 1 now 0 []).
Proof.
  intros Hf Hn. unfold main. rewrite Hf.
  assert (Hc : collect results_path = Ok []).
  { unfold collect. revert Hn. generalize SOURCE_INFO. intros l.
    induction l as [|[sf [pr sn]] l IH]; intros Hn; cbn [for_each]; [reflexivity|].
    unfold visit_source at 1.
    pose proof (Hn (sf, (pr, sn)) (or_introl eq_refl)) as H0. cbn [fst] in H0.
    rewrite H0.
    apply IH. intros item Hin. apply Hn. right. exact Hin. }
  rewrite Hc. reflexivity.
Qed.

Lemma root_without_sources_gives_empty_catalog_witness :
  main [lit "generate_index.py"; lit "/tmp/autoeq/results"]
       (sample_fs (File (Some (lit "not a directory")))) sample_now
  = Printed (Catalog 1 sample_now 0 []).
Proof.
  apply (root_without_sources_gives_empty_catalog
           "generate_index.py" "/tmp/autoeq/results" []
           (sample_fs (File (Some (lit "not a directory")))) sample_now
           (File (Some (lit "not a directory")))).
  - reflexivity.
  - intros item _. reflexivity.
Defined.

(** ** The entries of a catalog *)

Lemma parse_content_nonneg (content : str) (p : profile) :
  parse_content content = Ok p -> Forall freq_and_q_nonneg (p_filters p).
Proof.
  unfold parse_content. intros H.
  apply (for_each_invariant (fun st => Forall freq_and_q_nonneg (p_filters st))
           parse_step) with (3 := H).
  - intros s x s' Hs E. eapply parse_step_nonneg; eassumption.
  - constructor.
Qed.

Lemma headphone_candidates_well_formed source_folder priority source_name ff item c :
  In (source_folder, (priority, source_name)) SOURCE_INFO ->
  In c (headphone_candidates priority source_name ff item) ->
  entry_well_formed (cand_entry c)
  /\ cand_key c = headphone_key (skipn (length source_name + 1) (e_id (cand_entry c))).
Proof.
  intros Hsrc. destruct item as [hf hp]. unfold headphone_candidates.
  destruct (negb (is_dir hp)); [intros []|].
  destruct (child hp (hf ++ " ParametricEQ.txt")) as [[[content|] | ch]|];
    cbn [parse_profile]; try (intros []).
  destruct (parse_content content) as [p|e] eqn:Ep; cbn [bind]; [|intros []].
  destruct (p_filters p) as [|f fs] eqn:Ef; [intros []|].
  destruct (parse_headphone_name hf) as [m model] eqn:En.
  intros [<- | []]. cbn [cand_entry cand_key e_id].
  split.
  - unfold entry_well_formed.
    cbn [e_filters e_source e_id e_manufacturer e_model].
    split; [discriminate|]. split.
    + rewrite <- Ef. apply (parse_content_nonneg content p Ep).
    + split; [exists source_folder, priority; exact Hsrc|].
      exists hf. split; [reflexivity | exact En].
  - replace (skipn (length source_name + 1) (source_name ++ "/" ++ hf)) with hf.
    + unfold headphone_key. rewrite En. reflexivity.
    + rewrite Nat.add_comm, <- skipn_skipn, skipn_app, skipn_all, Nat.sub_diag.
      reflexivity.
Qed.

Lemma candidates_well_formed (results_path : node) (c : candidate) :
  In c (candidates results_path) -> entry_well_formed (cand_entry c).
Proof.
  unfold candidates. rewrite in_flat_map. intros [[sf [pr sn]] [Hsrc H]].
  unfold source_candidates in H.
  destruct (child results_path sf) as [[content | targets]|]; try contradiction.
  rewrite in_flat_map in H. destruct H as [[tf tp] [_ H]].
  unfold target_candidates in H. destruct tp as [content | headphones]; [contradiction|].
  rewrite in_flat_map in H. destruct H as [item [_ H]].
  apply (headphone_candidates_well_formed sf pr sn _ item c Hsrc H).
Qed.

(** What [merge] and a run of merges hold. *)
Lemma merge_values (d : dict) (k : key) (priority : Z) (e : entry) (kv : key * stored) :
  In kv (merge d k priority e) -> In kv d \/ kv = (k, Stored priority e).
Proof.
  unfold merge. intros H.
  assert (Hs : In kv (dict_set k (Stored priority e) d) ->
               In kv d \/ kv = (k, Stored priority e)).
  { intros Hin. destruct (dict_set_values _ _ _ _ Hin) as [Hd | [H1 H2]]; [auto|].
    right. destruct kv as [k' v']. cbn [fst snd] in *. subst. reflexivity. }
  destruct (dict_get k d) as [kept|]; [|auto].
  destruct (priority <? s_priority kept)%Z; auto.
Qed.

Lemma merge_all_values (cs : list candidate) : forall (d : dict) (kv : key * stored),
  In kv (merge_all cs d) ->
  In kv d \/ exists c, In c cs
                       /\ kv = (cand_key c, Stored (cand_priority c) (cand_entry c)).
Proof.
  induction cs as [|c cs IH]; intros d kv; cbn [merge_all fold_left]; [auto|].
  intros H. apply IH in H. destruct H as [H | [c' [Hin Hc']]].
  - apply merge_values in H. destruct H as [H | H]; [auto|].
    right. exists c. split; [left; reflexivity | exact H].
  - right. exists c'. split; [right; exact Hin | exact Hc'].
Qed.

Lemma merge_keeps_keys (d : dict) (k k' : key) (priority : Z) (e : entry) :
  dict_get k' d <> None -> dict_get k' (merge d k priority e) <> None.
Proof.
  intros H. destruct (key_eq_dec k' k) as [-> | Hne].
  - rewrite merge_same. destruct (dict_get k d) as [kept|]; [|discriminate].
    destruct (priority <? s_priority kept)%Z; discriminate.
  - rewrite merge_other by exact Hne. exact H.
Qed.

Lemma merge_all_keeps_keys (cs : list candidate) : forall (d : dict) (k : key),
  dict_get k d <> None -> dict_get k (merge_all cs d) <> None.
Proof.
  induction cs as [|c cs IH]; intros d k H; cbn [merge_all fold_left]; [exact H|].
  apply IH. apply merge_keeps_keys. exact H.
Qed.

Lemma merge_all_has_keys (cs : list candidate) : forall (d : dict) (c : candidate),
  In c cs -> dict_get (cand_key c) (merge_all cs d) <> None.
Proof.
  induction cs as [|c0 cs IH]; intros d c; cbn [merge_all fold_left In]; [tauto|].
  intros [<- | Hin]; [|apply IH; exact Hin].
  apply merge_all_keeps_keys. unfold merge_candidate. rewrite merge_same.
  destruct (dict_get (cand_key c0) d) as [kept|]; [|discriminate].
  destruct (cand_priority c0 <? s_priority kept)%Z; discriminate.
Qed.

Lemma dict_set_length (k : key) (v : stored) (d : dict) :
  length (dict_set k v d) <= S (length d).
Proof.
  induction d as [|[k' v'] d IH]; cbn [dict_set length]; [lia|].
  destruct (key_eqb k k'); cbn [length]; lia.
Qed.

Lemma merge_all_length (cs : list candidate) : forall d : dict,
  length (merge_all cs d) <= length d + length cs.
Proof.
  induction cs as [|c cs IH]; intros d; cbn [merge_all fold_left length]; [lia|].
  fold (merge_all cs (merge_candidate d c)).
  specialize (IH (merge_candidate d c)).
  assert (H : length (merge_candidate d c) <= S (length d)).
  { unfold merge_candidate, merge. destruct (dict_get (cand_key c) d) as [kept|].
    - destruct (cand_priority c <? s_priority kept)%Z; [apply dict_set_length | lia].
    - apply dict_set_length. }
  lia.
Qed.

Lemma catalog_entry_stored (d : dict) (now : str) (e : entry) :
  In e (c_entries (build_database d now)) <->
  exists k priority, In (k, Stored priority e) d.
Proof.
  split.
  - intros Hin.
    apply (Permutation_in _ (Permutation_sym (build_database_entries d now))) in Hin.
    unfold dict_values in Hin. rewrite map_map, in_map_iff in Hin.
    destruct Hin as [[k [pr e']] [He Hin]]. cbn [snd s_entry] in He. subst e'.
    exists k, pr. exact Hin.
  - intros [k [pr Hin]].
    apply (Permutation_in _ (build_database_entries d now)).
    unfold dict_values. rewrite map_map, in_map_iff.
    exists (k, Stored pr e). split; [reflexivity | exact Hin].
Qed.

(** X12. Every entry of a printed catalog has at least one filter, no filter
    with a negative frequency or Q, a source name of [SOURCE_INFO], an id
    made of that source name, a slash and a folder name, and the
    manufacturer and model [parse_headphone_name] gives for that folder. *)
Theorem catalog_entries_well_formed (argv : list str) (fs : str -> option node)
  (now : str) (cat : catalog) :
  main argv fs now = Printed cat -> Forall entry_well_formed (c_entries cat).
Proof.
  intros H. apply main_printed in H.
  destruct H as [prog [arg [rest [root [d [_ [_ [Hc ->]]]]]]]].
  rewrite Forall_forall. intros e Hin.
  apply catalog_entry_stored in Hin. destruct Hin as [k [pr Hin]].
  rewrite (@collect_merges root d Hc) in Hin.
  apply merge_all_values in Hin. destruct Hin as [[] | [c [Hc' Hkv]]].
  injection Hkv as _ _ ->. apply (candidates_well_formed root c Hc').
Qed.

Lemma catalog_entries_well_formed_witness :
  Forall entry_well_formed
    (c_entries (build_database (merge_all (candidates sample_tree) []) sample_now)).
Proof.
  apply (catalog_entries_well_formed sample_argv (sample_fs sample_tree) sample_now).
  vm_compute. reflexivity.
Defined.

(** X13. The printed catalog holds one entry for each key of a headphone
    with a usable profile and nothing else: every entry is that of a folder
    the traversal reached, every such folder has an entry under its key, and
    the count is at most the number of those folders. *)
Theorem catalog_covers_the_candidates
  (prog arg : str) (rest : list str) (fs : str -> option node) (now : str)
  (results_path : node) (cat : catalog) :
  fs arg = Some results_path ->
  main (prog :: arg :: rest) fs now = Printed cat ->
  (forall e, In e (c_entries cat) ->
             exists c, In c (candidates results_path)
                       /\ cand_entry c = e /\ cand_key c = sort_key e)
  /\ (forall c, In c (candidates results_path) ->
                exists e, In e (c_entries cat) /\ sort_key e = cand_key c)
  /\ c_entryCount cat <= length (candidates results_path).
Proof.
  intros Hf Hmain. unfold main in Hmain. rewrite Hf in Hmain.
  destruct (collect results_path) as [d|e] eqn:Ec; [|discriminate].
  injection Hmain as <-. pose proof (@collect_ok results_path d Ec) as Hok.
  pose proof (@collect_merges results_path d Ec) as Hd. split; [|split].
  - intros e Hin. apply catalog_entry_stored in Hin. destruct Hin as [k [pr Hin]].
    rewrite Hd in Hin. apply merge_all_values in Hin.
    destruct Hin as [[] | [c [Hc Hkv]]]. injection Hkv as _ _ ->.
    exists c. split; [exact Hc|]. split; [reflexivity|].
    apply (@candidates_keyed results_path c Hc).
  - intros c Hc.
    destruct (dict_get (cand_key c) d) as [v|] eqn:Eg.
    + destruct (@kept_entry_in_catalog d now (cand_key c) v Hok Eg) as [Hin _].
      exists (s_entry v). split; [exact Hin|].
      apply dict_get_in in Eg. destruct Hok as [_ Hkeys].
      rewrite Forall_forall in Hkeys. symmetry. apply (Hkeys _ Eg).
    + exfalso. rewrite Hd in Eg.
      apply (merge_all_has_keys (candidates results_path) [] c Hc Eg).
  - cbn [build_database c_entryCount].
    rewrite <- (Permutation_length (sort_entries_perm _)).
    unfold dict_values. rewrite !length_map, Hd.
    apply (merge_all_length (candidates results_path) []).
Qed.

Lemma catalog_covers_the_candidates_witness :
  let cat := build_database (merge_all (candidates sample_tree) []) sample_now in
  (forall e, In e (c_entries cat) ->
             exists c, In c (candidates sample_tree)
                       /\ cand_entry c = e /\ cand_key c = sort_key e)
  /\ (forall c, In c (candidates sample_tree) ->
                exists e, In e (c_entries cat) /\ sort_key e = cand_key c)
  /\ c_entryCount cat <= length (candidates sample_tree).
Proof.
  apply (catalog_covers_the_candidates
           "generate_index.py" "/tmp/autoeq/results" []
           (sample_fs sample_tree) sample_now sample_tree).
  - reflexivity.
  - vm_compute. reflexivity.
Defined.

(** ** The order of the visits *)







(** With a tie the first visited stays: the order of the visits shows. *)
Example tie_keeps_first_visited (k : key) (priority : Z) (e1 e2 : entry) :
  dict_get k (merge_all [Candidate k priority e1; Candidate k priority e2] [])
  = Some (Stored priority e1)
  /\ dict_get k (merge_all [Candidate k priority e2; Candidate k priority e1] [])
     = Some (Stored priority e2).
Proof.
  split.
  - apply (merge_all_best [] (Candidate k priority e1) [Candidate k priority e2]).
    + intros c' [].
    + intros c' [<- | []] _. cbn. lia.
  - apply (merge_all_best [] (Candidate k priority e2) [Candidate k priority e1]).
    + intros c' [].
    + intros c' [<- | []] _. cbn. lia.
Qed.

(** ** Items the loops pass over *)

Lemma for_each_app {A S : Type} (body : S -> A -> result S) (xs ys : list A) (s : S) :
  for_each body (xs ++ ys) s = (s' <- for_each body xs s ;; for_each body ys s').
Proof.
  revert s. induction xs as [|x xs IH]; intros s; cbn [app for_each bind]; [reflexivity|].
  destruct (body s x) as [s1|e]; cbn [bind]; [apply IH | reflexivity].
Qed.

(** X15. An item of a target folder that is not a directory, or a headphone
    folder without its profile file, or with a profile that cannot be read
    or has no filter, can be taken out of the listing: the target is
    processed as if the item were not there. *)
Theorem passed_over_items_do_not_count
  (priority : Z) (source_name : str) (all_entries : dict) (target_folder : str)
  (before after : list (str * node)) (name : str) (n : node) :
  (is_dir n = false
   \/ exists children,
        n = Dir children
        /\ (lookup (name ++ " ParametricEQ.txt") children = None
            \/ (exists ch, lookup (name ++ " ParametricEQ.txt") children = Some (Dir ch))
            \/ lookup (name ++ " ParametricEQ.txt") children = Some (File None)
            \/ exists content p,
                 lookup (name ++ " ParametricEQ.txt") children = Some (File (Some content))
                 /\ parse_content content = Ok p /\ p_filters p = [])) ->
  visit_target priority source_name all_entries
    (target_folder, Dir (before ++ (name, n) :: after))
  = visit_target priority source_name all_entries
      (target_folder, Dir (before ++ after)).
Proof.
  intros Hn.
  assert (Hpass : forall d,
             visit_headphone priority source_name (detect_form_factor target_folder)
               d (name, n) = Ok d).
  { intros d. unfold visit_headphone.
    destruct Hn as [Hf | [children [-> [H | [[ch H] | [H | [content [p [H [Hp Hfs]]]]]]]]]].
    - rewrite Hf. reflexivity.
    - cbn [is_dir negb child]. rewrite H. reflexivity.
    - cbn [is_dir negb child]. rewrite H. reflexivity.
    - cbn [is_dir negb child]. rewrite H. reflexivity.
    - cbn [is_dir negb child]. rewrite H. cbn [parse_profile]. rewrite Hp.
      cbn [bind]. rewrite Hfs. reflexivity. }
  unfold visit_target. cbn [is_dir negb listdir bind].
  rewrite !for_each_app. cbn [for_each].
  destruct (for_each (visit_headphone priority source_name
                        (detect_form_factor target_folder)) before all_entries)
    as [d|e]; cbn [bind]; [|reflexivity].
  rewrite Hpass. reflexivity.
Qed.

Lemma passed_over_items_do_not_count_witness :
  visit_target 2 "crinacle" []
    (lit "IEM targets",
     Dir ([sample_headphone "Moondrop Aria" sample_profile]
          ++ (lit "README.md", File (Some (lit "notes")))
          :: [sample_headphone "7Hz Zero" sample_profile]))
  = visit_target 2 "crinacle" []
      (lit "IEM targets",
       Dir ([sample_headphone "Moondrop Aria" sample_profile]
            ++ [sample_headphone "7Hz Zero" sample_profile])).
Proof.
  apply passed_over_items_do_not_count. left. reflexivity.
Defined.

(** ** The matcher takes the first and the longest *)

Module ReGreedy.
Import Re.

Lemma keep_run_some it run g0 g1 :
  keep_run it run (Some (g0, g1))
  = Some (run ++ g0, (if cap it then run else []) ++ g1).
Proof.
  induction run as [|c run IH]; cbn [keep_run fold_right app].
  - destruct (cap it); reflexivity.
  - fold (keep_run it run (Some (g0, g1))). rewrite IH. cbn [keep].
    destruct (cap it); reflexivity.
Qed.

(** A repetition whose continuation always succeeds takes all it can. *)
Lemma star_greedy it k :
  (forall s, k s <> None) ->
  forall s, star it k s = keep_run it (take_while (cls it) s) (k (drop_while (cls it) s)).
Proof.
  intros Hk s. induction s as [|c s IH]; cbn [star take_while drop_while].
  - destruct (k []); reflexivity.
  - destruct (cls it c).
    + rewrite IH. cbn [keep_run fold_right].
      fold (keep_run it (take_while (cls it) s) (k (drop_while (cls it) s))).
      destruct (k (drop_while (cls it) s)) as [[g0 g1]|] eqn:E.
      * rewrite keep_run_some. reflexivity.
      * exfalso. apply (Hk _ E).
    + cbn [keep_run fold_right]. destruct (k (c :: s)); reflexivity.
Qed.

Lemma match_nil_total (s : str) : match_here [] s <> None.
Proof. discriminate. Qed.

Lemma take_drop_while (P : ascii -> bool) (s : str) :
  s = take_while P s ++ drop_while P s.
Proof.
  induction s as [|c s IH]; cbn [take_while drop_while]; [reflexivity|].
  destruct (P c); [cbn [app]; rewrite <- IH|]; reflexivity.
Qed.

Lemma drop_while_head (P : ascii -> bool) (s : str) c r :
  drop_while P s = c :: r -> P c = false.
Proof.
  induction s as [|x s IH]; cbn [drop_while]; [discriminate|].
  destruct (P x) eqn:E; [exact IH|]. intros H; injection H as <- _. exact E.
Qed.

(** The digits, with or without a fraction, at the end of a pattern. *)
Lemma digits_at_end (g : bool) (s : str) :
  star (Item is_digit Star g) (match_here []) s
  = Some (take_while is_digit s, if g then take_while is_digit s else []).
Proof.
  rewrite (star_greedy _ _ match_nil_total). cbn [match_here cls].
  rewrite keep_run_some, !app_nil_r. reflexivity.
Qed.

Lemma fraction_at_end (g : bool) (s : str) :
  match_here [Item (Ascii.eqb dot_c) Opt g; Item is_digit Star g] s
  = match s with
    | c :: r =>
        if Ascii.eqb dot_c c
        then Some (c :: take_while is_digit r,
                   if g then c :: take_while is_digit r else [])
        else Some (take_while is_digit s, if g then take_while is_digit s else [])
    | [] => Some ([], [])
    end.
Proof.
  cbn [match_here rep]. destruct s as [|c r]; cbn [one orelse cls].
  - rewrite digits_at_end. cbn [take_while]. destruct g; reflexivity.
  - destruct (Ascii.eqb dot_c c) eqn:E.
    + rewrite digits_at_end. cbn [keep cap orelse]. destruct g; reflexivity.
    + cbn [orelse]. rewrite digits_at_end. reflexivity.
Qed.

Lemma fraction_total (g : bool) (s : str) :
  match_here [Item (Ascii.eqb dot_c) Opt g; Item is_digit Star g] s <> None.
Proof.
  rewrite fraction_at_end. destruct s as [|c r]; [discriminate|].
  destruct (Ascii.eqb dot_c c); discriminate.
Qed.

(** The decimal pattern takes the longest decimal at the start. *)
Lemma match_decimal (g : bool) (s : str) :
  match_here (decimal g) s
  = match decimal_prefix s with
    | Some w => Some (w, if g then w else [])
    | None => None
    end.
Proof.
  unfold decimal, decimal_prefix. cbn [match_here rep].
  destruct s as [|c s]; cbn [one take_while drop_while cls]; [reflexivity|].
  destruct (is_digit c) eqn:Hc; [|reflexivity].
  change (match_here (Item (Ascii.eqb dot_c) Opt g :: [Item is_digit Star g]))
    with (match_here [Item (Ascii.eqb dot_c) Opt g; Item is_digit Star g]).
  rewrite (star_greedy (Item is_digit Plus g) _ (fraction_total g)). cbn [cls].
  rewrite fraction_at_end.
  destruct (drop_while is_digit s) as [|x r] eqn:Ed.
  - rewrite keep_run_some. cbn [keep cap].
    destruct g; cbn [app]; rewrite ?app_nil_r; reflexivity.
  - destruct (Ascii.eqb dot_c x).
    + rewrite keep_run_some. cbn [keep cap].
      destruct g; cbn [app]; rewrite ?app_nil_r; reflexivity.
    + cbn [take_while]. rewrite (drop_while_head is_digit s x r Ed).
      rewrite keep_run_some. cbn [keep cap].
      destruct g; cbn [app]; rewrite ?app_nil_r; reflexivity.
Qed.

Lemma decimal_prefix_digit (s : str) w :
  decimal_prefix s = Some w -> exists c r, s = c :: r /\ is_digit c = true.
Proof.
  unfold decimal_prefix. destruct s as [|c r]; cbn [take_while]; [discriminate|].
  destruct (is_digit c) eqn:E; [|discriminate]. intros _. exists c, r. auto.
Qed.

(** The signed decimal pattern takes the longest signed decimal. *)
Lemma match_signed_decimal (g : bool) (s : str) :
  match_here (signed_decimal g) s
  = match signed_decimal_prefix s with
    | Some w => Some (w, if g then w else [])
    | None => None
    end.
Proof.
  unfold signed_decimal, signed_decimal_prefix.
  cbn [match_here rep]. fold (match_here (decimal g)).
  destruct s as [|c s]; cbn [one orelse cls].
  - rewrite match_decimal. reflexivity.
  - destruct (Ascii.eqb minus_c c) eqn:E.
    + rewrite !match_decimal. destruct (decimal_prefix s) as [w|] eqn:Ew.
      * cbn [keep cap orelse]. destruct g; reflexivity.
      * cbn [keep orelse].
        destruct (decimal_prefix (c :: s)) as [w|] eqn:Ec; [|reflexivity].
        exfalso. apply decimal_prefix_digit in Ec.
        destruct Ec as [c' [r [H Hd]]]. injection H as <- _.
        apply Ascii.eqb_eq in E. subst c. discriminate.
    + cbn [orelse]. rewrite match_decimal. reflexivity.
Qed.

(** What a successful step of the matcher did. *)
Lemma one_inv it next s g0 g1 :
  one it next s = Some (g0, g1) ->
  exists c s' r0 r1, s = c :: s' /\ cls it c = true /\ next s' = Some (r0, r1)
    /\ g0 = c :: r0 /\ g1 = (if cap it then c :: r1 else r1).
Proof.
  destruct s as [|c s']; cbn [one]; [discriminate|].
  destruct (cls it c) eqn:Hc; [|discriminate].
  destruct (next s') as [[r0 r1]|] eqn:E; cbn [keep]; [|discriminate].
  intros H; injection H as <- <-. exists c, s', r0, r1. auto.
Qed.

Lemma star_inv it k s : forall g0 g1,
  star it k s = Some (g0, g1) ->
  exists run s' r0 r1, s = run ++ s' /\ Forall (fun c => cls it c = true) run
    /\ k s' = Some (r0, r1)
    /\ g0 = run ++ r0 /\ g1 = (if cap it then run else []) ++ r1.
Proof.
  induction s as [|c s IH]; intros g0 g1; cbn [star].
  - cbn [orelse]. intros H. exists [], [], g0, g1.
    destruct (cap it); auto.
  - destruct (cls it c) eqn:Hc.
    + destruct (star it k s) as [[a b]|] eqn:E; cbn [keep orelse].
      * intros H; injection H as <- <-.
        destruct (IH a b eq_refl) as [run [s' [r0 [r1 [-> [Hrun [Hk [-> ->]]]]]]]].
        exists (c :: run), s', r0, r1. split; [reflexivity|].
        split; [constructor; assumption|]. split; [exact Hk|].
        destruct (cap it); auto.
      * intros H. exists [], (c :: s), g0, g1. destruct (cap it); auto.
    + cbn [orelse]. intros H. exists [], (c :: s), g0, g1. destruct (cap it); auto.
Qed.

(** [search] returns the match at the first position that has one. *)
Lemma search_leftmost p s r :
  search p s = Some r ->
  exists pre tail, s = pre ++ tail /\ match_here p tail = Some r
    /\ forall pre1 tail1, s = pre1 ++ tail1 -> length pre1 < length pre ->
                          match_here p tail1 = None.
Proof.
  induction s as [|c s IH]; cbn [search].
  - destruct (match_here p []) as [r0|] eqn:E; cbn [orelse]; [|discriminate].
    intros H; injection H as <-. exists [], []. split; [reflexivity|].
    split; [exact E|]. intros pre1 tail1 _ Hl. cbn in Hl. lia.
  - destruct (match_here p (c :: s)) as [r0|] eqn:E; cbn [orelse].
    + intros H; injection H as <-. exists [], (c :: s). split; [reflexivity|].
      split; [exact E|]. intros pre1 tail1 _ Hl. cbn in Hl. lia.
    + intros H. destruct (IH H) as [pre [tail [-> [Hm Hleft]]]].
      exists (c :: pre), tail. split; [reflexivity|]. split; [exact Hm|].
      intros pre1 tail1 Hs Hl. destruct pre1 as [|x pre1].
      * cbn [app] in Hs. subst tail1. exact E.
      * cbn [app] in Hs. injection Hs as _ Hs. apply (Hleft pre1 tail1 Hs).
        cbn [length] in Hl. lia.
Qed.

End ReGreedy.

(** ** Which number is read *)

Lemma fc_token_word (t : str) :
  starts_with_fc_token t -> exists w rest, t = w ++ rest /\ in_language re_fc w.
Proof.
  intros (f & c & ws & d & b & -> & Hf & Hc & Hne & Hws & Hd).
  exists ([f; c] ++ ws ++ [d]), b. split.
  - rewrite <- !app_assoc. reflexivity.
  - destruct (ReComplete.matches_decimal_digit true d Hd) as [g Hm].
    exists g. unfold re_fc. cbn [app].
    apply ReComplete.matches_chr_i; [exact Hf|].
    apply ReComplete.matches_chr_i; [exact Hc|].
    apply ReComplete.matches_spaces; assumption.
Qed.

Lemma gain_token_word (t : str) :
  starts_with_gain_token t -> exists w rest, t = w ++ rest /\ in_language re_gain w.
Proof.
  intros (g & x & i & n & ws & m & d & b & -> & Hg & Hx & Hi & Hn & Hne & Hws & Hm & Hd).
  exists ([g; x; i; n] ++ ws ++ m ++ [d]), b. split.
  - rewrite <- !app_assoc. reflexivity.
  - destruct (ReComplete.matches_signed_decimal_digit true m d Hm Hd) as [g1 H].
    exists g1. unfold re_gain. cbn [app].
    apply ReComplete.matches_chr_i; [exact Hg|].
    apply ReComplete.matches_chr_i; [exact Hx|].
    apply ReComplete.matches_chr_i; [exact Hi|].
    apply ReComplete.matches_chr_i; [exact Hn|].
    apply ReComplete.matches_spaces; assumption.
Qed.

Lemma q_token_word (t : str) :
  starts_with_q_token t -> exists w rest, t = w ++ rest /\ in_language re_q w.
Proof.
  intros (sp & q & ws & d & b & -> & Hsp & Hq & Hne & Hws & Hd).
  exists ([sp; q] ++ ws ++ [d]), b. split.
  - rewrite <- !app_assoc. reflexivity.
  - exists ([] ++ [d] ++ []). unfold re_q. cbn [app].
    apply (@Re.matches_item (Re.Item is_space Re.One false) _ [sp] _ _).
    + constructor; [exact Hsp | constructor].
    + reflexivity.
    + apply ReComplete.matches_chr_i; [exact Hq|].
      apply ReComplete.matches_spaces; [assumption | assumption|].
      apply (@Re.matches_item (Re.Item Re.digit_or_dot Re.Plus true) [] [d] [] []).
      * constructor; [exact Hd | constructor].
      * discriminate.
      * constructor.
Qed.

(** No match at a position: no token starts there. *)
Lemma no_match_no_token (p : Re.pattern) (starts : str -> Prop) :
  (forall t, starts t -> exists w rest, t = w ++ rest /\ in_language p w) ->
  forall t, Re.match_here p t = None -> ~ starts t.
Proof.
  intros Hw t Hn Hs. destruct (Hw t Hs) as [w [rest [E Hl]]].
  apply (ReComplete.match_here_complete p t Hn w rest E Hl).
Qed.

Lemma chr_i_class (x c : ascii) : Re.cls (Re.chr_i x) c = true -> either_case x c.
Proof. cbn [Re.chr_i Re.cls]. intros H. apply Ascii.eqb_eq in H. exact H. Qed.

(** X16. The frequency of a filter is read at the first [Fc] token of the
    line: it is the conversion of the longest decimal number that follows
    the white space of that token, never a part of it; without a token it
    is the default. *)
Theorem frequency_is_first_whole_number (line : str) (v : Q) :
  extract re_fc default_freq line = Ok v ->
  (~ has_fc_token line /\ v = default_freq)
  \/ exists pre f c ws tail number,
       line = pre ++ [f; c] ++ ws ++ tail
       /\ either_case "F" f /\ either_case "c" c /\ ws <> [] /\ all_space ws
       /\ decimal_prefix tail = Some number
       /\ py_float number = Ok v
       /\ forall pre1 tail1, line = pre1 ++ tail1 -> length pre1 < length pre ->
                             ~ starts_with_fc_token tail1.
Proof.
  unfold extract. destruct (Re.search re_fc line) as [[g0 g1]|] eqn:E.
  - intros Hv. right. apply ReGreedy.search_leftmost in E.
    destruct E as [pre [tail0 [-> [Hm Hleft]]]].
    assert (Hm' : Re.one (Re.chr_i "F")
                    (Re.one (Re.chr_i "c")
                       (Re.one (Re.Item is_space Re.Plus false)
                          (Re.star (Re.Item is_space Re.Plus false)
                             (Re.match_here (Re.decimal true))))) tail0
                  = Some (g0, g1)) by exact Hm.
    apply ReGreedy.one_inv in Hm'.
    destruct Hm' as (f & s1 & a1 & b1 & -> & Hf & Hm' & -> & ->).
    apply ReGreedy.one_inv in Hm'.
    destruct Hm' as (c & s2 & a2 & b2 & -> & Hc & Hm' & -> & ->).
    apply ReGreedy.one_inv in Hm'.
    destruct Hm' as (sp & s3 & a3 & b3 & -> & Hsp & Hm' & -> & ->).
    apply ReGreedy.star_inv in Hm'.
    destruct Hm' as (run & tail & r0 & r1 & -> & Hrun & Hm' & -> & ->).
    rewrite ReGreedy.match_decimal in Hm'.
    destruct (decimal_prefix tail) as [number|] eqn:Ed; [|discriminate].
    injection Hm' as <- <-. cbn [Re.chr_i Re.cap app] in Hv.
    exists pre, f, c, (sp :: run), tail, number.
    split; [reflexivity|]. split; [apply chr_i_class; exact Hf|].
    split; [apply chr_i_class; exact Hc|]. split; [discriminate|].
    split; [constructor; assumption|]. split; [exact Ed|]. split; [exact Hv|].
    intros pre1 tail1 Hs Hl.
    apply (no_match_no_token re_fc starts_with_fc_token fc_token_word).
    apply (Hleft pre1 tail1 Hs Hl).
  - intros H; injection H as <-. left. split; [|reflexivity].
    intros Ht. apply (fc_token_found line Ht E).
Qed.

Lemma frequency_is_first_whole_number_witness :
  (~ has_fc_token "Filter 1: ON PK Fc  10.5.2 Hz fc 7" /\ (105 # 10)%Q = default_freq)
  \/ exists pre f c ws tail number,
       lit "Filter 1: ON PK Fc  10.5.2 Hz fc 7" = pre ++ [f; c] ++ ws ++ tail
       /\ either_case "F" f /\ either_case "c" c /\ ws <> [] /\ all_space ws
       /\ decimal_prefix tail = Some number
       /\ py_float number = Ok (105 # 10)%Q
       /\ forall pre1 tail1,
            lit "Filter 1: ON PK Fc  10.5.2 Hz fc 7" = pre1 ++ tail1 ->
            length pre1 < length pre -> ~ starts_with_fc_token tail1.
Proof.
  apply (frequency_is_first_whole_number "Filter 1: ON PK Fc  10.5.2 Hz fc 7").
  reflexivity.
Defined.

(** X17. The gain of a filter is read at the first [Gain] token of the line:
    it is the conversion of the longest decimal number, with its minus sign
    if it has one, that follows the white space of that token; without a
    token it is the default. *)
Theorem gain_is_first_whole_number (line : str) (v : Q) :
  extract re_gain default_gain line = Ok v ->
  (~ has_gain_token line /\ v = default_gain)
  \/ exists pre g a i n ws tail number,
       line = pre ++ [g; a; i; n] ++ ws ++ tail
       /\ either_case "G" g /\ either_case "a" a /\ either_case "i" i
       /\ either_case "n" n /\ ws <> [] /\ all_space ws
       /\ signed_decimal_prefix tail = Some number
       /\ py_float number = Ok v
       /\ forall pre1 tail1, line = pre1 ++ tail1 -> length pre1 < length pre ->
                             ~ starts_with_gain_token tail1.
Proof.
  unfold extract. destruct (Re.search re_gain line) as [[g0 g1]|] eqn:E.
  - intros Hv. right. apply ReGreedy.search_leftmost in E.
    destruct E as [pre [tail0 [-> [Hm Hleft]]]].
    assert (Hm' : Re.one (Re.chr_i "G")
                    (Re.one (Re.chr_i "a")
                       (Re.one (Re.chr_i "i")
                          (Re.one (Re.chr_i "n")
                             (Re.one (Re.Item is_space Re.Plus false)
                                (Re.star (Re.Item is_space Re.Plus false)
                                   (Re.match_here (Re.signed_decimal true))))))) tail0
                  = Some (g0, g1)) by exact Hm.
    apply ReGreedy.one_inv in Hm'.
    destruct Hm' as (g & s1 & a1 & b1 & -> & Hg & Hm' & -> & ->).
    apply ReGreedy.one_inv in Hm'.
    destruct Hm' as (a & s2 & a2 & b2 & -> & Ha & Hm' & -> & ->).
    apply ReGreedy.one_inv in Hm'.
    destruct Hm' as (i & s3 & a3 & b3 & -> & Hi & Hm' & -> & ->).
    apply ReGreedy.one_inv in Hm'.
    destruct Hm' as (n & s4 & a4 & b4 & -> & Hn & Hm' & -> & ->).
    apply ReGreedy.one_inv in Hm'.
    destruct Hm' as (sp & s5 & a5 & b5 & -> & Hsp & Hm' & -> & ->).
    apply ReGreedy.star_inv in Hm'.
    destruct Hm' as (run & tail & r0 & r1 & -> & Hrun & Hm' & -> & ->).
    rewrite ReGreedy.match_signed_decimal in Hm'.
    destruct (signed_decimal_prefix tail) as [number|] eqn:Ed; [|discriminate].
    injection Hm' as <- <-. cbn [Re.chr_i Re.cap app] in Hv.
    exists pre, g, a, i, n, (sp :: run), tail, number.
    split; [reflexivity|]. split; [apply chr_i_class; exact Hg|].
    split; [apply chr_i_class; exact Ha|]. split; [apply chr_i_class; exact Hi|].
    split; [apply chr_i_class; exact Hn|]. split; [discriminate|].
    split; [constructor; assumption|]. split; [exact Ed|]. split; [exact Hv|].
    intros pre1 tail1 Hs Hl.
    apply (no_match_no_token re_gain starts_with_gain_token gain_token_word).
    apply (Hleft pre1 tail1 Hs Hl).
  - intros H; injection H as <-. left. split; [|reflexivity].
    intros Ht. apply (gain_token_found line Ht E).
Qed.

Lemma gain_is_first_whole_number_witness :
  (~ has_gain_token "Filter 1: ON PK Fc 105 Hz GAIN -3.5 dB gain 9" /\ Qopp (35 # 10) = default_gain)
  \/ exists pre g a i n ws tail number,
       lit "Filter 1: ON PK Fc 105 Hz GAIN -3.5 dB gain 9"
       = pre ++ [g; a; i; n] ++ ws ++ tail
       /\ either_case "G" g /\ either_case "a" a /\ either_case "i" i
       /\ either_case "n" n /\ ws <> [] /\ all_space ws
       /\ signed_decimal_prefix tail = Some number
       /\ py_float number = Ok (Qopp (35 # 10))
       /\ forall pre1 tail1,
            lit "Filter 1: ON PK Fc 105 Hz GAIN -3.5 dB gain 9" = pre1 ++ tail1 ->
            length pre1 < length pre -> ~ starts_with_gain_token tail1.
Proof.
  apply (gain_is_first_whole_number "Filter 1: ON PK Fc 105 Hz GAIN -3.5 dB gain 9").
  reflexivity.
Defined.

(** X18. Q is read at the first [Q] token of the line: the longest run of
    digits and dots that follows the white space of that token is handed to
    the conversion, whose result (a number, or [ValueError]) is that of the
    extraction; without a token Q is the default. *)
Theorem q_is_first_whole_run (line : str) :
  (~ has_q_token line /\ extract re_q default_q line = Ok default_q)
  \/ exists pre sp q ws tail,
       line = pre ++ [sp; q] ++ ws ++ tail
       /\ is_space sp = true /\ either_case "Q" q /\ ws <> [] /\ all_space ws
       /\ take_while Re.digit_or_dot tail <> []
       /\ extract re_q default_q line = py_float (take_while Re.digit_or_dot tail)
       /\ forall pre1 tail1, line = pre1 ++ tail1 -> length pre1 < length pre ->
                             ~ starts_with_q_token tail1.
Proof.
  unfold extract. destruct (Re.search re_q line) as [[g0 g1]|] eqn:E.
  - right. apply ReGreedy.search_leftmost in E.
    destruct E as [pre [tail0 [-> [Hm Hleft]]]].
    assert (Hm' : Re.one (Re.Item is_space Re.One false)
                    (Re.one (Re.chr_i "Q")
                       (Re.one (Re.Item is_space Re.Plus false)
                          (Re.star (Re.Item is_space Re.Plus false)
                             (Re.one (Re.Item Re.digit_or_dot Re.Plus true)
                                (Re.star (Re.Item Re.digit_or_dot Re.Plus true)
                                   (Re.match_here [])))))) tail0
                  = Some (g0, g1)) by exact Hm.
    apply ReGreedy.one_inv in Hm'.
    destruct Hm' as (sp0 & s1 & a1 & b1 & -> & Hsp0 & Hm' & -> & ->).
    apply ReGreedy.one_inv in Hm'.
    destruct Hm' as (q & s2 & a2 & b2 & -> & Hq & Hm' & -> & ->).
    apply ReGreedy.one_inv in Hm'.
    destruct Hm' as (sp & s3 & a3 & b3 & -> & Hsp & Hm' & -> & ->).
    apply ReGreedy.star_inv in Hm'.
    destruct Hm' as (run & tail & r0 & r1 & -> & Hrun & Hm' & -> & ->).
    apply ReGreedy.one_inv in Hm'.
    destruct Hm' as (d & s4 & a4 & b4 & -> & Hd & Hm' & -> & ->).
    rewrite (ReGreedy.star_greedy _ _ ReGreedy.match_nil_total) in Hm'.
    cbn [Re.match_here Re.cls] in Hm'. rewrite ReGreedy.keep_run_some in Hm'.
    injection Hm' as <- <-. cbn [Re.cls] in Hd.
    exists pre, sp0, q, (sp :: run), (d :: s4).
    cbn [take_while]. rewrite Hd. cbn [Re.chr_i Re.cap app].
    rewrite !app_nil_r.
    split; [reflexivity|]. split; [exact Hsp0|].
    split; [apply chr_i_class; exact Hq|]. split; [discriminate|].
    split; [constructor; assumption|]. split; [discriminate|].
    split; [reflexivity|].
    intros pre1 tail1 Hs Hl.
    apply (no_match_no_token re_q starts_with_q_token q_token_word).
    apply (Hleft pre1 tail1 Hs Hl).
  - left. split; [|reflexivity].
    intros Ht. apply (q_token_found line Ht E).
Qed.

(** X19. The preamp is read at the first number of the preamp line: the
    conversion of the longest decimal number, with its minus sign if it has
    one, at the first place of the line where one starts. *)
Theorem preamp_is_first_number (line : str) (x : Q) :
  startswith "preamp:" (lower line) = true ->
  parse_line line = Ok (SetPreamp x) ->
  exists pre tail number,
    line = pre ++ tail
    /\ signed_decimal_prefix tail = Some number
    /\ py_float number = Ok x
    /\ forall pre1 tail1, line = pre1 ++ tail1 -> length pre1 < length pre ->
                          signed_decimal_prefix tail1 = None.
Proof.
  intros Hp. unfold parse_line. rewrite Hp.
  destruct (Re.search re_preamp line) as [[g0 g1]|] eqn:E; [|discriminate].
  destruct (py_float g0) as [v|e] eqn:Ef; cbn [bind]; [|discriminate].
  intros H; injection H as <-.
  apply ReGreedy.search_leftmost in E. destruct E as [pre [tail [-> [Hm Hleft]]]].
  unfold re_preamp in Hm. rewrite ReGreedy.match_signed_decimal in Hm.
  destruct (signed_decimal_prefix tail) as [number|] eqn:Ed; [|discriminate].
  injection Hm as <- <-.
  exists pre, tail, number. split; [reflexivity|]. split; [exact Ed|].
  split; [exact Ef|]. intros pre1 tail1 Hs Hl.
  pose proof (Hleft pre1 tail1 Hs Hl) as Hn.
  unfold re_preamp in Hn. rewrite ReGreedy.match_signed_decimal in Hn.
  destruct (signed_decimal_prefix tail1); [discriminate | reflexivity].
Qed.

Lemma preamp_is_first_number_witness :
  exists pre tail number,
    lit "Preamp: -6.5 dB 2" = pre ++ tail
    /\ signed_decimal_prefix tail = Some number
    /\ py_float number = Ok (Qopp (65 # 10))
    /\ forall pre1 tail1, lit "Preamp: -6.5 dB 2" = pre1 ++ tail1 ->
                          length pre1 < length pre ->
                          signed_decimal_prefix tail1 = None.
Proof.
  apply (preamp_is_first_number "Preamp: -6.5 dB 2" (Qopp (65 # 10)));
    reflexivity.
Defined.

(** ** Two runs on the same tree *)





















